(** * The wasm linker driver: configuration, synthetic symbols, wrap, table resolution

    A shallow embedding of [lld/wasm/Driver.cpp].  The driver works on three
    process-wide objects, [config], [symtab] and the error handler; they are
    threaded here as one explicit [LinkState].  Symbol objects live in an
    arena and a [Symbol*] is the index of the object in that arena, so that
    two pointers to the same symbol are the same number and a write through
    one is seen through the other. *)

From Stdlib Require Import ZArith Bool List Lia.
From stdpp Require Import base option strings list gmap fin_maps pretty.

Open Scope string_scope.
Open Scope list_scope.

(** ** Binary-format constants and descriptors *)

(** Values of [llvm/BinaryFormat/Wasm.h], which is not part of the sources at
    hand; they are the numbers of the WebAssembly object-file convention. *)
Definition WASM_TYPE_I32 : Z := 0x7F.
Definition WASM_TYPE_I64 : Z := 0x7E.
Definition WASM_OPCODE_I32_CONST : Z := 0x41.
Definition WASM_OPCODE_I64_CONST : Z := 0x42.
Definition WASM_SYMBOL_VISIBILITY_HIDDEN : Z := 0x4.
Definition WASM_SYMBOL_UNDEFINED : Z := 0x10.

Inductive ValType := I32 | I64 | F32 | F64 | V128 | FUNCREF | EXTERNREF.

(** [uint8_t(ValType::...)] *)
Definition valTypeCode (t : ValType) : Z :=
  match t with
  | I32 => 0x7F | I64 => 0x7E | F32 => 0x7D | F64 => 0x7C
  | V128 => 0x7B | FUNCREF => 0x70 | EXTERNREF => 0x6F
  end.

Record WasmSignature := { Returns : list ValType; Params : list ValType }.

Record WasmGlobalType := { GT_Type : Z; GT_Mutable : bool }.

(** The [Value] union of an init expression is read as the one integer that
    the opcode selects. *)
Record WasmInitExpr := { IE_Opcode : Z; IE_Value : Z }.

Record WasmGlobal :=
  { G_Type : WasmGlobalType; G_InitExpr : WasmInitExpr; G_SymbolName : string }.

Record WasmLimits := { L_Flags : Z; L_Initial : Z; L_Maximum : Z }.

Record WasmTableType := { TT_ElemType : Z; TT_Limits : WasmLimits }.

Record WasmTable :=
  { T_Index : Z; T_Type : WasmTableType; T_SymbolName : string }.

(** ** Configuration *)

Inductive UnresolvedPolicy := ReportError | Warn | Ignore | ImportFuncs.

(** The members of [Configuration] (Config.h) that the driver code below
    reads or writes. *)
Record Configuration := {
  bsymbolic : bool;
  compressRelocations : bool;
  experimentalPic : bool;
  entry : string;
  exportTable : bool;
  gcSections : bool;
  importMemory : bool;
  sharedMemory : bool;
  importTable : bool;
  is64 : option bool;
  isPic : bool;
  ltoo : Z;
  ltoPartitions : Z;
  mergeDataSegments : bool;
  outputFile : string;
  mapFile : string;
  pie : bool;
  relocatable : bool;
  shared : bool;
  stripAll : bool;
  stripDebug : bool;
  thinLTOJobs : string;
  unresolvedSymbols : UnresolvedPolicy;
  allowUndefinedSymbols : gset string;
  exportedSymbols : gset string
}.

(** [make<Configuration>()]: every flag cleared. *)
Definition emptyConfig : Configuration :=
  {| bsymbolic := false; compressRelocations := false; experimentalPic := false;
     entry := ""; exportTable := false; gcSections := false;
     importMemory := false; sharedMemory := false; importTable := false;
     is64 := None; isPic := false; ltoo := 0; ltoPartitions := 0;
     mergeDataSegments := false; outputFile := ""; mapFile := "";
     pie := false; relocatable := false; shared := false; stripAll := false;
     stripDebug := false; thinLTOJobs := ""; unresolvedSymbols := ReportError;
     allowUndefinedSymbols := ∅; exportedSymbols := ∅ |}.

Definition set_isPic (b : bool) (c : Configuration) : Configuration :=
  {| bsymbolic := bsymbolic c; compressRelocations := compressRelocations c;
     experimentalPic := experimentalPic c; entry := entry c;
     exportTable := exportTable c; gcSections := gcSections c;
     importMemory := importMemory c; sharedMemory := sharedMemory c;
     importTable := importTable c; is64 := is64 c; isPic := b;
     ltoo := ltoo c; ltoPartitions := ltoPartitions c;
     mergeDataSegments := mergeDataSegments c; outputFile := outputFile c;
     mapFile := mapFile c; pie := pie c; relocatable := relocatable c;
     shared := shared c; stripAll := stripAll c; stripDebug := stripDebug c;
     thinLTOJobs := thinLTOJobs c; unresolvedSymbols := unresolvedSymbols c;
     allowUndefinedSymbols := allowUndefinedSymbols c;
     exportedSymbols := exportedSymbols c |}.

Definition set_importTable (b : bool) (c : Configuration) : Configuration :=
  {| bsymbolic := bsymbolic c; compressRelocations := compressRelocations c;
     experimentalPic := experimentalPic c; entry := entry c;
     exportTable := exportTable c; gcSections := gcSections c;
     importMemory := importMemory c; sharedMemory := sharedMemory c;
     importTable := b; is64 := is64 c; isPic := isPic c;
     ltoo := ltoo c; ltoPartitions := ltoPartitions c;
     mergeDataSegments := mergeDataSegments c; outputFile := outputFile c;
     mapFile := mapFile c; pie := pie c; relocatable := relocatable c;
     shared := shared c; stripAll := stripAll c; stripDebug := stripDebug c;
     thinLTOJobs := thinLTOJobs c; unresolvedSymbols := unresolvedSymbols c;
     allowUndefinedSymbols := allowUndefinedSymbols c;
     exportedSymbols := exportedSymbols c |}.

Definition set_importMemory (b : bool) (c : Configuration) : Configuration :=
  {| bsymbolic := bsymbolic c; compressRelocations := compressRelocations c;
     experimentalPic := experimentalPic c; entry := entry c;
     exportTable := exportTable c; gcSections := gcSections c;
     importMemory := b; sharedMemory := sharedMemory c;
     importTable := importTable c; is64 := is64 c; isPic := isPic c;
     ltoo := ltoo c; ltoPartitions := ltoPartitions c;
     mergeDataSegments := mergeDataSegments c; outputFile := outputFile c;
     mapFile := mapFile c; pie := pie c; relocatable := relocatable c;
     shared := shared c; stripAll := stripAll c; stripDebug := stripDebug c;
     thinLTOJobs := thinLTOJobs c; unresolvedSymbols := unresolvedSymbols c;
     allowUndefinedSymbols := allowUndefinedSymbols c;
     exportedSymbols := exportedSymbols c |}.

Definition set_unresolvedSymbols (p : UnresolvedPolicy) (c : Configuration)
  : Configuration :=
  {| bsymbolic := bsymbolic c; compressRelocations := compressRelocations c;
     experimentalPic := experimentalPic c; entry := entry c;
     exportTable := exportTable c; gcSections := gcSections c;
     importMemory := importMemory c; sharedMemory := sharedMemory c;
     importTable := importTable c; is64 := is64 c; isPic := isPic c;
     ltoo := ltoo c; ltoPartitions := ltoPartitions c;
     mergeDataSegments := mergeDataSegments c; outputFile := outputFile c;
     mapFile := mapFile c; pie := pie c; relocatable := relocatable c;
     shared := shared c; stripAll := stripAll c; stripDebug := stripDebug c;
     thinLTOJobs := thinLTOJobs c; unresolvedSymbols := p;
     allowUndefinedSymbols := allowUndefinedSymbols c;
     exportedSymbols := exportedSymbols c |}.

Definition set_allowUndefinedSymbols (s : gset string) (c : Configuration)
  : Configuration :=
  {| bsymbolic := bsymbolic c; compressRelocations := compressRelocations c;
     experimentalPic := experimentalPic c; entry := entry c;
     exportTable := exportTable c; gcSections := gcSections c;
     importMemory := importMemory c; sharedMemory := sharedMemory c;
     importTable := importTable c; is64 := is64 c; isPic := isPic c;
     ltoo := ltoo c; ltoPartitions := ltoPartitions c;
     mergeDataSegments := mergeDataSegments c; outputFile := outputFile c;
     mapFile := mapFile c; pie := pie c; relocatable := relocatable c;
     shared := shared c; stripAll := stripAll c; stripDebug := stripDebug c;
     thinLTOJobs := thinLTOJobs c; unresolvedSymbols := unresolvedSymbols c;
     allowUndefinedSymbols := s;
     exportedSymbols := exportedSymbols c |}.

Definition set_exportedSymbols (s : gset string) (c : Configuration)
  : Configuration :=
  {| bsymbolic := bsymbolic c; compressRelocations := compressRelocations c;
     experimentalPic := experimentalPic c; entry := entry c;
     exportTable := exportTable c; gcSections := gcSections c;
     importMemory := importMemory c; sharedMemory := sharedMemory c;
     importTable := importTable c; is64 := is64 c; isPic := isPic c;
     ltoo := ltoo c; ltoPartitions := ltoPartitions c;
     mergeDataSegments := mergeDataSegments c; outputFile := outputFile c;
     mapFile := mapFile c; pie := pie c; relocatable := relocatable c;
     shared := shared c; stripAll := stripAll c; stripDebug := stripDebug c;
     thinLTOJobs := thinLTOJobs c; unresolvedSymbols := unresolvedSymbols c;
     allowUndefinedSymbols := allowUndefinedSymbols c;
     exportedSymbols := s |}.

Definition set_is64 (b : option bool) (c : Configuration) : Configuration :=
  {| bsymbolic := bsymbolic c; compressRelocations := compressRelocations c;
     experimentalPic := experimentalPic c; entry := entry c;
     exportTable := exportTable c; gcSections := gcSections c;
     importMemory := importMemory c; sharedMemory := sharedMemory c;
     importTable := importTable c; is64 := b; isPic := isPic c;
     ltoo := ltoo c; ltoPartitions := ltoPartitions c;
     mergeDataSegments := mergeDataSegments c; outputFile := outputFile c;
     mapFile := mapFile c; pie := pie c; relocatable := relocatable c;
     shared := shared c; stripAll := stripAll c; stripDebug := stripDebug c;
     thinLTOJobs := thinLTOJobs c; unresolvedSymbols := unresolvedSymbols c;
     allowUndefinedSymbols := allowUndefinedSymbols c;
     exportedSymbols := exportedSymbols c |}.

Definition set_thinLTOJobs (v : string) (c : Configuration) : Configuration :=
  {| bsymbolic := bsymbolic c; compressRelocations := compressRelocations c;
     experimentalPic := experimentalPic c; entry := entry c;
     exportTable := exportTable c; gcSections := gcSections c;
     importMemory := importMemory c; sharedMemory := sharedMemory c;
     importTable := importTable c; is64 := is64 c; isPic := isPic c;
     ltoo := ltoo c; ltoPartitions := ltoPartitions c;
     mergeDataSegments := mergeDataSegments c; outputFile := outputFile c;
     mapFile := mapFile c; pie := pie c; relocatable := relocatable c;
     shared := shared c; stripAll := stripAll c; stripDebug := stripDebug c;
     thinLTOJobs := v; unresolvedSymbols := unresolvedSymbols c;
     allowUndefinedSymbols := allowUndefinedSymbols c;
     exportedSymbols := exportedSymbols c |}.

Definition set_mapFile (v : string) (c : Configuration) : Configuration :=
  {| bsymbolic := bsymbolic c; compressRelocations := compressRelocations c;
     experimentalPic := experimentalPic c; entry := entry c;
     exportTable := exportTable c; gcSections := gcSections c;
     importMemory := importMemory c; sharedMemory := sharedMemory c;
     importTable := importTable c; is64 := is64 c; isPic := isPic c;
     ltoo := ltoo c; ltoPartitions := ltoPartitions c;
     mergeDataSegments := mergeDataSegments c; outputFile := outputFile c;
     mapFile := v; pie := pie c; relocatable := relocatable c;
     shared := shared c; stripAll := stripAll c; stripDebug := stripDebug c;
     thinLTOJobs := thinLTOJobs c; unresolvedSymbols := unresolvedSymbols c;
     allowUndefinedSymbols := allowUndefinedSymbols c;
     exportedSymbols := exportedSymbols c |}.

(** ** Symbols and the symbol table *)

(** The classes of Symbols.h as one tagged union: the binding
    (defined, undefined, lazy) crossed with the kind. *)
Inductive SymbolBody :=
  | DefinedFunction (signature : option WasmSignature)
  | DefinedData
  | DefinedGlobal (global : WasmGlobal)
  | DefinedTable (table : WasmTable)
  | SectionSymbol
  | UndefinedFunction (signature : option WasmSignature)
  | UndefinedData
  | UndefinedGlobal (importName importModule : option string)
                    (type : option WasmGlobalType)
  | UndefinedTable (importName importModule : option string)
                   (type : WasmTableType)
  | LazySymbol.

Record Symbol := {
  name : string;
  body : SymbolBody;
  flags : Z;
  isUsedInRegularObj : bool;
  forceExport : bool;
  canInline : bool;
  live : bool
}.

Definition isUndefined (s : Symbol) : bool :=
  match body s with
  | UndefinedFunction _ | UndefinedData | UndefinedGlobal _ _ _
  | UndefinedTable _ _ _ => true
  | _ => false
  end.

Definition isLazy (s : Symbol) : bool :=
  match body s with LazySymbol => true | _ => false end.

(** [Symbol::isDefined]: neither lazy nor undefined. *)
Definition isDefined (s : Symbol) : bool := negb (isLazy s) && negb (isUndefined s).

(** [isa<TableSymbol>] *)
Definition isTableSymbol (s : Symbol) : bool :=
  match body s with
  | DefinedTable _ | UndefinedTable _ _ _ => true
  | _ => false
  end.

(** [isa<GlobalSymbol>] *)
Definition isGlobalSymbol (s : Symbol) : bool :=
  match body s with
  | DefinedGlobal _ | UndefinedGlobal _ _ _ => true
  | _ => false
  end.

Definition isFunctionSymbol (s : Symbol) : bool :=
  match body s with
  | DefinedFunction _ | UndefinedFunction _ => true
  | _ => false
  end.

Definition isHidden (s : Symbol) : bool :=
  negb (Z.land (flags s) WASM_SYMBOL_VISIBILITY_HIDDEN =? 0)%Z.

Definition set_body (b : SymbolBody) (fl : Z) (s : Symbol) : Symbol :=
  {| name := name s; body := b; flags := fl;
     isUsedInRegularObj := isUsedInRegularObj s; forceExport := forceExport s;
     canInline := canInline s; live := live s |}.

Definition set_isUsedInRegularObj (b : bool) (s : Symbol) : Symbol :=
  {| name := name s; body := body s; flags := flags s;
     isUsedInRegularObj := b; forceExport := forceExport s;
     canInline := canInline s; live := live s |}.

Definition set_forceExport (b : bool) (s : Symbol) : Symbol :=
  {| name := name s; body := body s; flags := flags s;
     isUsedInRegularObj := isUsedInRegularObj s; forceExport := b;
     canInline := canInline s; live := live s |}.

Definition set_canInline (b : bool) (s : Symbol) : Symbol :=
  {| name := name s; body := body s; flags := flags s;
     isUsedInRegularObj := isUsedInRegularObj s; forceExport := forceExport s;
     canInline := b; live := live s |}.

(** The mark bit of an object that has just been made. *)
Definition set_unmarked (s : Symbol) : Symbol :=
  {| name := name s; body := body s; flags := flags s;
     isUsedInRegularObj := isUsedInRegularObj s; forceExport := forceExport s;
     canInline := canInline s; live := false |}.

(** [Symbol::markLive] sets the mark bit; nothing clears it. *)
Definition set_live (s : Symbol) : Symbol :=
  {| name := name s; body := body s; flags := flags s;
     isUsedInRegularObj := isUsedInRegularObj s; forceExport := forceExport s;
     canInline := canInline s; live := true |}.

(** An input file as the driver sees it: its name and the mutable array of
    symbol pointers ([InputFile::getMutableSymbols]). *)
Record InputFile := { fileName : string; symbols : list nat }.

(** [symMap] is the name index, [symVector] the arena of symbol objects
    ([Symbol*] = index), [objectFiles] the object files added to the link. *)
Record SymbolTable := {
  symMap : gmap string nat;
  symVector : list Symbol;
  objectFiles : list InputFile
}.

(** [make<SymbolTable>()] *)
Definition emptySymtab : SymbolTable :=
  {| symMap := ∅; symVector := []; objectFiles := [] |}.

(** The [WasmSym] statics that the driver assigns. *)
Record WasmSym := {
  callCtors : option nat;
  callDtors : option nat;
  stackPointer : option nat;
  memoryBase : option nat;
  tableBase : option nat;
  tlsBase : option nat;
  tlsSize : option nat;
  tlsAlign : option nat;
  initTLS : option nat;
  dsoHandle : option nat;
  dataEnd : option nat;
  globalBase : option nat;
  heapBase : option nat;
  definedMemoryBase : option nat;
  definedTableBase : option nat;
  indirectFunctionTable : option nat
}.

Definition emptyWasmSym : WasmSym :=
  {| callCtors := None; callDtors := None; stackPointer := None; memoryBase := None;
     tableBase := None; tlsBase := None; tlsSize := None; tlsAlign := None;
     initTLS := None; dsoHandle := None; dataEnd := None; globalBase := None;
     heapBase := None; definedMemoryBase := None; definedTableBase := None;
     indirectFunctionTable := None |}.

Definition set_callCtors (p : option nat) (w : WasmSym) : WasmSym :=
  {| callCtors := p; callDtors := callDtors w;
     stackPointer := stackPointer w; memoryBase := memoryBase w;
     tableBase := tableBase w; tlsBase := tlsBase w; tlsSize := tlsSize w;
     tlsAlign := tlsAlign w; initTLS := initTLS w; dsoHandle := dsoHandle w;
     dataEnd := dataEnd w; globalBase := globalBase w;
     heapBase := heapBase w; definedMemoryBase := definedMemoryBase w;
     definedTableBase := definedTableBase w;
     indirectFunctionTable := indirectFunctionTable w |}.

Definition set_callDtors (p : option nat) (w : WasmSym) : WasmSym :=
  {| callCtors := callCtors w; callDtors := p;
     stackPointer := stackPointer w; memoryBase := memoryBase w;
     tableBase := tableBase w; tlsBase := tlsBase w; tlsSize := tlsSize w;
     tlsAlign := tlsAlign w; initTLS := initTLS w; dsoHandle := dsoHandle w;
     dataEnd := dataEnd w; globalBase := globalBase w;
     heapBase := heapBase w; definedMemoryBase := definedMemoryBase w;
     definedTableBase := definedTableBase w;
     indirectFunctionTable := indirectFunctionTable w |}.

Definition set_stackPointer (p : option nat) (w : WasmSym) : WasmSym :=
  {| callCtors := callCtors w; callDtors := callDtors w; stackPointer := p;
     memoryBase := memoryBase w; tableBase := tableBase w;
     tlsBase := tlsBase w; tlsSize := tlsSize w; tlsAlign := tlsAlign w;
     initTLS := initTLS w; dsoHandle := dsoHandle w; dataEnd := dataEnd w;
     globalBase := globalBase w; heapBase := heapBase w;
     definedMemoryBase := definedMemoryBase w;
     definedTableBase := definedTableBase w;
     indirectFunctionTable := indirectFunctionTable w |}.

Definition set_memoryBase (p : option nat) (w : WasmSym) : WasmSym :=
  {| callCtors := callCtors w; callDtors := callDtors w;
     stackPointer := stackPointer w; memoryBase := p;
     tableBase := tableBase w; tlsBase := tlsBase w; tlsSize := tlsSize w;
     tlsAlign := tlsAlign w; initTLS := initTLS w; dsoHandle := dsoHandle w;
     dataEnd := dataEnd w; globalBase := globalBase w;
     heapBase := heapBase w; definedMemoryBase := definedMemoryBase w;
     definedTableBase := definedTableBase w;
     indirectFunctionTable := indirectFunctionTable w |}.

Definition set_tableBase (p : option nat) (w : WasmSym) : WasmSym :=
  {| callCtors := callCtors w; callDtors := callDtors w;
     stackPointer := stackPointer w; memoryBase := memoryBase w;
     tableBase := p; tlsBase := tlsBase w; tlsSize := tlsSize w;
     tlsAlign := tlsAlign w; initTLS := initTLS w; dsoHandle := dsoHandle w;
     dataEnd := dataEnd w; globalBase := globalBase w;
     heapBase := heapBase w; definedMemoryBase := definedMemoryBase w;
     definedTableBase := definedTableBase w;
     indirectFunctionTable := indirectFunctionTable w |}.

Definition set_tlsBase (p : option nat) (w : WasmSym) : WasmSym :=
  {| callCtors := callCtors w; callDtors := callDtors w;
     stackPointer := stackPointer w; memoryBase := memoryBase w;
     tableBase := tableBase w; tlsBase := p; tlsSize := tlsSize w;
     tlsAlign := tlsAlign w; initTLS := initTLS w; dsoHandle := dsoHandle w;
     dataEnd := dataEnd w; globalBase := globalBase w;
     heapBase := heapBase w; definedMemoryBase := definedMemoryBase w;
     definedTableBase := definedTableBase w;
     indirectFunctionTable := indirectFunctionTable w |}.

Definition set_tlsSize (p : option nat) (w : WasmSym) : WasmSym :=
  {| callCtors := callCtors w; callDtors := callDtors w;
     stackPointer := stackPointer w; memoryBase := memoryBase w;
     tableBase := tableBase w; tlsBase := tlsBase w; tlsSize := p;
     tlsAlign := tlsAlign w; initTLS := initTLS w; dsoHandle := dsoHandle w;
     dataEnd := dataEnd w; globalBase := globalBase w;
     heapBase := heapBase w; definedMemoryBase := definedMemoryBase w;
     definedTableBase := definedTableBase w;
     indirectFunctionTable := indirectFunctionTable w |}.

Definition set_tlsAlign (p : option nat) (w : WasmSym) : WasmSym :=
  {| callCtors := callCtors w; callDtors := callDtors w;
     stackPointer := stackPointer w; memoryBase := memoryBase w;
     tableBase := tableBase w; tlsBase := tlsBase w; tlsSize := tlsSize w;
     tlsAlign := p; initTLS := initTLS w; dsoHandle := dsoHandle w;
     dataEnd := dataEnd w; globalBase := globalBase w;
     heapBase := heapBase w; definedMemoryBase := definedMemoryBase w;
     definedTableBase := definedTableBase w;
     indirectFunctionTable := indirectFunctionTable w |}.

Definition set_initTLS (p : option nat) (w : WasmSym) : WasmSym :=
  {| callCtors := callCtors w; callDtors := callDtors w;
     stackPointer := stackPointer w; memoryBase := memoryBase w;
     tableBase := tableBase w; tlsBase := tlsBase w; tlsSize := tlsSize w;
     tlsAlign := tlsAlign w; initTLS := p; dsoHandle := dsoHandle w;
     dataEnd := dataEnd w; globalBase := globalBase w;
     heapBase := heapBase w; definedMemoryBase := definedMemoryBase w;
     definedTableBase := definedTableBase w;
     indirectFunctionTable := indirectFunctionTable w |}.

Definition set_dsoHandle (p : option nat) (w : WasmSym) : WasmSym :=
  {| callCtors := callCtors w; callDtors := callDtors w;
     stackPointer := stackPointer w; memoryBase := memoryBase w;
     tableBase := tableBase w; tlsBase := tlsBase w; tlsSize := tlsSize w;
     tlsAlign := tlsAlign w; initTLS := initTLS w; dsoHandle := p;
     dataEnd := dataEnd w; globalBase := globalBase w;
     heapBase := heapBase w; definedMemoryBase := definedMemoryBase w;
     definedTableBase := definedTableBase w;
     indirectFunctionTable := indirectFunctionTable w |}.

Definition set_dataEnd (p : option nat) (w : WasmSym) : WasmSym :=
  {| callCtors := callCtors w; callDtors := callDtors w;
     stackPointer := stackPointer w; memoryBase := memoryBase w;
     tableBase := tableBase w; tlsBase := tlsBase w; tlsSize := tlsSize w;
     tlsAlign := tlsAlign w; initTLS := initTLS w; dsoHandle := dsoHandle w;
     dataEnd := p; globalBase := globalBase w; heapBase := heapBase w;
     definedMemoryBase := definedMemoryBase w;
     definedTableBase := definedTableBase w;
     indirectFunctionTable := indirectFunctionTable w |}.

Definition set_globalBase (p : option nat) (w : WasmSym) : WasmSym :=
  {| callCtors := callCtors w; callDtors := callDtors w;
     stackPointer := stackPointer w; memoryBase := memoryBase w;
     tableBase := tableBase w; tlsBase := tlsBase w; tlsSize := tlsSize w;
     tlsAlign := tlsAlign w; initTLS := initTLS w; dsoHandle := dsoHandle w;
     dataEnd := dataEnd w; globalBase := p; heapBase := heapBase w;
     definedMemoryBase := definedMemoryBase w;
     definedTableBase := definedTableBase w;
     indirectFunctionTable := indirectFunctionTable w |}.

Definition set_heapBase (p : option nat) (w : WasmSym) : WasmSym :=
  {| callCtors := callCtors w; callDtors := callDtors w;
     stackPointer := stackPointer w; memoryBase := memoryBase w;
     tableBase := tableBase w; tlsBase := tlsBase w; tlsSize := tlsSize w;
     tlsAlign := tlsAlign w; initTLS := initTLS w; dsoHandle := dsoHandle w;
     dataEnd := dataEnd w; globalBase := globalBase w; heapBase := p;
     definedMemoryBase := definedMemoryBase w;
     definedTableBase := definedTableBase w;
     indirectFunctionTable := indirectFunctionTable w |}.

Definition set_definedMemoryBase (p : option nat) (w : WasmSym) : WasmSym :=
  {| callCtors := callCtors w; callDtors := callDtors w;
     stackPointer := stackPointer w; memoryBase := memoryBase w;
     tableBase := tableBase w; tlsBase := tlsBase w; tlsSize := tlsSize w;
     tlsAlign := tlsAlign w; initTLS := initTLS w; dsoHandle := dsoHandle w;
     dataEnd := dataEnd w; globalBase := globalBase w;
     heapBase := heapBase w; definedMemoryBase := p;
     definedTableBase := definedTableBase w;
     indirectFunctionTable := indirectFunctionTable w |}.

Definition set_definedTableBase (p : option nat) (w : WasmSym) : WasmSym :=
  {| callCtors := callCtors w; callDtors := callDtors w;
     stackPointer := stackPointer w; memoryBase := memoryBase w;
     tableBase := tableBase w; tlsBase := tlsBase w; tlsSize := tlsSize w;
     tlsAlign := tlsAlign w; initTLS := initTLS w; dsoHandle := dsoHandle w;
     dataEnd := dataEnd w; globalBase := globalBase w;
     heapBase := heapBase w; definedMemoryBase := definedMemoryBase w;
     definedTableBase := p;
     indirectFunctionTable := indirectFunctionTable w |}.

Definition set_indirectFunctionTable (p : option nat) (w : WasmSym) : WasmSym :=
  {| callCtors := callCtors w; callDtors := callDtors w;
     stackPointer := stackPointer w; memoryBase := memoryBase w;
     tableBase := tableBase w; tlsBase := tlsBase w; tlsSize := tlsSize w;
     tlsAlign := tlsAlign w; initTLS := initTLS w; dsoHandle := dsoHandle w;
     dataEnd := dataEnd w; globalBase := globalBase w;
     heapBase := heapBase w; definedMemoryBase := definedMemoryBase w;
     definedTableBase := definedTableBase w; indirectFunctionTable := p |}.

(** ** The link state and its monad *)

(** [files] is the member of [LinkerDriver]; [errors] and [warnings] are the
    messages handed to the error handler, oldest first. *)
Record LinkState := {
  config : Configuration;
  symtab : SymbolTable;
  wasmSym : WasmSym;
  files : list InputFile;
  errors : list string;
  warnings : list string
}.

Definition initialState : LinkState :=
  {| config := emptyConfig; symtab := emptySymtab; wasmSym := emptyWasmSym;
     files := []; errors := []; warnings := [] |}.

Definition with_config (c : Configuration) (st : LinkState) : LinkState :=
  {| config := c; symtab := symtab st; wasmSym := wasmSym st;
     files := files st; errors := errors st; warnings := warnings st |}.

Definition with_symtab (t : SymbolTable) (st : LinkState) : LinkState :=
  {| config := config st; symtab := t; wasmSym := wasmSym st;
     files := files st; errors := errors st; warnings := warnings st |}.

Definition with_wasmSym (w : WasmSym) (st : LinkState) : LinkState :=
  {| config := config st; symtab := symtab st; wasmSym := w;
     files := files st; errors := errors st; warnings := warnings st |}.

Definition with_files (fs : list InputFile) (st : LinkState) : LinkState :=
  {| config := config st; symtab := symtab st; wasmSym := wasmSym st;
     files := fs; errors := errors st; warnings := warnings st |}.

Definition with_errors (e : list string) (st : LinkState) : LinkState :=
  {| config := config st; symtab := symtab st; wasmSym := wasmSym st;
     files := files st; errors := e; warnings := warnings st |}.

Definition with_warnings (w : list string) (st : LinkState) : LinkState :=
  {| config := config st; symtab := symtab st; wasmSym := wasmSym st;
     files := files st; errors := errors st; warnings := w |}.

(** A driver function is a state transformer that also returns a value. *)
Definition Link (A : Type) : Type := LinkState → A * LinkState.

#[global] Instance Link_ret : MRet Link := λ A x st, (x, st).
#[global] Instance Link_bind : MBind Link :=
  λ A B f m st, let '(x, st') := m st in f x st'.

Definition get : Link LinkState := λ st, (st, st).
Definition modify (f : LinkState → LinkState) : Link unit := λ st, (tt, f st).
Definition exec {A} (m : Link A) (st : LinkState) : LinkState := (m st).2.
Definition eval {A} (m : Link A) (st : LinkState) : A := (m st).1.

(** [if (b) m;] *)
Definition when (b : bool) (m : Link unit) : Link unit :=
  λ st, (tt, if b then exec m st else st).

(** [error(msg)]: one more recorded error; [errorCount()] is their number. *)
Definition error (msg : string) : Link unit :=
  modify (λ st, with_errors (errors st ++ [msg]) st).
Definition warn (msg : string) : Link unit :=
  modify (λ st, with_warnings (warnings st ++ [msg]) st).
Definition errorCount (st : LinkState) : nat := length (errors st).

Definition getConfig : Link Configuration := λ st, (config st, st).
Definition modifyConfig (f : Configuration → Configuration) : Link unit :=
  modify (λ st, with_config (f (config st)) st).

(** ** Derived configuration and option checking *)

(** [setConfigs] *)
Definition setConfigs : Link unit :=
  modifyConfig (λ c, set_isPic (pie c || shared c) c);;
  c ← getConfig;
  when (isPic c)
    (when (exportTable c)
       (error "-shared/-pie is incompatible with --export-table");;
     modifyConfig (set_importTable true));;
  c ← getConfig;
  when (shared c)
    (modifyConfig (set_importMemory true);;
     modifyConfig (set_unresolvedSymbols ImportFuncs)).

(** ** Command-line arguments *)

(** The parsed argument list, reduced to what the driver asks of it.  A
    boolean is [hasArg]; an [option bool] is a pair of opposite flags, holding
    the one given last; a list is [filtered]. *)
Record InputArgList := {
  OPT_help : bool;
  OPT_version : bool;
  OPT_v : bool;
  OPT_Bsymbolic : bool;
  OPT_compress_relocations : bool;
  OPT_experimental_pic : bool;
  (* getLastArg(OPT_entry, OPT_no_entry): [Some None] is --no-entry *)
  OPT_entry : option (option string);
  OPT_export_table : bool;
  OPT_import_memory : bool;
  OPT_shared_memory : bool;
  OPT_import_table : bool;
  (* --lto-O and --lto-partitions: the number that the value spells *)
  OPT_lto_O : option Z;
  OPT_lto_partitions : option Z;
  OPT_Map : string;
  OPT_o : string;
  OPT_relocatable : bool;
  OPT_gc_sections : option bool;
  OPT_merge_data_segments : option bool;
  OPT_pie : option bool;
  OPT_shared : bool;
  OPT_strip_all : bool;
  OPT_strip_debug : bool;
  (* OPT_error_unresolved_symbols against OPT_warn_unresolved_symbols *)
  OPT_error_unresolved_symbols : option bool;
  OPT_unresolved_symbols : option string;
  OPT_allow_undefined : bool;
  OPT_allow_undefined_file : option string;
  OPT_m : option string;
  OPT_threads : option string;
  OPT_thinlto_jobs : option string;
  OPT_print_map : bool;
  OPT_trace_symbol : list string;
  OPT_wrap : list string;
  OPT_undefined : list string;
  OPT_export : list string
}.

(** [args.hasFlag(pos, neg, default)] *)
Definition hasFlag (o : option bool) (default : bool) : bool :=
  match o with Some b => b | None => default end.

(** [args::getInteger(args, key, default)], on the number that the value of
    the option spells; a value that spells no number is not carried here. *)
Definition getInteger (o : option Z) (default : Z) : Z :=
  match o with Some v => v | None => default end.

(** The conversion of an [int64_t] to the [unsigned] of a member of
    [Configuration]. *)
Definition to_unsigned (v : Z) : Z := v mod 2 ^ 32.

Definition emptyString (s : string) : bool := bool_decide (s = "").

(** [getEntry] *)
Definition getEntry (args : InputArgList) : string :=
  match OPT_entry args with
  | None =>
      if OPT_relocatable args then ""
      else if OPT_shared args then "__wasm_call_ctors"
      else "_start"
  | Some None => ""
  | Some (Some v) => v
  end.

(** [getUnresolvedSymbolPolicy] *)
Definition getUnresolvedSymbolPolicy (args : InputArgList)
  : Link UnresolvedPolicy :=
  let errorOrWarn :=
    if hasFlag (OPT_error_unresolved_symbols args) true
    then ReportError else Warn in
  let legacy : Link UnresolvedPolicy :=
    if OPT_allow_undefined args then mret ImportFuncs else mret errorOrWarn in
  match OPT_unresolved_symbols args with
  | Some s =>
      if bool_decide (s = "ignore-all") then mret Ignore
      else if bool_decide (s = "import-functions") then mret ImportFuncs
      else if bool_decide (s = "report-all") then mret errorOrWarn
      else error ("unknown --unresolved-symbols value: " +:+ s);; legacy
  | None => legacy
  end.

(** What the driver takes from outside this file: library routines, the file
    system, the readers of the input formats, and the other passes of the
    linker.  Each is a field, so that every statement below holds whatever
    these do. *)
Record Externals := {
  (* llvm::to_integer(v, threads, 0) *)
  to_integer : string → option Z;
  (* whether llvm::get_threadpool_strategy returns a strategy *)
  get_threadpool_strategy : string → bool;
  (* --reproduce: the error of TarWriter::create, if any *)
  createTarWriter : InputArgList → option string;
  (* the loop of createFiles over -l and the inputs: the files read, the
     errors raised, the names of the import files found beside archives *)
  addInputs : InputArgList → Configuration → list InputFile * list string * gset string;
  (* the lines of the file given to readImportFile *)
  readImportLines : string → gset string;
  (* tryCreateFile: the error message, if any *)
  tryCreateFile : string → option string;
  symtab_trace : string → Link unit;
  symtab_addFile : InputFile → Link unit;
  (* LazySymbol::fetch *)
  lazy_fetch : nat → Link unit;
  (* isBitcode(lazySym->getMemberBuffer()) *)
  lazy_isBitcode : nat → bool;
  bitcodeFiles_empty : LinkState → bool;
  getRuntimeLibcallSymbols : list string;
  symtab_addCombinedLTOObject : Link unit;
  symtab_handleSymbolVariants : Link unit;
  symtab_handleWeakUndefines : Link unit;
  markLive : Link unit;
  writeResult : Link unit
}.

(** [readConfigs], for the members of [Configuration] carried here.  Left
    out with the members that are not carried: the [CHECK] on the value of
    --thinlto-cache-policy, which ends the process on a policy that does not
    parse; the errors of [args::getInteger] and [args::getZOptionValue] on a
    value that spells no number; and the flags of the error handler
    ([fatalWarnings], [verbose]). *)
Definition readConfigs (ext : Externals) (args : InputArgList) : Link unit :=
  policy ← getUnresolvedSymbolPolicy args;
  modifyConfig (λ c,
    {| bsymbolic := OPT_Bsymbolic args;
       compressRelocations := OPT_compress_relocations args;
       experimentalPic := OPT_experimental_pic args;
       entry := getEntry args;
       exportTable := OPT_export_table args;
       gcSections := hasFlag (OPT_gc_sections args) (negb (OPT_relocatable args));
       importMemory := OPT_import_memory args;
       sharedMemory := OPT_shared_memory args;
       importTable := OPT_import_table args;
       is64 := is64 c;
       isPic := isPic c;
       ltoo := to_unsigned (getInteger (OPT_lto_O args) 2);
       ltoPartitions := to_unsigned (getInteger (OPT_lto_partitions args) 1);
       mergeDataSegments :=
         hasFlag (OPT_merge_data_segments args) (negb (OPT_relocatable args));
       outputFile := OPT_o args;
       mapFile := OPT_Map args;
       pie := hasFlag (OPT_pie args) false;
       relocatable := OPT_relocatable args;
       shared := OPT_shared args;
       stripAll := OPT_strip_all args;
       stripDebug := OPT_strip_debug args;
       thinLTOJobs := thinLTOJobs c;
       unresolvedSymbols := policy;
       allowUndefinedSymbols := allowUndefinedSymbols c;
       exportedSymbols := exportedSymbols c |});;
  (* Parse wasm32/64. *)
  match OPT_m args with
  | Some s =>
      if bool_decide (s = "wasm32") then modifyConfig (set_is64 (Some false))
      else if bool_decide (s = "wasm64") then modifyConfig (set_is64 (Some true))
      else error ("invalid target architecture: " +:+ s)
  | None => mret tt
  end;;
  (* --threads= provides the default value for --thinlto-jobs=. *)
  let set_jobs (v : string) : Link unit := modifyConfig (set_thinLTOJobs v) in
  match OPT_threads args with
  | Some v =>
      when (match to_integer ext v with
            | None => true
            | Some threads => (threads =? 0)%Z
            end)
        (error ("--threads: expected a positive integer, but got '" +:+ v +:+ "'"));;
      set_jobs v
  | None => mret tt
  end;;
  match OPT_thinlto_jobs args with
  | Some v => set_jobs v
  | None => mret tt
  end;;
  when (OPT_print_map args) (modifyConfig (set_mapFile "-")).

(** [checkOptions] *)
Definition checkOptions (ext : Externals) (args : InputArgList) : Link unit :=
  c ← getConfig;
  when (negb (stripDebug c) && negb (stripAll c) && compressRelocations c)
    (error ("--compress-relocations is incompatible with output debug" +:+
            " information. Please pass --strip-debug or --strip-all"));;
  when (3 <? ltoo c)%Z
    (error ("invalid optimization level for LTO: " +:+ pretty (ltoo c)));;
  when (ltoPartitions c =? 0)%Z
    (error "--lto-partitions: number of threads must be > 0");;
  when (negb (get_threadpool_strategy ext (thinLTOJobs c)))
    (error ("--thinlto-jobs: invalid job count: " +:+ thinLTOJobs c));;
  when (pie c && shared c)
    (error "-shared and -pie may not be used together");;
  when (emptyString (outputFile c))
    (error "no output file specified");;
  when (importTable c && exportTable c)
    (error "--import-table and --export-table may not be used together");;
  when (relocatable c)
    (when (negb (emptyString (entry c)))
       (error "entry point specified for relocatable output file");;
     when (gcSections c)
       (error "-r and --gc-sections may not be used together");;
     when (compressRelocations c)
       (error "-r -and --compress-relocations may not be used together");;
     when (negb (bool_decide (OPT_undefined args = [])))
       (error "-r -and --undefined may not be used together");;
     when (pie c)
       (error "-r and -pie may not be used together");;
     when (sharedMemory c)
       (error "-r and --shared-memory may not be used together"));;
  when (negb (experimentalPic c))
    (when (shared c)
       (warn "creating shared libraries, with -shared, is not yet stable");;
     when (pie c)
       (warn "creating PIEs, with -pie, is not yet stable"));;
  when (bsymbolic c && negb (shared c))
    (warn "-Bsymbolic is only meaningful when combined with -shared").

(** ** Symbol table operations *)

Definition with_symVector (v : list Symbol) (t : SymbolTable) : SymbolTable :=
  {| symMap := symMap t; symVector := v; objectFiles := objectFiles t |}.

Definition with_symMap (m : gmap string nat) (t : SymbolTable) : SymbolTable :=
  {| symMap := m; symVector := symVector t; objectFiles := objectFiles t |}.

Definition with_objectFiles (fs : list InputFile) (t : SymbolTable) : SymbolTable :=
  {| symMap := symMap t; symVector := symVector t; objectFiles := fs |}.

Definition getSymtab : Link SymbolTable := λ st, (symtab st, st).
Definition modifySymtab (f : SymbolTable → SymbolTable) : Link unit :=
  modify (λ st, with_symtab (f (symtab st)) st).
Definition modifyWasmSym (f : WasmSym → WasmSym) : Link unit :=
  modify (λ st, with_wasmSym (f (wasmSym st)) st).

(** A new symbol object at the end of the arena, entered under the name. *)
Definition pushSymbol (n : string) (s : Symbol) (t : SymbolTable) : SymbolTable :=
  with_symMap (<[n := length (symVector t)]> (symMap t))
    (with_symVector (symVector t ++ [s]) t).

(** A write to the object behind a pointer. *)
Definition alterSym (f : Symbol → Symbol) (p : nat) (t : SymbolTable)
  : SymbolTable :=
  with_symVector (alter f p (symVector t)) t.

(** Reading and writing through a symbol pointer. *)
Definition getSym (p : nat) : Link (option Symbol) :=
  t ← getSymtab; mret (symVector t !! p).
Definition setSym (p : nat) (f : Symbol → Symbol) : Link unit :=
  modifySymtab (alterSym f p).

(** [sym->markLive()] *)
Definition sym_markLive (p : nat) : Link unit := setSym p set_live.

(** [sym->getName()] *)
Definition getName (p : nat) : Link string :=
  s ← getSym p; mret (from_option name "" s).

(** Modelled from the spec: [SymbolTable::find] (SymbolTable.cpp is not among
    the sources): "find(name) -> optional symbol handle". *)
Definition symtab_find (n : string) : Link (option nat) :=
  t ← getSymtab; mret (symMap t !! n).

(** Modelled from the spec: a symbol object as the table first makes it for
    a name that an input file or the command line brings (Symbols.h and
    SymbolTable.cpp are not among the sources).  Of the flags of §3 it is
    used in a regular object and inlinable, it is not exported, and its mark
    bit is clear, the mark being set by marking only (§4.4). *)
Definition newSymbol (n : string) (b : SymbolBody) (fl : Z) : Symbol :=
  {| name := n; body := b; flags := fl; isUsedInRegularObj := true;
     forceExport := false; canInline := true; live := false |}.

(** Modelled from the spec: the object that the table first makes for a
    symbol of the linker's own.  It is as [newSymbol], but not used in a
    regular object: by §4.4 a synthetic symbol is a root of the reachability
    analysis only when it is "explicitly marked live", not through
    [usedInRegularObject]. *)
Definition syntheticSymbol (n : string) (b : SymbolBody) (fl : Z) : Symbol :=
  {| name := n; body := b; flags := fl; isUsedInRegularObj := false;
     forceExport := false; canInline := true; live := false |}.

(** Modelled from the spec: the table is "the single namespace mapping symbol
    name to resolved symbol record"; a name that is absent gets a new object
    at the end of the arena, a name that is present keeps its object.  The
    boolean tells whether the object is new.  This is the insertion for a
    name that comes with no input file, as the driver asks for it through
    the [addUndefined...] routines. *)
Definition symtab_insertName (n : string) (b : SymbolBody) (fl : Z)
  : Link (nat * bool) :=
  t ← getSymtab;
  match symMap t !! n with
  | Some p => mret (p, false)
  | None =>
      modifySymtab (pushSymbol n (newSymbol n b fl));;
      mret (length (symVector t), true)
  end.

(** Modelled from the spec: replacing the object behind a pointer in place
    (promotion of an undefined symbol to a definition, §4.1).  The new object
    keeps the name and the flags set from outside and starts unmarked. *)
Definition replaceSymbol (p : nat) (b : SymbolBody) (fl : Z) : Link unit :=
  setSym p (λ s, set_body b fl (set_unmarked s)).

(** Modelled from the spec: [addUndefined...] "returning the resolved symbol
    after applying the conflict rule": an undefined candidate creates the
    symbol when the name is new and otherwise yields to what is there.
    (Fetching the archive member of a lazy symbol is ingestion's work and is
    left out.) *)
Definition symtab_addUndefinedFunction (n : string) (fl : Z)
  (sig : option WasmSignature) : Link nat :=
  r ← symtab_insertName n (UndefinedFunction sig) fl; mret r.1.

Definition symtab_addUndefinedGlobal (n : string)
  (importName importModule : option string) (fl : Z)
  (type : option WasmGlobalType) : Link nat :=
  r ← symtab_insertName n (UndefinedGlobal importName importModule type) fl;
  mret r.1.

Definition symtab_addUndefinedTable (n : string)
  (importName importModule : option string) (fl : Z)
  (type : WasmTableType) : Link nat :=
  r ← symtab_insertName n (UndefinedTable importName importModule type) fl;
  mret r.1.

(** Modelled from the spec: [addSynthetic...] installs a definition made by
    the linker under the name: over whatever symbol holds the name, which
    keeps the flags set from outside, or else in a new object at the end of
    the arena. *)
Definition symtab_addSynthetic (n : string) (b : SymbolBody) (fl : Z)
  : Link nat :=
  t ← getSymtab;
  match symMap t !! n with
  | Some p => replaceSymbol p b fl;; mret p
  | None =>
      modifySymtab (pushSymbol n (syntheticSymbol n b fl));;
      mret (length (symVector t))
  end.

Definition symtab_addSyntheticFunction (n : string) (fl : Z)
  (sig : WasmSignature) : Link nat :=
  symtab_addSynthetic n (DefinedFunction (Some sig)) fl.

Definition symtab_addSyntheticGlobal (n : string) (fl : Z) (g : WasmGlobal)
  : Link nat :=
  symtab_addSynthetic n (DefinedGlobal g) fl.

Definition symtab_addSyntheticTable (n : string) (fl : Z) (t : WasmTable)
  : Link nat :=
  symtab_addSynthetic n (DefinedTable t) fl.

(** Modelled from the spec: §4.2 has the optional symbols made by a second
    pass and says no more of the rule; [SymbolTable.cpp] is not among the
    sources.  The rule is taken as that of a definition on demand, in line
    with the driver's comment on [__tls_base], which is defined for the
    object files that refer to it.  The symbol is defined when its name is
    in the table without a definition; for a name that is absent or defined
    nothing is made and the result is null.  (A name that is absent from the
    table but exported is not told apart from an absent one.) *)
Definition symtab_addOptional (n : string) (b : SymbolBody) (fl : Z)
  : Link (option nat) :=
  t ← getSymtab;
  match symMap t !! n with
  | None => mret None
  | Some p =>
      match symVector t !! p with
      | Some s =>
          if isDefined s then mret None
          else replaceSymbol p b fl;; mret (Some p)
      | None => mret None
      end
  end.

Definition symtab_addOptionalDataSymbol (n : string) : Link (option nat) :=
  symtab_addOptional n DefinedData WASM_SYMBOL_VISIBILITY_HIDDEN.

Definition symtab_addOptionalGlobalSymbols (n : string) (fl : Z)
  (g : WasmGlobal) : Link (option nat) :=
  symtab_addOptional n (DefinedGlobal g) fl.

(** ** Synthetic symbols *)

(** [config->is64.getValueOr(false)] *)
Definition is64_or_false (c : Configuration) : bool :=
  from_option id false (is64 c).

(** [createUndefinedGlobal] *)
Definition createUndefinedGlobal (n : string) (type : WasmGlobalType)
  : Link nat :=
  sym ← symtab_addUndefinedGlobal n None None WASM_SYMBOL_UNDEFINED (Some type);
  nm ← getName sym;
  modifyConfig (λ c, set_allowUndefinedSymbols ({[nm]} ∪ allowUndefinedSymbols c) c);;
  setSym sym (set_isUsedInRegularObj true);;
  mret sym.

(** [createGlobal] *)
Definition createGlobal (n : string) (isMutable : bool) : Link WasmGlobal :=
  c ← getConfig;
  mret (if is64_or_false c
        then {| G_Type := {| GT_Type := WASM_TYPE_I64; GT_Mutable := isMutable |};
                G_InitExpr := {| IE_Opcode := WASM_OPCODE_I64_CONST; IE_Value := 0 |};
                G_SymbolName := n |}
        else {| G_Type := {| GT_Type := WASM_TYPE_I32; GT_Mutable := isMutable |};
                G_InitExpr := {| IE_Opcode := WASM_OPCODE_I32_CONST; IE_Value := 0 |};
                G_SymbolName := n |}).

(** [createGlobalVariable] *)
Definition createGlobalVariable (n : string) (isMutable : bool) : Link nat :=
  g ← createGlobal n isMutable;
  symtab_addSyntheticGlobal n WASM_SYMBOL_VISIBILITY_HIDDEN g.

(** [createOptionalGlobal] *)
Definition createOptionalGlobal (n : string) (isMutable : bool)
  : Link (option nat) :=
  g ← createGlobal n isMutable;
  symtab_addOptionalGlobalSymbols n WASM_SYMBOL_VISIBILITY_HIDDEN g.

Definition nullSignature : WasmSignature := {| Returns := []; Params := [] |}.
Definition i32ArgSignature : WasmSignature := {| Returns := []; Params := [I32] |}.
Definition i64ArgSignature : WasmSignature := {| Returns := []; Params := [I64] |}.
Definition globalTypeI32 : WasmGlobalType :=
  {| GT_Type := WASM_TYPE_I32; GT_Mutable := false |}.
Definition globalTypeI64 : WasmGlobalType :=
  {| GT_Type := WASM_TYPE_I64; GT_Mutable := false |}.
Definition mutableGlobalTypeI32 : WasmGlobalType :=
  {| GT_Type := WASM_TYPE_I32; GT_Mutable := true |}.
Definition mutableGlobalTypeI64 : WasmGlobalType :=
  {| GT_Type := WASM_TYPE_I64; GT_Mutable := true |}.

(** [createSyntheticSymbols] *)
Definition createSyntheticSymbols : Link unit :=
  c ← getConfig;
  if relocatable c then mret tt else
  p ← symtab_addSyntheticFunction "__wasm_call_ctors"
        WASM_SYMBOL_VISIBILITY_HIDDEN nullSignature;
  modifyWasmSym (set_callCtors (Some p));;
  (if isPic c then
     p ← createUndefinedGlobal "__stack_pointer"
           (if is64_or_false c then mutableGlobalTypeI64 else mutableGlobalTypeI32);
     modifyWasmSym (set_stackPointer (Some p));;
     p ← createUndefinedGlobal "__memory_base"
           (if is64_or_false c then globalTypeI64 else globalTypeI32);
     modifyWasmSym (set_memoryBase (Some p));;
     p ← createUndefinedGlobal "__table_base" globalTypeI32;
     modifyWasmSym (set_tableBase (Some p));;
     w ← (λ st, (wasmSym st, st));
     from_option sym_markLive (mret tt) (memoryBase w);;
     from_option sym_markLive (mret tt) (tableBase w)
   else
     p ← createGlobalVariable "__stack_pointer" true;
     modifyWasmSym (set_stackPointer (Some p));;
     sym_markLive p);;
  when (sharedMemory c && negb (relocatable c))
    (p ← createGlobalVariable "__tls_base" true;
     modifyWasmSym (set_tlsBase (Some p));;
     p ← createGlobalVariable "__tls_size" false;
     modifyWasmSym (set_tlsSize (Some p));;
     p ← createGlobalVariable "__tls_align" false;
     modifyWasmSym (set_tlsAlign (Some p));;
     p ← symtab_addSyntheticFunction "__wasm_init_tls"
           WASM_SYMBOL_VISIBILITY_HIDDEN
           (if is64_or_false c then i64ArgSignature else i32ArgSignature);
     modifyWasmSym (set_initTLS (Some p))).

(** [createOptionalSymbols] *)
Definition createOptionalSymbols : Link unit :=
  c ← getConfig;
  if relocatable c then mret tt else
  p ← symtab_addOptionalDataSymbol "__dso_handle";
  modifyWasmSym (set_dsoHandle p);;
  when (negb (shared c))
    (p ← symtab_addOptionalDataSymbol "__data_end";
     modifyWasmSym (set_dataEnd p));;
  when (negb (isPic c))
    (p ← symtab_addOptionalDataSymbol "__global_base";
     modifyWasmSym (set_globalBase p);;
     p ← symtab_addOptionalDataSymbol "__heap_base";
     modifyWasmSym (set_heapBase p);;
     p ← symtab_addOptionalDataSymbol "__memory_base";
     modifyWasmSym (set_definedMemoryBase p);;
     p ← symtab_addOptionalDataSymbol "__table_base";
     modifyWasmSym (set_definedTableBase p));;
  when (negb (sharedMemory c))
    (p ← createOptionalGlobal "__tls_base" false;
     modifyWasmSym (set_tlsBase p)).

(** ** Forcing symbols into the output *)

(** [handleUndefined] *)
Definition handleUndefined (ext : Externals) (n : string) : Link (option nat) :=
  sym ← symtab_find n;
  match sym with
  | None => mret None
  | Some p =>
      setSym p (set_isUsedInRegularObj true);;
      s ← getSym p;
      when (from_option isLazy false s) (lazy_fetch ext p);;
      mret (Some p)
  end.

(** [handleLibcall] *)
Definition handleLibcall (ext : Externals) (n : string) : Link unit :=
  sym ← symtab_find n;
  match sym with
  | None => mret tt
  | Some p =>
      s ← getSym p;
      when (from_option isLazy false s && lazy_isBitcode ext p) (lazy_fetch ext p)
  end.

(** A loop over a list of arguments, in order. *)
Fixpoint forEach {A} (l : list A) (f : A → Link unit) : Link unit :=
  match l with
  | [] => mret tt
  | x :: l' => f x;; forEach l' f
  end.

(** ** The wrap transformer *)

Record WrappedSymbol := { w_sym : nat; w_real : nat; w_wrap : nat }.

(** [addUndefined] *)
Definition addUndefined (n : string) : Link nat :=
  symtab_addUndefinedFunction n WASM_SYMBOL_UNDEFINED None.

(** The body of the loop of [addWrappedSymbols], past the [seen] test: the
    record made for one name, or nothing when the name has no symbol. *)
Definition addWrappedSymbol (n : string) : Link (option WrappedSymbol) :=
  sym ← symtab_find n;
  match sym with
  | None => mret None
  | Some sym =>
      real ← addUndefined ("__real_" +:+ n);
      wrap ← addUndefined ("__wrap_" +:+ n);
      (* We want to tell LTO not to inline symbols to be overwritten *)
      setSym real (set_canInline false);;
      setSym sym (set_canInline false);;
      (* Tell LTO not to eliminate these symbols. *)
      setSym sym (set_isUsedInRegularObj true);;
      setSym wrap (set_isUsedInRegularObj true);;
      setSym real (set_isUsedInRegularObj false);;
      mret (Some {| w_sym := sym; w_real := real; w_wrap := wrap |})
  end.

(** The loop of [addWrappedSymbols] over the remaining --wrap arguments, with
    the set [seen] and the vector [v] built so far. *)
Fixpoint addWrappedSymbols_loop (names : list string) (seen : gset string)
  (v : list WrappedSymbol) : Link (list WrappedSymbol) :=
  match names with
  | [] => mret v
  | n :: rest =>
      if decide (n ∈ seen) then addWrappedSymbols_loop rest seen v
      else
        r ← addWrappedSymbol n;
        addWrappedSymbols_loop rest ({[n]} ∪ seen)
          (match r with Some w => v ++ [w] | None => v end)
  end.

(** [addWrappedSymbols] *)
Definition addWrappedSymbols (args : InputArgList) : Link (list WrappedSymbol) :=
  addWrappedSymbols_loop (OPT_wrap args) ∅ [].

(** The map built at the head of [wrapSymbols]; a later record overwrites
    the entries of an earlier one. *)
Definition wrapMap (wrapped : list WrappedSymbol) : gmap nat nat :=
  foldl (λ m w, <[w_real w := w_sym w]> (<[w_sym w := w_wrap w]> m)) ∅ wrapped.

(** The loop over the slots of one file: [todo] slots are left, starting at
    index [i]. *)
Fixpoint updateSlots (map : gmap nat nat) (syms : list nat) (i todo : nat)
  : list nat :=
  match todo with
  | O => syms
  | S todo' =>
      let syms' :=
        match syms !! i with
        | Some p =>
            match map !! p with
            | Some s => <[i := s]> syms
            | None => syms
            end
        | None => syms
        end in
      updateSlots map syms' (S i) todo'
  end.

Definition updateFile (map : gmap nat nat) (f : InputFile) : InputFile :=
  {| fileName := fileName f;
     symbols := updateSlots map (symbols f) 0 (length (symbols f)) |}.

(** Modelled from the spec: [SymbolTable::wrap] (SymbolTable.cpp is not among
    the sources) rewrites "the canonical table entries so that all sites that
    referenced the original name now reach the wrapper, and sites referencing
    the real escape hatch reach the original implementation": the entry of
    the real name takes the index of the original, then the entry of the
    original name takes the index of the wrapper. *)
Definition symtab_wrap (sym real wrap : nat) : Link unit :=
  symN ← getName sym;
  realN ← getName real;
  wrapN ← getName wrap;
  modifySymtab (λ t,
    let m := symMap t in
    let m1 := match m !! symN with Some o => <[realN := o]> m | None => m end in
    let m2 := match m1 !! wrapN with Some w => <[symN := w]> m1 | None => m1 end in
    with_symMap m2 t).

(** [wrapSymbols] *)
Definition wrapSymbols (wrapped : list WrappedSymbol) : Link unit :=
  let map := wrapMap wrapped in
  (* Update pointers in input files. *)
  modifySymtab (λ t, with_objectFiles (updateFile map <$> objectFiles t) t);;
  (* Update pointers in the symbol table. *)
  forEach wrapped (λ w, symtab_wrap (w_sym w) (w_real w) (w_wrap w)).

(** ** The indirect function table *)

(** Two names of Symbols.cpp and Config.h. *)
Definition functionTableName : string := "__indirect_function_table".
Definition defaultModule : string := "env".

(** [const uint32_t invalidIndex = -1] *)
Definition invalidIndex : Z := (-1) mod 2 ^ 32.

(** [createDefinedIndirectFunctionTable] *)
Definition createDefinedIndirectFunctionTable (n : string) : Link nat :=
  c ← getConfig;
  let limits := {| L_Flags := 0; L_Initial := 0; L_Maximum := 0 |} in
  let type := {| TT_ElemType := valTypeCode FUNCREF; TT_Limits := limits |} in
  let desc := {| T_Index := invalidIndex; T_Type := type; T_SymbolName := n |} in
  let flags := if exportTable c then 0%Z else WASM_SYMBOL_VISIBILITY_HIDDEN in
  sym ← symtab_addSyntheticTable n flags desc;
  sym_markLive sym;;
  setSym sym (set_forceExport (exportTable c));;
  mret sym.

(** [createUndefinedIndirectFunctionTable] *)
Definition createUndefinedIndirectFunctionTable (n : string) : Link nat :=
  c ← getConfig;
  let limits := {| L_Flags := 0; L_Initial := 0; L_Maximum := 0 |} in
  let type := {| TT_ElemType := valTypeCode FUNCREF; TT_Limits := limits |} in
  let flags := if exportTable c then 0%Z else WASM_SYMBOL_VISIBILITY_HIDDEN in
  let flags := Z.lor flags WASM_SYMBOL_UNDEFINED in
  sym ← symtab_addUndefinedTable n (Some n) (Some defaultModule) flags type;
  sym_markLive sym;;
  setSym sym (set_forceExport (exportTable c));;
  mret sym.

(** [resolveIndirectFunctionTable].  [existing] is the object behind
    [existingTable]. *)
Definition resolveIndirectFunctionTable : Link (option nat) :=
  existingTable ← symtab_find functionTableName;
  existing ← from_option getSym (mret None) existingTable;
  c ← getConfig;
  if from_option (λ s, negb (isTableSymbol s)) false existing then
    error ("reserved symbol must be of type table: `" +:+ functionTableName +:+ "`");;
    mret None
  else if from_option isDefined false existing then
    error ("reserved symbol must not be defined in input files: `" +:+
           functionTableName +:+ "`");;
    mret None
  else if importTable c then
    match existingTable with
    | Some p => mret (Some p)
    | None => p ← createUndefinedIndirectFunctionTable functionTableName; mret (Some p)
    end
  else if from_option live false existing || exportTable c then
    (* A defined table is required. *)
    p ← createDefinedIndirectFunctionTable functionTableName; mret (Some p)
  else
    (* if we get here, we don't need one *)
    mret None.

(** ** The driver *)

(** The steps of [linkerMain], as they are recorded when they run. *)
Inductive Phase :=
  | PhReproduce
  | PhReadConfigs
  | PhCreateFiles
  | PhSetConfigs
  | PhCheckOptions
  | PhReadImportFile
  | PhTryCreateFiles
  | PhTraceSymbols
  | PhExportedSymbols
  | PhCreateSyntheticSymbols
  | PhAddFiles
  | PhHandleUndefined
  | PhHandleEntry
  | PhCallDtors
  | PhCreateOptionalSymbols
  | PhAddWrappedSymbols
  | PhHandleLibcalls
  | PhAddCombinedLTOObject
  | PhHandleSymbolVariants
  | PhWrapSymbols
  | PhForceExports
  | PhHandleWeakUndefines
  | PhEntryVisibility
  | PhMarkLive
  | PhResolveIndirectFunctionTable
  | PhWriteResult.

#[global] Instance Phase_eq_dec : EqDecision Phase.
Proof. solve_decision. Defined.

(** A run of the driver from a state: the steps taken, in order, and the
    state reached.  The record of steps is kept by the driver itself, out of
    reach of the routines it calls. *)
Definition Run : Type := LinkState → list Phase * LinkState.

Definition finish : Run := λ st, ([], st).

(** Run [m] as step [ph], then go on with its result. *)
Definition step {A} (ph : Phase) (m : Link A) (k : A → Run) : Run :=
  λ st, let '(x, st') := m st in
        let '(tr, fin) := k x st' in (ph :: tr, fin).

(** [if (errorCount()) return;] *)
Definition gate (k : Run) : Run :=
  λ st, if bool_decide (errorCount st = 0) then k st else ([], st).

(** [createFiles], around the loop that reads the inputs. *)
Definition createFiles (ext : Externals) (args : InputArgList) : Link unit :=
  c ← getConfig;
  let '(fs, errs, imports) := addInputs ext args c in
  modify (λ st, with_files (files st ++ fs) st);;
  modifyConfig (λ c, set_allowUndefinedSymbols (imports ∪ allowUndefinedSymbols c) c);;
  forEach errs error;;
  st ← get;
  when (bool_decide (files st = []) && bool_decide (errorCount st = 0))
    (error "no input files").

(** [readImportFile] *)
Definition readImportFile (ext : Externals) (filename : string) : Link unit :=
  modifyConfig (λ c,
    set_allowUndefinedSymbols (readImportLines ext filename ∪ allowUndefinedSymbols c) c).

(** [Symbol::setHidden(false)]: the visibility bits are cleared. *)
Definition clear_hidden (s : Symbol) : Symbol :=
  set_body (body s) (Z.land (flags s) (Z.lnot WASM_SYMBOL_VISIBILITY_HIDDEN)) s.

(** The part of [linkerMain] that looks for a user-defined
    [__wasm_call_dtors]. *)
Definition findCallDtors (ext : Externals) : Link unit :=
  st ← get;
  let c := config st in
  let ctors := callCtors (wasmSym st) ≫= λ p, symVector (symtab st) !! p in
  when (negb (relocatable c) && negb (shared c) &&
        negb (from_option isUsedInRegularObj false ctors) &&
        negb (bool_decide (from_option name "" ctors = entry c)) &&
        negb (bool_decide (from_option name "" ctors ∈ exportedSymbols c)))
    (callDtors ← handleUndefined ext "__wasm_call_dtors";
     match callDtors with
     | None => mret tt
     | Some p =>
         s ← getSym p;
         match body <$> s with
         | Some (DefinedFunction sig) =>
             when (match sig with
                   | Some sg => negb (bool_decide (Params sg = [])) ||
                                negb (bool_decide (Returns sg = []))
                   | None => false
                   end)
               (error "__wasm_call_dtors must have no argument or return values");;
             modifyWasmSym (set_callDtors (Some p))
         | _ => error "__wasm_call_dtors must be a function"
         end
     end).

(** The last loop over --export in [linkerMain]. *)
Definition forceExports (args : InputArgList) : Link unit :=
  forEach (OPT_export args) (λ n,
    sym ← symtab_find n;
    s ← from_option getSym (mret None) sym;
    c ← getConfig;
    match sym with
    | Some p =>
        if from_option isDefined false s then setSym p (set_forceExport true)
        else match unresolvedSymbols c with
             | ReportError => error ("symbol exported via --export not found: " +:+ n)
             | Warn => warn ("symbol exported via --export not found: " +:+ n)
             | _ => mret tt
             end
    | None =>
        match unresolvedSymbols c with
        | ReportError => error ("symbol exported via --export not found: " +:+ n)
        | Warn => warn ("symbol exported via --export not found: " +:+ n)
        | _ => mret tt
        end
    end).

(** The entry symbol: forced into the output and exported. *)
Definition handleEntry (ext : Externals) : Link (option nat) :=
  c ← getConfig;
  if negb (relocatable c) && negb (emptyString (entry c)) then
    entrySym ← handleUndefined ext (entry c);
    s ← from_option getSym (mret None) entrySym;
    match entrySym with
    | Some p =>
        (if from_option isDefined false s then setSym p (set_forceExport true)
         else error ("entry symbol not defined (pass --no-entry to suppress): " +:+
                     entry c));;
        mret entrySym
    | None =>
        error ("entry symbol not defined (pass --no-entry to suppress): " +:+
               entry c);;
        mret entrySym
    end
  else mret None.

(** [LinkerDriver::linkerMain], after the arguments are parsed. *)
Definition linkerMain (ext : Externals) (args : InputArgList) : Run :=
  (* Handle --help *)
  if OPT_help args then finish else
  (* Handle --version *)
  if OPT_version args || OPT_v args then finish else
  step PhReproduce
    (from_option (λ e, error ("--reproduce: " +:+ e)) (mret tt)
       (createTarWriter ext args)) $ λ _,
  step PhReadConfigs (readConfigs ext args) $ λ _,
  step PhCreateFiles (createFiles ext args) $ λ _,
  gate $
  step PhSetConfigs setConfigs $ λ _,
  step PhCheckOptions (checkOptions ext args) $ λ _,
  gate $
  step PhReadImportFile
    (from_option (readImportFile ext) (mret tt) (OPT_allow_undefined_file args)) $ λ _,
  step PhTryCreateFiles
    (c ← getConfig;
     from_option (λ e, error ("cannot open output file " +:+ outputFile c +:+ ": " +:+ e))
       (mret tt) (tryCreateFile ext (outputFile c));;
     from_option (λ e, error ("cannot open map file " +:+ mapFile c +:+ ": " +:+ e))
       (mret tt) (tryCreateFile ext (mapFile c))) $ λ _,
  gate $
  step PhTraceSymbols (forEach (OPT_trace_symbol args) (symtab_trace ext)) $ λ _,
  step PhExportedSymbols
    (forEach (OPT_export args) (λ n,
       modifyConfig (λ c, set_exportedSymbols ({[n]} ∪ exportedSymbols c) c))) $ λ _,
  step PhCreateSyntheticSymbols createSyntheticSymbols $ λ _,
  step PhAddFiles
    (st ← get; forEach (files st) (symtab_addFile ext)) $ λ _,
  gate $
  step PhHandleUndefined
    (forEach (OPT_undefined args) (λ n, handleUndefined ext n;; mret tt);;
     forEach (OPT_export args) (λ n, handleUndefined ext n;; mret tt)) $ λ _,
  step PhHandleEntry (handleEntry ext) $ λ entrySym,
  step PhCallDtors (findCallDtors ext) $ λ _,
  step PhCreateOptionalSymbols createOptionalSymbols $ λ _,
  gate $
  (* Create wrapped symbols for -wrap option. *)
  step PhAddWrappedSymbols (addWrappedSymbols args) $ λ wrapped,
  step PhHandleLibcalls
    (st ← get;
     when (negb (bitcodeFiles_empty ext st))
       (forEach (getRuntimeLibcallSymbols ext) (handleLibcall ext))) $ λ _,
  gate $
  step PhAddCombinedLTOObject (symtab_addCombinedLTOObject ext) $ λ _,
  gate $
  step PhHandleSymbolVariants (symtab_handleSymbolVariants ext) $ λ _,
  gate $
  (* Apply symbol renames for -wrap. *)
  (λ k, if bool_decide (wrapped = []) then k tt
        else step PhWrapSymbols (wrapSymbols wrapped) k) $ λ _,
  step PhForceExports (forceExports args) $ λ _,
  (λ k : Run, λ st,
     if negb (relocatable (config st)) && negb (isPic (config st))
     then step PhHandleWeakUndefines (symtab_handleWeakUndefines ext) (λ _, k) st
     else k st) $
  step PhEntryVisibility
    (from_option (λ p, setSym p clear_hidden) (mret tt) entrySym) $ λ _,
  gate $
  (* Do size optimizations: garbage collection *)
  step PhMarkLive (markLive ext) $ λ _,
  (λ k : Run, λ st,
     if negb (relocatable (config st)) then
       (* Provide the indirect function table if needed. *)
       step PhResolveIndirectFunctionTable
         (r ← resolveIndirectFunctionTable;
          modifyWasmSym (set_indirectFunctionTable r)) (λ _, gate k) st
     else k st) $
  (* Write the result to the file. *)
  step PhWriteResult (writeResult ext) $ λ _,
  finish.

(** * Auxiliary notions for the statements *)

(** [emits m st l]: from [st], the program [m] records exactly the errors
    [l], after those already there. *)
Definition emits {A} (m : Link A) (st : LinkState) (l : list string) : Prop :=
  errors (exec m st) = errors st ++ l.

(** [cfg_keeps m]: [m] leaves [relocatable], [entry] and [gcSections] alone. *)
Definition cfg_keeps {A} (m : Link A) : Prop :=
  ∀ st, relocatable (config (exec m st)) = relocatable (config st) ∧
        entry (config (exec m st)) = entry (config st) ∧
        gcSections (config (exec m st)) = gcSections (config st).

(** The global that [createGlobal] makes under a configuration. *)
Definition zeroGlobal (c : Configuration) (n : string) (isMutable : bool)
  : WasmGlobal :=
  eval (createGlobal n isMutable) (with_config c initialState).

(** The names that [createSyntheticSymbols] may enter in the table. *)
Definition syntheticNames : list string :=
  ["__wasm_call_ctors"; "__stack_pointer"; "__memory_base"; "__table_base";
   "__tls_base"; "__tls_size"; "__tls_align"; "__wasm_init_tls"].

(** None of the [names] is in the table yet. *)
Definition fresh_names (names : list string) (st : LinkState) : Prop :=
  Forall (λ n, symMap (symtab st) !! n = None) names.

(** The symbols that [createSyntheticSymbols] makes. *)
Definition callCtorsSym : Symbol :=
  syntheticSymbol "__wasm_call_ctors" (DefinedFunction (Some nullSignature))
    WASM_SYMBOL_VISIBILITY_HIDDEN.
Definition undefinedGlobalSym (n : string) (ty : WasmGlobalType) : Symbol :=
  set_isUsedInRegularObj true
    (newSymbol n (UndefinedGlobal None None (Some ty)) WASM_SYMBOL_UNDEFINED).
Definition definedGlobalSym (c : Configuration) (n : string) (mut : bool)
  : Symbol :=
  syntheticSymbol n (DefinedGlobal (zeroGlobal c n mut))
    WASM_SYMBOL_VISIBILITY_HIDDEN.
Definition initTLSSym (c : Configuration) : Symbol :=
  syntheticSymbol "__wasm_init_tls"
    (DefinedFunction
       (Some (if is64_or_false c then i64ArgSignature else i32ArgSignature)))
    WASM_SYMBOL_VISIBILITY_HIDDEN.

(** The table after [createSyntheticSymbols], when all its names are new:
    the symbols are pushed in the order of the source. *)
Definition syntheticTable (c : Configuration) (t : SymbolTable) : SymbolTable :=
  let t0 := pushSymbol "__wasm_call_ctors" callCtorsSym t in
  let t1 :=
    if isPic c then
      pushSymbol "__table_base"
        (set_live (undefinedGlobalSym "__table_base" globalTypeI32))
        (pushSymbol "__memory_base"
           (set_live (undefinedGlobalSym "__memory_base"
                        (if is64_or_false c then globalTypeI64 else globalTypeI32)))
           (pushSymbol "__stack_pointer"
              (undefinedGlobalSym "__stack_pointer"
                 (if is64_or_false c then mutableGlobalTypeI64
                  else mutableGlobalTypeI32))
              t0))
    else
      pushSymbol "__stack_pointer"
        (set_live (definedGlobalSym c "__stack_pointer" true)) t0 in
  if sharedMemory c then
    pushSymbol "__wasm_init_tls" (initTLSSym c)
      (pushSymbol "__tls_align" (definedGlobalSym c "__tls_align" false)
         (pushSymbol "__tls_size" (definedGlobalSym c "__tls_size" false)
            (pushSymbol "__tls_base" (definedGlobalSym c "__tls_base" true) t1)))
  else t1.

Definition syntheticWasmSym (c : Configuration) (n : nat) (w : WasmSym) : WasmSym :=
  let w0 := set_callCtors (Some n) w in
  let w1 :=
    if isPic c then
      set_tableBase (Some (3 + n))
        (set_memoryBase (Some (2 + n)) (set_stackPointer (Some (1 + n)) w0))
    else set_stackPointer (Some (1 + n)) w0 in
  let k := if isPic c then 4 + n else 2 + n in
  if sharedMemory c then
    set_initTLS (Some (3 + k))
      (set_tlsAlign (Some (2 + k))
         (set_tlsSize (Some (1 + k)) (set_tlsBase (Some k) w1)))
  else w1.

Definition syntheticConfig (c : Configuration) : Configuration :=
  if isPic c then
    set_allowUndefinedSymbols
      ({["__table_base"]} ∪ ({["__memory_base"]} ∪
         ({["__stack_pointer"]} ∪ allowUndefinedSymbols c))) c
  else c.

(** [marked_live st p]: the symbol behind [p] carries the live mark. *)
Definition marked_live (st : LinkState) (p : option nat) : Prop :=
  ∃ q s, p = Some q ∧ symVector (symtab st) !! q = Some s ∧ live s = true.

(** [imported_global st n p]: [p] points at an undefined global symbol named
    [n], in use, that the link allows to stay undefined: it is to be
    imported from the environment. *)
Definition imported_global (st : LinkState) (n : string) (p : option nat) : Prop :=
  ∃ q s, p = Some q ∧ symMap (symtab st) !! n = Some q ∧
         symVector (symtab st) !! q = Some s ∧ name s = n ∧
         isGlobalSymbol s = true ∧ isUndefined s = true ∧
         isUsedInRegularObj s = true ∧
         n ∈ allowUndefinedSymbols (config st).

(** The symbol, if any, that holds the reserved name of the indirect
    function table, and the object behind it. *)
Definition existingTable (st : LinkState) : option nat :=
  symMap (symtab st) !! functionTableName.
Definition existingSym (st : LinkState) : option Symbol :=
  existingTable st ≫= λ p, symVector (symtab st) !! p.

(** The ways out of [resolveIndirectFunctionTable]. *)
Inductive ResolverBranch :=
  | BrErrorNotTable
  | BrErrorDefined
  | BrImportExisting (p : nat)
  | BrImportNew
  | BrDefine
  | BrNoTable.

(** The way out that [resolveIndirectFunctionTable] takes from a state. *)
Definition resolverBranch (st : LinkState) : ResolverBranch :=
  if from_option (λ s, negb (isTableSymbol s)) false (existingSym st)
  then BrErrorNotTable
  else if from_option isDefined false (existingSym st) then BrErrorDefined
  else if importTable (config st) then
    match existingTable st with
    | Some p => BrImportExisting p
    | None => BrImportNew
    end
  else if from_option live false (existingSym st) || exportTable (config st)
  then BrDefine
  else BrNoTable.

(** What is done on each way out. *)
Definition runBranch (b : ResolverBranch) : Link (option nat) :=
  match b with
  | BrErrorNotTable =>
      error ("reserved symbol must be of type table: `" +:+ functionTableName +:+ "`");;
      mret None
  | BrErrorDefined =>
      error ("reserved symbol must not be defined in input files: `" +:+
             functionTableName +:+ "`");;
      mret None
  | BrImportExisting p => mret (Some p)
  | BrImportNew =>
      p ← createUndefinedIndirectFunctionTable functionTableName; mret (Some p)
  | BrDefine =>
      p ← createDefinedIndirectFunctionTable functionTableName; mret (Some p)
  | BrNoTable => mret None
  end.

(** The import branch, with or without an existing symbol. *)
Definition isImportBranch (b : ResolverBranch) : bool :=
  match b with BrImportExisting _ | BrImportNew => true | _ => false end.

Definition isErrorBranch (b : ResolverBranch) : bool :=
  match b with BrErrorNotTable | BrErrorDefined => true | _ => false end.

(** The reserved name is free, or held by an undefined table symbol: the
    two cases in which the resolver raises no error. *)
Definition reserved_name_usable (st : LinkState) : Prop :=
  match existingTable st with
  | None => True
  | Some p => ∃ s, symVector (symtab st) !! p = Some s ∧
                   isTableSymbol s = true ∧ isDefined s = false
  end.

(** The table symbols that the resolver makes when none is there. *)
Definition undefinedTableSym (c : Configuration) : Symbol :=
  set_forceExport (exportTable c)
    (set_live
       (newSymbol functionTableName
          (UndefinedTable (Some functionTableName) (Some defaultModule)
             {| TT_ElemType := valTypeCode FUNCREF;
                TT_Limits := {| L_Flags := 0; L_Initial := 0; L_Maximum := 0 |} |})
          (Z.lor (if exportTable c then 0 else WASM_SYMBOL_VISIBILITY_HIDDEN)
             WASM_SYMBOL_UNDEFINED))).

Definition definedTableBody : SymbolBody :=
  DefinedTable
    {| T_Index := invalidIndex;
       T_Type := {| TT_ElemType := valTypeCode FUNCREF;
                    TT_Limits := {| L_Flags := 0; L_Initial := 0; L_Maximum := 0 |} |};
       T_SymbolName := functionTableName |}.

(** The resolver step occurs at most once in a trace, and then right after
    the reachability analysis. *)
Fixpoint resolved_once_after_markLive (tr : list Phase) : bool :=
  match tr with
  | [] => true
  | PhMarkLive :: PhResolveIndirectFunctionTable :: tr' =>
      bool_decide (PhResolveIndirectFunctionTable ∉ tr') &&
      bool_decide (PhMarkLive ∉ tr')
  | PhResolveIndirectFunctionTable :: _ => false
  | _ :: tr' => resolved_once_after_markLive tr'
  end.

(** * Concrete inputs *)

(** Routines outside the driver that do nothing and never fail; the one
    input file is an object without symbols. *)
Definition quietExternals : Externals :=
  {| to_integer := λ _, None;
     get_threadpool_strategy := λ _, true;
     createTarWriter := λ _, None;
     addInputs := λ _ _, ([{| fileName := "a.o"; symbols := [] |}], [], ∅);
     readImportLines := λ _, ∅;
     tryCreateFile := λ _, None;
     symtab_trace := λ _, mret tt;
     symtab_addFile := λ _, mret tt;
     lazy_fetch := λ _, mret tt;
     lazy_isBitcode := λ _, false;
     bitcodeFiles_empty := λ _, true;
     getRuntimeLibcallSymbols := [];
     symtab_addCombinedLTOObject := mret tt;
     symtab_handleSymbolVariants := mret tt;
     symtab_handleWeakUndefines := mret tt;
     markLive := mret tt;
     writeResult := mret tt |}.

(** A command line [-o a.wasm] with the given flags and nothing else. *)
Definition commandLine (relocatableFlag sharedFlag : bool) (pieFlag : option bool)
  (gcFlag : option bool) (entryArg : option (option string))
  (importTableFlag exportTableFlag sharedMemoryFlag : bool)
  (wraps : list string) : InputArgList :=
  {| OPT_help := false; OPT_version := false; OPT_v := false;
     OPT_Bsymbolic := false; OPT_compress_relocations := false;
     OPT_experimental_pic := false; OPT_entry := entryArg;
     OPT_export_table := exportTableFlag; OPT_import_memory := false;
     OPT_shared_memory := sharedMemoryFlag; OPT_import_table := importTableFlag;
     OPT_lto_O := None; OPT_lto_partitions := None; OPT_Map := "";
     OPT_o := "a.wasm"; OPT_relocatable := relocatableFlag;
     OPT_gc_sections := gcFlag; OPT_merge_data_segments := None;
     OPT_pie := pieFlag; OPT_shared := sharedFlag; OPT_strip_all := false;
     OPT_strip_debug := false; OPT_error_unresolved_symbols := None;
     OPT_unresolved_symbols := None; OPT_allow_undefined := false;
     OPT_allow_undefined_file := None; OPT_m := None; OPT_threads := None;
     OPT_thinlto_jobs := None; OPT_print_map := false; OPT_trace_symbol := [];
     OPT_wrap := wraps; OPT_undefined := []; OPT_export := [] |}.

(** The state in which the driver reaches [createSyntheticSymbols] for a
    command line: options read, derived members set, table still empty. *)
Definition configuredState (args : InputArgList) : LinkState :=
  exec setConfigs (exec (readConfigs quietExternals args) initialState).

(** [-r --entry=main] *)
Definition args_relocatable_entry : InputArgList :=
  commandLine true false None None (Some (Some "main")) false false false [].

(** [-pie] *)
Definition args_pie : InputArgList :=
  commandLine false false (Some true) None None false false false [].


(** no flag at all *)
Definition args_plain : InputArgList :=
  commandLine false false None None None false false false [].

(** [--import-table] *)
Definition args_import_table : InputArgList :=
  commandLine false false None None None true false false [].

(** A table in which the reserved name of the indirect function table is
    held by a function defined in an input file. *)
Definition table_with_function : SymbolTable :=
  pushSymbol functionTableName
    (newSymbol functionTableName (DefinedFunction None) 0) emptySymtab.

Definition state_import_over_function : LinkState :=
  with_symtab table_with_function (configuredState args_import_table).

(** A table in which the reserved name is held by a table that an input
    file defines. *)
Definition table_with_defined_table : SymbolTable :=
  pushSymbol functionTableName
    (newSymbol functionTableName definedTableBody 0) emptySymtab.

Definition state_import_over_defined_table : LinkState :=
  with_symtab table_with_defined_table (configuredState args_import_table).

(** A table that holds one function [foo], defined in an input file. *)
Definition table_with_foo : SymbolTable :=
  pushSymbol "foo" (newSymbol "foo" (DefinedFunction None) 0) emptySymtab.

(** [--wrap=foo] and [--wrap=foo --wrap=foo] *)
Definition args_wrap_foo : InputArgList :=
  commandLine false false None None None false false false ["foo"].
Definition args_wrap_foo_twice : InputArgList :=
  commandLine false false None None None false false false ["foo"; "foo"].

Definition state_with_foo : LinkState :=
  with_symtab table_with_foo (configuredState args_wrap_foo).




(** Every entry of the name index points at an object that carries the
    name: the state of the table until the wrap pass swaps entries. *)
Definition symtab_named (t : SymbolTable) : Prop :=
  ∀ n p, symMap t !! n = Some p →
         ∃ s, symVector t !! p = Some s ∧ name s = n.

(** What the optional symbols other than [__tls_base] leave alone. *)
Definition tls_frame (st st' : LinkState) : Prop :=
  config st' = config st ∧
  symMap (symtab st') = symMap (symtab st) ∧
  tlsBase (wasmSym st') = tlsBase (wasmSym st) ∧
  tlsSize (wasmSym st') = tlsSize (wasmSym st) ∧
  tlsAlign (wasmSym st') = tlsAlign (wasmSym st) ∧
  initTLS (wasmSym st') = initTLS (wasmSym st) ∧
  (symtab_named (symtab st) →
   symtab_named (symtab st') ∧
   ∀ p, symMap (symtab st) !! "__tls_base" = Some p →
        symVector (symtab st') !! p = symVector (symtab st) !! p).

Definition tls_framed {A} (m : Link A) : Prop :=
  ∀ st, tls_frame st (exec m st).

(** [record_of st n w]: [w] is the record of the wrap request for [n]: its
    three pointers are what the table holds under [n], [__real_n] and
    [__wrap_n]. *)
Definition record_of (st : LinkState) (n : string) (w : WrappedSymbol) : Prop :=
  symMap (symtab st) !! n = Some (w_sym w) ∧
  symMap (symtab st) !! ("__real_" +:+ n) = Some (w_real w) ∧
  symMap (symtab st) !! ("__wrap_" +:+ n) = Some (w_wrap w).

(** The names that a list of requests involves, and the pointers that the
    rename map has as keys: the originals and the real shadows. *)
Definition shadow_names (reqs : list (string * WrappedSymbol)) : list string :=
  reqs ≫= λ r, [r.1; "__real_" +:+ r.1; "__wrap_" +:+ r.1].
Definition wrap_keys (ws : list WrappedSymbol) : list nat :=
  ws ≫= λ w, [w_sym w; w_real w].

(** The name index after the swaps of [SymbolTable::wrap] for the requests,
    when no request touches the names of another. *)
Definition tableAfter (m : gmap string nat) (reqs : list (string * WrappedSymbol))
  : gmap string nat :=
  foldl (λ m r, <[r.1 := w_wrap r.2]> (<["__real_" +:+ r.1 := w_sym r.2]> m)) m reqs.

(** The names under which the rename pass rewrites the table. *)
Definition name_keys (reqs : list (string * WrappedSymbol)) : list string :=
  reqs ≫= λ r, [r.1; "__real_" +:+ r.1].

(** The symbol that slot [i] of object file [k] refers to. *)
Definition slot (t : SymbolTable) (k i : nat) : option nat :=
  objectFiles t !! k ≫= λ f, symbols f !! i.

(** A table after [--wrap=foo] has made the shadows of [foo], with one object
    file that refers to the three symbols and once more to [foo]. *)
Definition table_shadowed_foo : SymbolTable :=
  with_objectFiles [{| fileName := "a.o"; symbols := [0; 1; 2; 0] |}]
    (pushSymbol "__wrap_foo"
       (newSymbol "__wrap_foo" (UndefinedFunction None) WASM_SYMBOL_UNDEFINED)
       (pushSymbol "__real_foo"
          (newSymbol "__real_foo" (UndefinedFunction None) WASM_SYMBOL_UNDEFINED)
          table_with_foo)).

Definition state_shadowed_foo : LinkState :=
  with_symtab table_shadowed_foo (configuredState args_wrap_foo).

Definition record_foo : string * WrappedSymbol :=
  ("foo", {| w_sym := 0; w_real := 1; w_wrap := 2 |}).

(** [--wrap=foo --wrap=__real_foo] on a table that holds [foo] and an
    undefined [__real_foo], with one object file that refers to both. *)
Definition args_wrap_foo_real : InputArgList :=
  commandLine false false None None None false false false ["foo"; "__real_foo"].

Definition table_foo_real : SymbolTable :=
  with_objectFiles [{| fileName := "a.o"; symbols := [0; 1] |}]
    (pushSymbol "__real_foo"
       (newSymbol "__real_foo" (UndefinedFunction None) WASM_SYMBOL_UNDEFINED)
       table_with_foo).

Definition state_foo_real : LinkState :=
  with_symtab table_foo_real (configuredState args_wrap_foo_real).



(** [-pie] with the reserved name held by a table that an input file
    defines. *)
Definition state_pie_over_defined_table : LinkState :=
  with_symtab table_with_defined_table (configuredState args_pie).

(** * Further notions for the statements *)

(** [reporting m st es ws]: from [st], the program [m] only reports: it
    records the errors [es] and the warnings [ws] after those already there
    and leaves the rest of the state as it is. *)
Definition reporting {A} (m : Link A) (st : LinkState) (es ws : list string)
  : Prop :=
  exec m st = with_warnings (warnings st ++ ws) (with_errors (errors st ++ es) st).

(** The three values that --unresolved-symbols takes. *)
Definition policyNames : list string :=
  ["ignore-all"; "import-functions"; "report-all"].

(** Whether a name is held by a symbol that has a definition. *)
Definition definedName (t : SymbolTable) (n : string) : bool :=
  from_option isDefined false (symMap t !! n ≫= λ p, symVector t !! p).

(** The exported names that are not defined, in the order of the command
    line, each with the message that reports it. *)
Definition exportsNotFound (t : SymbolTable) (names : list string) : list string :=
  (λ n, "symbol exported via --export not found: " +:+ n) <$>
  filter (λ n, definedName t n = false) names.

(** The symbol that the table holds under a name. *)
Definition symbolNamed (st : LinkState) (n : string) : option Symbol :=
  symMap (symtab st) !! n ≫= λ p, symVector (symtab st) !! p.

(** [same_reports st st']: configuration, errors, warnings and files of
    [st'] are those of [st]. *)
Definition same_reports (st st' : LinkState) : Prop :=
  config st' = config st ∧ errors st' = errors st ∧
  warnings st' = warnings st ∧ files st' = files st.








(** The steps of the driver in the order of the source, and those among
    them that a run may leave out without stopping. *)
Definition phaseOrder : list Phase :=
  [PhReproduce; PhReadConfigs; PhCreateFiles; PhSetConfigs; PhCheckOptions;
   PhReadImportFile; PhTryCreateFiles; PhTraceSymbols; PhExportedSymbols;
   PhCreateSyntheticSymbols; PhAddFiles; PhHandleUndefined; PhHandleEntry;
   PhCallDtors; PhCreateOptionalSymbols; PhAddWrappedSymbols; PhHandleLibcalls;
   PhAddCombinedLTOObject; PhHandleSymbolVariants; PhWrapSymbols; PhForceExports;
   PhHandleWeakUndefines; PhEntryVisibility; PhMarkLive;
   PhResolveIndirectFunctionTable; PhWriteResult].

Definition optionalPhases : list Phase :=
  [PhWrapSymbols; PhHandleWeakUndefines; PhResolveIndirectFunctionTable].

(** [follows order tr]: the trace [tr] takes the steps of [order] from the
    first one on, in order, leaving out optional steps only. *)
Fixpoint follows (order tr : list Phase) : bool :=
  match order with
  | [] => bool_decide (tr = [])
  | o :: order' =>
      match tr with
      | [] => true
      | ph :: tr' =>
          if decide (ph = o) then follows order' tr'
          else bool_decide (o ∈ optionalPhases) && follows order' tr
      end
  end.

(** [before m ph]: step [m] comes before step [ph] in the source. *)
Definition before (m ph : Phase) : Prop :=
  ∃ i j, phaseOrder !! i = Some m ∧ phaseOrder !! j = Some ph ∧ i < j.

(** * Reading the inputs *)

(** The loop of [LinkerDriver::createFiles] with [addFile], [addLibrary],
    [findFile], [getArchiveMembers] and [readImportFile] as the source has
    them; [createFiles] above keeps only what the loop leaves. *)
Module Inputs.

(** [llvm::file_magic], as far as [addFile] tells the kinds apart. *)
Inductive file_magic := magic_archive | magic_bitcode | magic_wasm_object | magic_other.

(** What the loop takes from outside this file: the file system, the
    readers of buffers and archives, and the maker of object files. *)
Record FileSystem := {
  Buffer : Type;
  Archive : Type;
  ObjFile : Type;
  (* lld's readFile: the buffer, or none after it has reported why *)
  readFile : string → Link (option Buffer);
  getBufferIdentifier : Buffer → string;
  identify_magic : Buffer → file_magic;
  (* args::getLines *)
  getLines : Buffer → list string;
  (* path::append on an empty path, path::replace_extension, fs::exists *)
  path_append : string → string → string;
  replace_extension : string → string → string;
  fs_exists : string → bool;
  (* Archive::create: the archive, or the text of the error *)
  Archive_create : Buffer → Archive + string;
  (* file->children(err): the buffer of each child met, or the text of its
     error, and the text of err after the loop, if any *)
  Archive_children : Archive → list (Buffer + string) * option string;
  Archive_isEmpty : Archive → bool;
  Archive_hasSymbolTable : Archive → bool;
  (* createObjectFile(mb, archiveName): the object, or the message of its
     fatal error *)
  createObjectFile : Buffer → string → ObjFile + string;
  (* the message that CHECK gives to fatal, from its prefix and the error *)
  checkMessage : string → string → string;
  (* config->searchPaths *)
  searchPaths : list string
}.

(** A function that may end the process by [fatal]. *)
Inductive Outcome (A : Type) := Done (x : A) | Exited.
Arguments Done {A} x.
Arguments Exited {A}.

(** [fatal(msg)]: the error is recorded and the process exits. *)
Definition fatal {A} (msg : string) : Link (Outcome A) :=
  error msg;; mret Exited.

Definition bindO {A B} (m : Link (Outcome A)) (f : A → Link (Outcome B))
  : Link (Outcome B) :=
  r ← m;
  match r with
  | Done x => f x
  | Exited => mret Exited
  end.

(** An element of [files]: an object file, with whether the driver has
    marked it live, or an archive kept for lazy loading. *)
Inductive LoadedFile (fs : FileSystem) :=
  | LoadedObject (o : ObjFile fs) (markedLive : bool)
  | LoadedArchive (mb : Buffer fs).
Arguments LoadedObject {fs} o markedLive.
Arguments LoadedArchive {fs} mb.

(** The members of [LinkerDriver]. *)
Record Driver (fs : FileSystem) := {
  inWholeArchive : bool;
  loaded : list (LoadedFile fs)
}.
Arguments inWholeArchive {fs} d.
Arguments loaded {fs} d.

Definition newDriver (fs : FileSystem) : Driver fs :=
  {| inWholeArchive := false; loaded := [] |}.

(** [files.push_back(f)] *)
Definition push_back {fs} (f : LoadedFile fs) (d : Driver fs) : Driver fs :=
  {| inWholeArchive := inWholeArchive d; loaded := loaded d ++ [f] |}.

Definition set_inWholeArchive {fs} (b : bool) (d : Driver fs) : Driver fs :=
  {| inWholeArchive := b; loaded := loaded d |}.

(** Arguments in the order of the command line. *)
Inductive OptID :=
  | ID_l | ID_INPUT | ID_whole_archive | ID_no_whole_archive
  | ID_reproduce | ID_o | ID_other.

#[global] Instance OptID_eq_dec : EqDecision OptID.
Proof. solve_decision. Defined.

Record Arg := {
  arg_id : OptID;
  (* arg->getValue() *)
  arg_value : string;
  (* the argument as toString prints it *)
  arg_text : string
}.

Section Reading.
Variable fs : FileSystem.

(** [CHECK(e, prefix)] *)
Definition CHECK {T} (e : T + string) (prefix : string) : Link (Outcome T) :=
  match e with
  | inl x => mret (Done x)
  | inr err => fatal (checkMessage fs prefix err)
  end.

(** [findFile] *)
Definition findFile (path1 path2 : string) : option string :=
  let s := path_append fs path1 path2 in
  if fs_exists fs s then Some s else None.

(** [readImportFile] *)
Definition readImportFile (filename : string) : Link unit :=
  buf ← readFile fs filename;
  match buf with
  | Some b =>
      forEach (getLines fs b) (λ sym,
        modifyConfig (λ c,
          set_allowUndefinedSymbols ({[sym]} ∪ allowUndefinedSymbols c) c))
  | None => mret tt
  end.

(** The loop of [getArchiveMembers] over the children, [v] being the
    vector built so far. *)
Fixpoint getArchiveMembers_loop (mb : Buffer fs) (cs : list (Buffer fs + string))
  (v : list (Buffer fs)) : Link (Outcome (list (Buffer fs))) :=
  match cs with
  | [] => mret (Done v)
  | c :: cs' =>
      bindO (CHECK c (getBufferIdentifier fs mb +:+
                      ": could not get the buffer for a child of the archive"))
        (λ mbref, getArchiveMembers_loop mb cs' (v ++ [mbref]))
  end.

(** [getArchiveMembers] *)
Definition getArchiveMembers (mb : Buffer fs) : Link (Outcome (list (Buffer fs))) :=
  bindO (CHECK (Archive_create fs mb)
           (getBufferIdentifier fs mb +:+ ": failed to parse archive"))
    (λ file,
       bindO (getArchiveMembers_loop mb (Archive_children fs file).1 [])
         (λ v,
            match (Archive_children fs file).2 with
            | Some err =>
                fatal (getBufferIdentifier fs mb +:+
                       ": Archive::children failed: " +:+ err)
            | None => mret (Done v)
            end)).

(** The loop of [addFile] over the members of a whole archive. *)
Fixpoint addMembers (path : string) (ms : list (Buffer fs)) (d : Driver fs)
  : Link (Outcome (Driver fs)) :=
  match ms with
  | [] => mret (Done d)
  | m :: ms' =>
      match createObjectFile fs m path with
      | inl object =>
          (* object->markLive(); files.push_back(object); *)
          addMembers path ms' (push_back (LoadedObject object true) d)
      | inr msg => fatal msg
      end
  end.

(** [LinkerDriver::addFile] *)
Definition addFile (d : Driver fs) (path : string) : Link (Outcome (Driver fs)) :=
  buffer ← readFile fs path;
  match buffer with
  | None => mret (Done d)
  | Some mbref =>
      match identify_magic fs mbref with
      | magic_archive =>
          let importFile := replace_extension fs path ".imports" in
          when (fs_exists fs importFile) (readImportFile importFile);;
          (* Handle -whole-archive. *)
          if inWholeArchive d then
            bindO (getArchiveMembers mbref) (λ ms, addMembers path ms d)
          else
            bindO (CHECK (Archive_create fs mbref)
                     (path +:+ ": failed to parse archive"))
              (λ file,
                 when (negb (Archive_isEmpty fs file) &&
                       negb (Archive_hasSymbolTable fs file))
                   (error (getBufferIdentifier fs mbref +:+
                           ": archive has no index; run ranlib to add one"));;
                 mret (Done (push_back (LoadedArchive mbref) d)))
      | magic_bitcode | magic_wasm_object =>
          match createObjectFile fs mbref "" with
          | inl object => mret (Done (push_back (LoadedObject object false) d))
          | inr msg => fatal msg
          end
      | magic_other =>
          error ("unknown file type: " +:+ getBufferIdentifier fs mbref);;
          mret (Done d)
      end
  end.

(** The loop of [addLibrary] over the search paths that are left. *)
Fixpoint addLibrary_loop (d : Driver fs) (name : string) (dirs : list string)
  : Link (Outcome (Driver fs)) :=
  match dirs with
  | [] => error ("unable to find library -l" +:+ name);; mret (Done d)
  | dir :: dirs' =>
      match findFile dir ("lib" +:+ name +:+ ".a") with
      | Some s => addFile d s
      | None => addLibrary_loop d name dirs'
      end
  end.

(** [LinkerDriver::addLibrary] *)
Definition addLibrary (d : Driver fs) (name : string) : Link (Outcome (Driver fs)) :=
  addLibrary_loop d name (searchPaths fs).

(** One turn of the loop of [createFiles]. *)
Definition createFiles_turn (d : Driver fs) (arg : Arg) : Link (Outcome (Driver fs)) :=
  match arg_id arg with
  | ID_l => addLibrary d (arg_value arg)
  | ID_INPUT => addFile d (arg_value arg)
  | ID_whole_archive => mret (Done (set_inWholeArchive true d))
  | ID_no_whole_archive => mret (Done (set_inWholeArchive false d))
  | _ => mret (Done d)
  end.

Fixpoint createFiles_loop (args : list Arg) (d : Driver fs)
  : Link (Outcome (Driver fs)) :=
  match args with
  | [] => mret (Done d)
  | arg :: args' => bindO (createFiles_turn d arg) (createFiles_loop args')
  end.

(** [LinkerDriver::createFiles] *)
Definition createFiles (args : list Arg) (d : Driver fs)
  : Link (Outcome (Driver fs)) :=
  bindO (createFiles_loop args d) (λ d',
    st ← get;
    when (bool_decide (loaded d' = []) && bool_decide (errorCount st = 0))
      (error "no input files");;
    mret (Done d')).
End Reading.

End Inputs.

(** The arguments that the loop of [createFiles] looks at. *)
Definition read_by_createFiles (a : Inputs.Arg) : bool :=
  match Inputs.arg_id a with
  | Inputs.ID_l | Inputs.ID_INPUT | Inputs.ID_whole_archive
  | Inputs.ID_no_whole_archive => true
  | _ => false
  end.

(** The value of [inWholeArchive] after the arguments, from [b]. *)
Definition wholeArchiveAfter (args : list Inputs.Arg) (b : bool) : bool :=
  foldl (λ b a,
           match Inputs.arg_id a with
           | Inputs.ID_whole_archive => true
           | Inputs.ID_no_whole_archive => false
           | _ => b
           end) b args.

(** * Parsing the command line *)

Module Parsing.

(** What [getLastArg] finds among --color-diagnostics,
    --color-diagnostics=<value> and --no-color-diagnostics. *)
Inductive ColorArg :=
  | Color_diagnostics
  | Color_diagnostics_eq (s : string)
  | No_color_diagnostics.

(** [handleColorDiagnostics]; [colors] is the setting of [lld::errs()], and
    the result is the setting afterwards. *)
Definition handleColorDiagnostics (arg : option ColorArg) (colors : bool)
  : Link bool :=
  match arg with
  | None => mret colors
  | Some Color_diagnostics => mret true
  | Some No_color_diagnostics => mret false
  | Some (Color_diagnostics_eq s) =>
      if bool_decide (s = "always") then mret true
      else if bool_decide (s = "never") then mret false
      else if negb (bool_decide (s = "auto")) then
        error ("unknown option: --color-diagnostics=" +:+ s);; mret colors
      else mret colors
  end.

Inductive Tokenizer := TokenizeWindowsCommandLine | TokenizeGNUCommandLine.

(** [getQuotingStyle]; [rsp] is the value of the last --rsp-quoting. *)
Definition getQuotingStyle (rsp : option string) (hostIsWindows : bool)
  : Link Tokenizer :=
  match rsp with
  | Some s =>
      when (negb (bool_decide (s = "windows")) && negb (bool_decide (s = "posix")))
        (error ("invalid response file quoting: " +:+ s));;
      if bool_decide (s = "windows") then mret TokenizeWindowsCommandLine
      else mret TokenizeGNUCommandLine
  | None =>
      if hostIsWindows then mret TokenizeWindowsCommandLine
      else mret TokenizeGNUCommandLine
  end.

(** What [parse] takes from the option library and the host. *)
Record Parser := {
  ArgList : Type;
  ParseArgs : list string → ArgList;
  (* cl::ExpandResponseFiles, as a function of the vector *)
  ExpandResponseFiles : Tokenizer → list string → list string;
  (* the value of args.getLastArg(OPT_rsp_quoting) *)
  rsp_quoting : ArgList → option string;
  color_arg : ArgList → option ColorArg;
  (* arg->getAsString(args) of each of args.filtered(OPT_UNKNOWN) *)
  unknown_args : ArgList → list string;
  (* Triple(sys::getProcessTriple()).isOSWindows() *)
  hostIsWindows : bool
}.

(** [WasmOptTable::parse] *)
Definition parse (p : Parser) (argv : list string) (colors : bool)
  : Link (ArgList p * bool) :=
  let vec := argv in
  (* parse here before and ignore all the options but --rsp-quoting *)
  let args := ParseArgs p vec in
  style ← getQuotingStyle (rsp_quoting p args) (hostIsWindows p);
  (* Expand response files and then parse the argument again. *)
  let vec := ExpandResponseFiles p style vec in
  let args := ParseArgs p vec in
  colors' ← handleColorDiagnostics (color_arg p args) colors;
  forEach (unknown_args p args) (λ a, error ("unknown argument: " +:+ a));;
  mret (args, colors').

(** The path routines of [createResponseFile]. *)
Record Quoting := {
  quote : string → string;
  relativeToRoot : string → string;
  path_filename : string → string
}.

Definition newline : string := String (Ascii.ascii_of_nat 10) EmptyString.

(** [createResponseFile]: [os] is the text written so far. *)
Definition createResponseFile_from (q : Quoting) (os : string)
  (args : list Inputs.Arg) : string :=
  foldl (λ os arg,
           match Inputs.arg_id arg with
           | Inputs.ID_reproduce => os
           | Inputs.ID_INPUT =>
               os +:+ quote q (relativeToRoot q (Inputs.arg_value arg)) +:+ newline
           | Inputs.ID_o =>
               os +:+ "-o " +:+ quote q (path_filename q (Inputs.arg_value arg))
                  +:+ newline
           | _ => os +:+ Inputs.arg_text arg +:+ newline
           end) os args.

Definition createResponseFile (q : Quoting) (args : list Inputs.Arg) : string :=
  createResponseFile_from q "" args.

End Parsing.

(** * The entry point of the linker *)

(** How [link] ends: it returns whether the link succeeded, or, with
    [canExitEarly], leaves the process by [exitLld] with a status. *)
Inductive LinkResult := Returned (ok : bool) | ExitLld (code : Z).

(** [link].  [st] is the process before the call: its error count and the
    body-less static pointers of [WasmSym] are as they were left, while
    [config], [symtab] and the driver are made anew.  [view] stands for the
    accessors ([hasArg], [getLastArg], ...) by which the driver reads the
    parsed list. *)
Definition link (ext : Externals) (p : Parsing.Parser)
    (view : Parsing.ArgList p → InputArgList) (args : list string)
    (canExitEarly : bool) (colors : bool) (st : LinkState)
  : list Phase * LinkResult * LinkState :=
  let st0 := with_files [] (with_symtab emptySymtab (with_config emptyConfig st)) in
  (* LinkerDriver().linkerMain(args): parser.parse(argsArr.slice(1)) first *)
  let '(parsed, st1) := Parsing.parse p (tail args) colors st0 in
  let '(tr, fin) := linkerMain ext (view parsed.1) st1 in
  (tr,
   if canExitEarly
   then ExitLld (if bool_decide (errorCount fin = 0) then 0%Z else 1%Z)
   else Returned (bool_decide (errorCount fin = 0)),
   fin).

(** [-r] and nothing else *)
Definition args_relocatable : InputArgList :=
  commandLine true false None None None false false false [].

(** The command line after response files are expanded, as [parse] reads it
    the second time. *)
Definition expandedArgs (p : Parsing.Parser) (argv : list string)
  : Parsing.ArgList p :=
  Parsing.ParseArgs p
    (Parsing.ExpandResponseFiles p
       match Parsing.rsp_quoting p (Parsing.ParseArgs p argv) with
       | Some s => if bool_decide (s = "windows")
                   then Parsing.TokenizeWindowsCommandLine
                   else Parsing.TokenizeGNUCommandLine
       | None => if Parsing.hostIsWindows p
                 then Parsing.TokenizeWindowsCommandLine
                 else Parsing.TokenizeGNUCommandLine
       end argv).

(** Whether [parse] accepts a command line: the value of --rsp-quoting, the
    value of --color-diagnostics, and no unknown argument. *)
Definition parseAccepts (p : Parsing.Parser) (argv : list string) : bool :=
  match Parsing.rsp_quoting p (Parsing.ParseArgs p argv) with
  | Some s => bool_decide (s = "windows") || bool_decide (s = "posix")
  | None => true
  end &&
  match Parsing.color_arg p (expandedArgs p argv) with
  | Some (Parsing.Color_diagnostics_eq s) =>
      bool_decide (s = "always") || bool_decide (s = "never") ||
      bool_decide (s = "auto")
  | _ => true
  end &&
  bool_decide (Parsing.unknown_args p (expandedArgs p argv) = []).

(** * More concrete inputs *)

(** A command line [-o a.wasm] with or without --help and with the given
    values of -m and --unresolved-symbols. *)
Definition commandLineFor (help : bool) (m unresolved : option string)
  : InputArgList :=
  {| OPT_help := help; OPT_version := false; OPT_v := false;
     OPT_Bsymbolic := false; OPT_compress_relocations := false;
     OPT_experimental_pic := false; OPT_entry := None;
     OPT_export_table := false; OPT_import_memory := false;
     OPT_shared_memory := false; OPT_import_table := false;
     OPT_lto_O := None; OPT_lto_partitions := None; OPT_Map := "";
     OPT_o := "a.wasm"; OPT_relocatable := false;
     OPT_gc_sections := None; OPT_merge_data_segments := None;
     OPT_pie := None; OPT_shared := false; OPT_strip_all := false;
     OPT_strip_debug := false; OPT_error_unresolved_symbols := None;
     OPT_unresolved_symbols := unresolved; OPT_allow_undefined := false;
     OPT_allow_undefined_file := None; OPT_m := m; OPT_threads := None;
     OPT_thinlto_jobs := None; OPT_print_map := false; OPT_trace_symbol := [];
     OPT_wrap := []; OPT_undefined := []; OPT_export := [] |}.

(** [-m wasm64], [-m wasm16] and [--unresolved-symbols=ignore-all] *)
Definition args_wasm64 : InputArgList := commandLineFor false (Some "wasm64") None.
Definition args_wasm16 : InputArgList := commandLineFor false (Some "wasm16") None.
Definition args_ignore_all : InputArgList :=
  commandLineFor false None (Some "ignore-all").

(** [--no-entry] *)
Definition args_no_entry : InputArgList :=
  commandLine false false None None (Some None) false false false [].

(** As [quietExternals], but the command line names no input file. *)
Definition noInputExternals : Externals :=
  {| to_integer := λ _, None;
     get_threadpool_strategy := λ _, true;
     createTarWriter := λ _, None;
     addInputs := λ _ _, ([], [], ∅);
     readImportLines := λ _, ∅;
     tryCreateFile := λ _, None;
     symtab_trace := λ _, mret tt;
     symtab_addFile := λ _, mret tt;
     lazy_fetch := λ _, mret tt;
     lazy_isBitcode := λ _, false;
     bitcodeFiles_empty := λ _, true;
     getRuntimeLibcallSymbols := [];
     symtab_addCombinedLTOObject := mret tt;
     symtab_handleSymbolVariants := mret tt;
     symtab_handleWeakUndefines := mret tt;
     markLive := mret tt;
     writeResult := mret tt |}.

(** A plain link after [createSyntheticSymbols]. *)
Definition state_synthesised : LinkState :=
  exec createSyntheticSymbols (configuredState args_plain).

(** A file system in which every path can be read and holds its own name,
    [libc.a] is an archive of two members, and the search paths are
    [/usr/lib] and [/opt/lib], of which the second holds [libc.a]. *)
Definition sampleFiles : Inputs.FileSystem :=
  {| Inputs.Buffer := string;
     Inputs.Archive := list string;
     Inputs.ObjFile := string;
     Inputs.readFile := λ path, mret (Some path);
     Inputs.getBufferIdentifier := λ b, b;
     Inputs.identify_magic := λ b,
       if bool_decide (b = "libc.a") then Inputs.magic_archive
       else Inputs.magic_wasm_object;
     Inputs.getLines := λ _, [];
     Inputs.path_append := λ a b, a +:+ "/" +:+ b;
     Inputs.replace_extension := λ p e, p +:+ e;
     Inputs.fs_exists := λ p, bool_decide (p = "/opt/lib/libc.a");
     Inputs.Archive_create := λ _, inl ["a.o"; "b.o"];
     Inputs.Archive_children := λ a, (inl <$> a, None);
     Inputs.Archive_isEmpty := λ a, bool_decide (a = []);
     Inputs.Archive_hasSymbolTable := λ _, true;
     Inputs.createObjectFile := λ m _, inl m;
     Inputs.checkMessage := λ prefix e, prefix +:+ ": " +:+ e;
     Inputs.searchPaths := ["/usr/lib"; "/opt/lib"] |}.

(** The input [a.o] as an argument. *)
Definition arg_a_o : Inputs.Arg :=
  {| Inputs.arg_id := Inputs.ID_INPUT; Inputs.arg_value := "a.o";
     Inputs.arg_text := "a.o" |}.

(** A parser that expands nothing, takes every argument but --help as
    unknown, and knows neither --rsp-quoting nor --color-diagnostics. *)
Definition sampleParser : Parsing.Parser :=
  {| Parsing.ArgList := list string;
     Parsing.ParseArgs := λ v, v;
     Parsing.ExpandResponseFiles := λ _ v, v;
     Parsing.rsp_quoting := λ _, None;
     Parsing.color_arg := λ _, None;
     Parsing.unknown_args := filter (λ a, a ≠ "--help");
     Parsing.hostIsWindows := false |}.

Definition sampleView (l : list string) : InputArgList :=
  commandLineFor (bool_decide ("--help" ∈ l)) None None.

(** A plain link in which [__wasm_call_ctors] is not used by a regular
    object and the user code defines [__wasm_call_dtors]. *)
Definition state_user_dtors : LinkState :=
  with_wasmSym (set_callCtors (Some 0) (wasmSym (configuredState args_plain)))
    (with_symtab
       (pushSymbol "__wasm_call_dtors"
          (newSymbol "__wasm_call_dtors" (DefinedFunction (Some nullSignature)) 0)
          (pushSymbol "__wasm_call_ctors"
             (set_isUsedInRegularObj false callCtorsSym) emptySymtab))
       (configuredState args_plain)).

(** * Properties *)

(** ** Running programs of the link monad *)

Lemma run_bind {A B} (m : Link A) (f : A → Link B) st :
  (m ≫= f) st = f (m st).1 (m st).2.
Proof. unfold mbind, Link_bind. by destruct (m st). Qed.

Lemma exec_bind {A B} (m : Link A) (f : A → Link B) st :
  exec (m ≫= f) st = exec (f (eval m st)) (exec m st).
Proof. unfold exec, eval. by rewrite run_bind. Qed.

Lemma eval_bind {A B} (m : Link A) (f : A → Link B) st :
  eval (m ≫= f) st = eval (f (eval m st)) (exec m st).
Proof. unfold exec, eval. by rewrite run_bind. Qed.

Lemma run_pair {A} (m : Link A) st : m st = (eval m st, exec m st).
Proof. unfold eval, exec. by destruct (m st). Qed.

Lemma exec_of_run {A} (m : Link A) st x st' : m st = (x, st') → exec m st = st'.
Proof. unfold exec. by intros ->. Qed.

Lemma eval_of_run {A} (m : Link A) st x st' : m st = (x, st') → eval m st = x.
Proof. unfold eval. by intros ->. Qed.


Lemma exec_when_false m st : exec (when false m) st = st.
Proof. reflexivity. Qed.

Lemma exec_forEach_nil {A} (f : A → Link unit) st : exec (forEach [] f) st = st.
Proof. reflexivity. Qed.

Lemma exec_forEach_cons {A} (f : A → Link unit) x l st :
  exec (forEach (x :: l) f) st = exec (forEach l f) (exec (f x) st).
Proof. cbn [forEach]. by rewrite exec_bind. Qed.

(** ** Errors only accumulate *)

Lemma emits_bind {A B} (m : Link A) (f : A → Link B) st l1 l2 :
  emits m st l1 → emits (f (eval m st)) (exec m st) l2 →
  emits (m ≫= f) st (l1 ++ l2).
Proof.
  unfold emits. intros H1 H2. rewrite exec_bind, H2, H1. by rewrite app_assoc.
Qed.

Lemma emits_ret {A} (x : A) st : emits (mret x) st [].
Proof. unfold emits. cbn. by rewrite app_nil_r. Qed.

Lemma emits_getConfig st : emits getConfig st [].
Proof. unfold emits. cbn. by rewrite app_nil_r. Qed.

Lemma emits_error msg st : emits (error msg) st [msg].
Proof. reflexivity. Qed.

Lemma emits_warn msg st : emits (warn msg) st [].
Proof. unfold emits. cbn. by rewrite app_nil_r. Qed.

Lemma emits_modifyConfig f st : emits (modifyConfig f) st [].
Proof. unfold emits. cbn. by rewrite app_nil_r. Qed.

Lemma emits_when b m st l :
  emits m st l → emits (when b m) st (if b then l else []).
Proof. unfold emits. destruct b; cbn; [done|]. intros _. by rewrite app_nil_r. Qed.

Create HintDb emits discriminated.
#[global] Hint Resolve emits_ret emits_getConfig emits_error emits_warn
  emits_modifyConfig : emits.

(** Builds the list of errors of a straight-line program, leaving it as
    the value of an existential variable. *)
Ltac emits_step :=
  lazymatch goal with
  | |- emits (_ ≫= _) _ _ => eapply emits_bind
  | |- emits (when _ _) _ _ => eapply emits_when
  | |- emits (mret _) _ _ => apply emits_ret
  | |- emits getConfig _ _ => apply emits_getConfig
  | |- emits (error _) _ _ => apply emits_error
  | |- emits (warn _) _ _ => apply emits_warn
  | |- emits (modifyConfig _) _ _ => apply emits_modifyConfig
  end.
Ltac emits_all := repeat emits_step.

(** ** Derived configuration *)

Lemma setConfigs_config st :
  config (exec setConfigs st) =
    let c := config st in
    let c1 := set_isPic (pie c || shared c) c in
    let c2 := if isPic c1 then set_importTable true c1 else c1 in
    if shared c2
    then set_unresolvedSymbols ImportFuncs (set_importMemory true c2)
    else c2.
Proof.
  unfold setConfigs.
  cbv [exec mbind Link_bind mret Link_ret modifyConfig getConfig modify when error].
  destruct (pie (config st)) eqn:Hp, (shared (config st)) eqn:Hs,
    (exportTable (config st)) eqn:He; cbn; rewrite ?Hp, ?Hs, ?He; cbn;
    by rewrite ?Hp, ?Hs, ?He.
Qed.

Lemma setConfigs_errors st :
  errors (exec setConfigs st) =
    errors st ++
    (if (pie (config st) || shared (config st)) && exportTable (config st)
     then ["-shared/-pie is incompatible with --export-table"] else []).
Proof.
  unfold setConfigs.
  cbv [exec mbind Link_bind mret Link_ret modifyConfig getConfig modify when error].
  destruct (pie (config st)) eqn:Hp, (shared (config st)) eqn:Hs,
    (exportTable (config st)) eqn:He; cbn; rewrite ?Hp, ?Hs, ?He; cbn;
    by rewrite ?Hs, ?app_nil_r.
Qed.

Lemma setConfigs_frame st :
  symtab (exec setConfigs st) = symtab st ∧
  wasmSym (exec setConfigs st) = wasmSym st ∧
  files (exec setConfigs st) = files st.
Proof.
  unfold setConfigs.
  cbv [exec mbind Link_bind mret Link_ret modifyConfig getConfig modify when error].
  destruct (pie (config st)) eqn:Hp, (shared (config st)) eqn:Hs,
    (exportTable (config st)) eqn:He; cbn; rewrite ?Hp, ?Hs, ?He; cbn;
    by rewrite ?Hp, ?Hs, ?He.
Qed.

(** ** Option checking *)

Lemma checkOptions_emits ext args st :
  relocatable (config st) = true →
  ∃ l, emits (checkOptions ext args) st l ∧
       (entry (config st) ≠ "" →
        In "entry point specified for relocatable output file" l) ∧
       (gcSections (config st) = true →
        In "-r and --gc-sections may not be used together" l).
Proof.
  intros Hr.
  eassert (H : emits (checkOptions ext args) st _).
  { unfold checkOptions. emits_all. }
  eexists; split; [exact H|]. clear H.
  change (eval getConfig st) with (config st). rewrite Hr.
  split.
  - intros He. unfold emptyString. rewrite (bool_decide_eq_false_2 _ He).
    do 8 (apply in_or_app; right). apply in_or_app; left.
    apply in_or_app; left. cbn. by left.
  - intros ->.
    do 8 (apply in_or_app; right). apply in_or_app; left.
    apply in_or_app; right. apply in_or_app; left. cbn. by left.
Qed.

(** ** The configuration members that option checking reads *)

Lemma cfg_keeps_bind {A B} (m : Link A) (f : A → Link B) :
  cfg_keeps m → (∀ x, cfg_keeps (f x)) → cfg_keeps (m ≫= f).
Proof.
  intros Hm Hf st. rewrite exec_bind.
  destruct (Hf (eval m st) (exec m st)) as (-> & -> & ->). apply Hm.
Qed.

Lemma cfg_keeps_ret {A} (x : A) : cfg_keeps (mret x).
Proof. by intros st. Qed.

Lemma cfg_keeps_error msg : cfg_keeps (error msg).
Proof. by intros st. Qed.

Lemma cfg_keeps_when b m : cfg_keeps m → cfg_keeps (when b m).
Proof. intros H st. destruct b; [apply H | done]. Qed.

Lemma cfg_keeps_modify_files f :
  cfg_keeps (modify (λ st, with_files (f st) st)).
Proof. by intros st. Qed.

Lemma cfg_keeps_modifyConfig f :
  (∀ c, relocatable (f c) = relocatable c ∧ entry (f c) = entry c ∧
        gcSections (f c) = gcSections c) →
  cfg_keeps (modifyConfig f).
Proof. intros H st. apply H. Qed.

Lemma cfg_keeps_forEach {A} (l : list A) (f : A → Link unit) :
  (∀ x, cfg_keeps (f x)) → cfg_keeps (forEach l f).
Proof.
  intros H. induction l as [|x l IH]; [apply cfg_keeps_ret|].
  cbn [forEach]. apply cfg_keeps_bind; auto.
Qed.

Lemma cfg_keeps_getUnresolvedSymbolPolicy args :
  cfg_keeps (getUnresolvedSymbolPolicy args).
Proof.
  unfold getUnresolvedSymbolPolicy.
  destruct (OPT_unresolved_symbols args) as [s|];
    repeat case_bool_decide; destruct (OPT_allow_undefined args);
    repeat first [apply cfg_keeps_ret | apply cfg_keeps_error
                 | apply cfg_keeps_bind; [|intros ?]].
Qed.

Lemma readConfigs_fields ext args st :
  let c := config (exec (readConfigs ext args) st) in
  relocatable c = OPT_relocatable args ∧
  entry c = getEntry args ∧
  gcSections c = hasFlag (OPT_gc_sections args) (negb (OPT_relocatable args)).
Proof.
  cbn zeta. unfold readConfigs. rewrite exec_bind.
  set (st1 := exec _ st). set (p := eval _ st). clearbody st1 p.
  rewrite exec_bind.
  set (st2 := exec (modifyConfig _) st1).
  assert (H2 : relocatable (config st2) = OPT_relocatable args ∧
               entry (config st2) = getEntry args ∧
               gcSections (config st2) =
                 hasFlag (OPT_gc_sections args) (negb (OPT_relocatable args)))
    by done.
  clearbody st2. destruct H2 as (<- & <- & <-).
  match goal with |- context [exec ?m st2] => enough (cfg_keeps m) as H by apply H end.
  repeat first
    [ apply cfg_keeps_ret | apply cfg_keeps_error | apply cfg_keeps_when
    | apply cfg_keeps_modifyConfig; done
    | apply cfg_keeps_bind; [|intros ?]
    | match goal with |- cfg_keeps (match ?o with _ => _ end) => destruct o end
    | case_bool_decide ].
Qed.

Lemma createFiles_keeps ext args : cfg_keeps (createFiles ext args).
Proof.
  unfold createFiles. apply cfg_keeps_bind; [by intros ?|]. intros c.
  destruct (addInputs ext args c) as [[fs errs] imports].
  repeat first
    [ apply cfg_keeps_ret | apply cfg_keeps_error | apply cfg_keeps_when
    | apply cfg_keeps_modify_files
    | apply cfg_keeps_modifyConfig; done
    | apply cfg_keeps_forEach; intros ?
    | apply cfg_keeps_bind; [|intros ?]
    | by intros ? ].
Qed.

Lemma setConfigs_keeps : cfg_keeps setConfigs.
Proof.
  intros st. rewrite setConfigs_config. cbn zeta.
  destruct (pie (config st)) eqn:Hp, (shared (config st)) eqn:Hs; cbn;
    rewrite ?Hp, ?Hs; cbn; by rewrite ?Hs.
Qed.

(** ** Traces of the driver *)

Lemma step_inv {A} ph (m : Link A) k st tr fin :
  step ph m k st = (tr, fin) →
  ∃ tr' x st', m st = (x, st') ∧ tr = ph :: tr' ∧ k x st' = (tr', fin).
Proof.
  unfold step. destruct (m st) as [x st'].
  destruct (k x st') as [tr' fin'] eqn:Ek.
  intros [= <- <-]. by eexists _, _, _.
Qed.

Lemma gate_inv k st tr fin :
  gate k st = (tr, fin) →
  (errorCount st = 0 ∧ k st = (tr, fin)) ∨
  (errorCount st ≠ 0 ∧ tr = [] ∧ fin = st).
Proof.
  unfold gate. case_bool_decide; [by left|]. intros [= <- <-]. by right.
Qed.

Lemma finish_inv st tr fin : finish st = (tr, fin) → tr = [] ∧ fin = st.
Proof. by intros [= <- <-]. Qed.

Lemma emits_errorCount {A} (m : Link A) st l msg :
  emits m st l → In msg l → errorCount (exec m st) ≠ 0.
Proof.
  unfold emits, errorCount. intros -> Hin. rewrite length_app.
  destruct l; [done|]. cbn. lia.
Qed.

Lemma emits_drop {A} (m : Link A) st :
  (∃ l, emits m st l) →
  emits m st (drop (length (errors st)) (errors (exec m st))).
Proof.
  intros [l H]. unfold emits in *. rewrite H at 2. by rewrite drop_app_length.
Qed.

Lemma checkOptions_emits_any ext args st : ∃ l, emits (checkOptions ext args) st l.
Proof. eexists. unfold checkOptions. emits_all. Qed.

(** The run of the driver once an option check has failed: the last step is
    the check, whatever is asked of the routines outside. *)
Lemma linkerMain_stops_at_checkOptions ext args st0 msg :
  (∀ st l, relocatable (config st) = OPT_relocatable args →
           entry (config st) = getEntry args →
           gcSections (config st) =
             hasFlag (OPT_gc_sections args) (negb (OPT_relocatable args)) →
           emits (checkOptions ext args) st l → In msg l) →
  ∃ st', linkerMain ext args st0 = ([], st') ∨
         linkerMain ext args st0 = ([PhReproduce; PhReadConfigs; PhCreateFiles], st') ∨
         (linkerMain ext args st0 =
            ([PhReproduce; PhReadConfigs; PhCreateFiles; PhSetConfigs; PhCheckOptions], st')
          ∧ In msg (errors st')).
Proof.
  intros Hmsg. destruct (linkerMain ext args st0) as [tr fin] eqn:E.
  exists fin. unfold linkerMain in E.
  destruct (OPT_help args); [apply finish_inv in E as [-> ->]; by left|].
  destruct (OPT_version args || OPT_v args);
    [apply finish_inv in E as [-> ->]; by left|].
  apply step_inv in E as (? & ? & sa & _ & -> & E).
  apply step_inv in E as (? & ? & st1 & E1 & -> & E).
  apply step_inv in E as (? & ? & st2 & E2 & -> & E).
  apply gate_inv in E as [[_ E] | (_ & -> & ->)]; [|right; by left].
  apply step_inv in E as (? & ? & st3 & E3 & -> & E).
  apply step_inv in E as (? & ? & st4 & E4 & -> & E).
  apply exec_of_run in E1, E2, E3, E4. subst st1 st2 st3 st4.
  set (st3 := exec setConfigs _) in *.
  assert (Hc : relocatable (config st3) = OPT_relocatable args ∧
               entry (config st3) = getEntry args ∧
               gcSections (config st3) =
                 hasFlag (OPT_gc_sections args) (negb (OPT_relocatable args))).
  { unfold st3.
    destruct (setConfigs_keeps
                (exec (createFiles ext args) (exec (readConfigs ext args) sa)))
      as (-> & -> & ->).
    destruct (createFiles_keeps ext args (exec (readConfigs ext args) sa))
      as (-> & -> & ->).
    apply readConfigs_fields. }
  clearbody st3. destruct Hc as (Hc1 & Hc2 & Hc3).
  pose proof (emits_drop _ st3 (checkOptions_emits_any ext args st3)) as He.
  pose proof (Hmsg st3 _ Hc1 Hc2 Hc3 He) as Hin.
  assert (Hfin : In msg (errors (exec (checkOptions ext args) st3))).
  { unfold emits in He. rewrite He. apply in_or_app. by right. }
  apply gate_inv in E as [[H0 _] | (_ & -> & ->)].
  { exfalso. revert H0. eapply emits_errorCount; eauto. }
  right; right. by split.
Qed.

(** ** The arena and the name index *)

Lemma symMap_pushSymbol n s t n' :
  symMap (pushSymbol n s t) !! n' =
    if decide (n = n') then Some (length (symVector t)) else symMap t !! n'.
Proof.
  unfold pushSymbol. cbn. case_decide as H.
  - subst. apply lookup_insert_eq.
  - by apply lookup_insert_ne.
Qed.

Lemma symMap_pushSymbol_ne n s t n' :
  n ≠ n' → symMap (pushSymbol n s t) !! n' = symMap t !! n'.
Proof. intros H. rewrite symMap_pushSymbol. by case_decide. Qed.

Lemma symMap_pushSymbol_eq n s t :
  symMap (pushSymbol n s t) !! n = Some (length (symVector t)).
Proof. rewrite symMap_pushSymbol. by case_decide. Qed.

Lemma length_pushSymbol n s t :
  length (symVector (pushSymbol n s t)) = S (length (symVector t)).
Proof. unfold pushSymbol. cbn. rewrite length_app. cbn. lia. Qed.

Lemma symVector_pushSymbol_new n s t p :
  p = length (symVector t) → symVector (pushSymbol n s t) !! p = Some s.
Proof. intros ->. unfold pushSymbol. cbn. by apply list_lookup_middle. Qed.

Lemma symVector_pushSymbol_old n s t p :
  p < length (symVector t) →
  symVector (pushSymbol n s t) !! p = symVector t !! p.
Proof. intros H. unfold pushSymbol. cbn. by apply lookup_app_l. Qed.

Lemma objectFiles_pushSymbol n s t :
  objectFiles (pushSymbol n s t) = objectFiles t.
Proof. reflexivity. Qed.

Lemma symMap_alterSym f p t : symMap (alterSym f p t) = symMap t.
Proof. reflexivity. Qed.

Lemma objectFiles_alterSym f p t : objectFiles (alterSym f p t) = objectFiles t.
Proof. reflexivity. Qed.

Lemma length_alterSym f p t :
  length (symVector (alterSym f p t)) = length (symVector t).
Proof. unfold alterSym. cbn. apply length_alter. Qed.

Lemma symVector_alterSym f p t q :
  symVector (alterSym f p t) !! q =
    if decide (p = q) then f <$> symVector t !! q else symVector t !! q.
Proof.
  unfold alterSym. cbn. rewrite list_lookup_alter. by case_decide; subst.
Qed.

Lemma symVector_alterSym_eq f p t :
  symVector (alterSym f p t) !! p = f <$> symVector t !! p.
Proof. rewrite symVector_alterSym. by case_decide. Qed.

Lemma symVector_alterSym_ne f p t q :
  p ≠ q → symVector (alterSym f p t) !! q = symVector t !! q.
Proof. intros H. rewrite symVector_alterSym. by case_decide. Qed.

(** A write to the newest object is a write to what was pushed. *)
Lemma alterSym_pushSymbol_new f n s t p :
  p = length (symVector t) →
  alterSym f p (pushSymbol n s t) = pushSymbol n (f s) t.
Proof.
  intros ->. unfold alterSym, pushSymbol, with_symVector, with_symMap. cbn. f_equal.
  replace (length (symVector t)) with (length (symVector t) + 0) at 1 by lia.
  by rewrite alter_app_r.
Qed.

(** A write to an older object commutes with a push. *)
Lemma alterSym_pushSymbol_old f n s t p :
  p < length (symVector t) →
  alterSym f p (pushSymbol n s t) = pushSymbol n s (alterSym f p t).
Proof.
  intros H. unfold alterSym, pushSymbol, with_symVector, with_symMap. cbn. f_equal.
  - by rewrite length_alter.
  - by rewrite alter_app_l.
Qed.

(** ** Running the table operations *)

Ltac st_simpl :=
  cbv [with_config with_symtab with_wasmSym with_files with_errors with_warnings];
  cbn [config symtab wasmSym files errors warnings fst snd].

Lemma run_getConfig st : getConfig st = (config st, st).
Proof. reflexivity. Qed.

Lemma run_get st : get st = (st, st).
Proof. reflexivity. Qed.

Lemma run_ret {A} (x : A) (st : LinkState) : (mret x : Link A) st = (x, st).
Proof. reflexivity. Qed.

Lemma run_modifyWasmSym f st :
  modifyWasmSym f st = (tt, with_wasmSym (f (wasmSym st)) st).
Proof. reflexivity. Qed.

Lemma run_modifyConfig f st :
  modifyConfig f st = (tt, with_config (f (config st)) st).
Proof. reflexivity. Qed.

Lemma run_setSym p f st :
  setSym p f st = (tt, with_symtab (alterSym f p (symtab st)) st).
Proof. reflexivity. Qed.

Lemma run_sym_markLive p st :
  sym_markLive p st = (tt, with_symtab (alterSym set_live p (symtab st)) st).
Proof. reflexivity. Qed.

Lemma run_getSym p st : getSym p st = (symVector (symtab st) !! p, st).
Proof. reflexivity. Qed.

Lemma run_getName p st :
  getName p st = (from_option name "" (symVector (symtab st) !! p), st).
Proof. reflexivity. Qed.

Lemma run_symtab_find n st : symtab_find n st = (symMap (symtab st) !! n, st).
Proof. reflexivity. Qed.

Lemma run_when b m st : when b m st = (tt, if b then exec m st else st).
Proof. reflexivity. Qed.

Lemma run_error msg st : error msg st = (tt, with_errors (errors st ++ [msg]) st).
Proof. reflexivity. Qed.

Lemma run_bind_eq {A B} (m : Link A) (f : A → Link B) st x st1 r :
  m st = (x, st1) → f x st1 = r → (m ≫= f) st = r.
Proof. intros H1 H2. by rewrite run_bind, H1. Qed.

Lemma run_when_true m st x st1 : m st = (x, st1) → when true m st = (tt, st1).
Proof. intros H. unfold when, exec. by rewrite H. Qed.

Lemma run_when_false m st : when false m st = (tt, st).
Proof. reflexivity. Qed.

Lemma run_insertName_fresh n b fl st :
  symMap (symtab st) !! n = None →
  symtab_insertName n b fl st =
    ((length (symVector (symtab st)), true),
     with_symtab (pushSymbol n (newSymbol n b fl) (symtab st)) st).
Proof.
  intros H. unfold symtab_insertName.
  eapply run_bind_eq; [reflexivity|]. by rewrite H.
Qed.

Lemma run_insertName_present n b fl st p :
  symMap (symtab st) !! n = Some p →
  symtab_insertName n b fl st = ((p, false), st).
Proof.
  intros H. unfold symtab_insertName.
  eapply run_bind_eq; [reflexivity|]. by rewrite H.
Qed.

Lemma run_addSynthetic_fresh n b fl st :
  symMap (symtab st) !! n = None →
  symtab_addSynthetic n b fl st =
    (length (symVector (symtab st)),
     with_symtab (pushSymbol n (syntheticSymbol n b fl) (symtab st)) st).
Proof.
  intros H. unfold symtab_addSynthetic.
  eapply run_bind_eq; [reflexivity|]. by rewrite H.
Qed.

Lemma run_addSynthetic_present n b fl st p :
  symMap (symtab st) !! n = Some p →
  symtab_addSynthetic n b fl st =
    (p, with_symtab (alterSym (λ s, set_body b fl (set_unmarked s)) p (symtab st)) st).
Proof.
  intros H. unfold symtab_addSynthetic.
  eapply run_bind_eq; [reflexivity|]. by rewrite H.
Qed.

Lemma run_createUndefinedGlobal_fresh n ty st :
  symMap (symtab st) !! n = None →
  createUndefinedGlobal n ty st =
    (length (symVector (symtab st)),
     with_config
       (set_allowUndefinedSymbols ({[n]} ∪ allowUndefinedSymbols (config st))
          (config st))
       (with_symtab
          (pushSymbol n
             (set_isUsedInRegularObj true
                (newSymbol n (UndefinedGlobal None None (Some ty))
                   WASM_SYMBOL_UNDEFINED))
             (symtab st)) st)).
Proof.
  intros H. unfold createUndefinedGlobal, symtab_addUndefinedGlobal.
  eapply run_bind_eq.
  { eapply run_bind_eq; [by apply run_insertName_fresh | reflexivity]. }
  eapply run_bind_eq; [apply run_getName|]. st_simpl.
  rewrite symVector_pushSymbol_new by done. cbn [from_option name newSymbol].
  eapply run_bind_eq; [apply run_modifyConfig|].
  eapply run_bind_eq; [apply run_setSym|]. st_simpl.
  by rewrite alterSym_pushSymbol_new.
Qed.

Lemma run_createGlobal n mut st :
  createGlobal n mut st = (zeroGlobal (config st) n mut, st).
Proof. reflexivity. Qed.

Lemma zeroGlobal_allowUndefinedSymbols s c n mut :
  zeroGlobal (set_allowUndefinedSymbols s c) n mut = zeroGlobal c n mut.
Proof. reflexivity. Qed.

Lemma zeroGlobal_props c n mut :
  let g := zeroGlobal c n mut in
  GT_Mutable (G_Type g) = mut ∧ IE_Value (G_InitExpr g) = 0%Z ∧
  G_SymbolName g = n ∧
  (GT_Type (G_Type g), IE_Opcode (G_InitExpr g)) =
    if is64_or_false c
    then (WASM_TYPE_I64, WASM_OPCODE_I64_CONST)
    else (WASM_TYPE_I32, WASM_OPCODE_I32_CONST).
Proof.
  unfold zeroGlobal, createGlobal, eval. rewrite run_bind.
  cbn [getConfig fst snd config with_config].
  by destruct (is64_or_false c).
Qed.

Lemma run_createGlobalVariable_fresh n mut st :
  symMap (symtab st) !! n = None →
  createGlobalVariable n mut st =
    (length (symVector (symtab st)),
     with_symtab
       (pushSymbol n
          (syntheticSymbol n (DefinedGlobal (zeroGlobal (config st) n mut))
             WASM_SYMBOL_VISIBILITY_HIDDEN)
          (symtab st)) st).
Proof.
  intros H. unfold createGlobalVariable, symtab_addSyntheticGlobal.
  eapply run_bind_eq; [apply run_createGlobal|].
  by apply run_addSynthetic_fresh.
Qed.

(** ** Synthetic symbols *)

Ltac fresh_solve :=
  repeat first [rewrite symMap_alterSym | rewrite symMap_pushSymbol_ne by done];
  assumption.

(** Normal form of a state: a record whose table is a chain of pushes over
    the initial table, with pointers counted from the initial arena. *)
Ltac st_norm :=
  st_simpl;
  repeat first
    [ rewrite length_alterSym
    | rewrite length_pushSymbol
    | rewrite zeroGlobal_allowUndefinedSymbols
    | rewrite alterSym_pushSymbol_new by (rewrite ?length_pushSymbol; reflexivity)
    | rewrite alterSym_pushSymbol_old by (rewrite ?length_pushSymbol; lia) ].

(** Big-step evaluation of a program of the link monad on a state on which
    every name it enters in the table is new. *)
Ltac run_solve :=
  st_norm;
  lazymatch goal with
  | |- (_ ≫= _) _ = _ => eapply run_bind_eq; [run_solve | cbn beta; run_solve]
  | |- getConfig _ = _ => apply run_getConfig
  | |- modifyWasmSym _ _ = _ => apply run_modifyWasmSym
  | |- modifyConfig _ _ = _ => apply run_modifyConfig
  | |- sym_markLive _ _ = _ => apply run_sym_markLive
  | |- setSym _ _ _ = _ => apply run_setSym
  | |- createUndefinedGlobal _ _ _ = _ =>
      apply run_createUndefinedGlobal_fresh; st_simpl; fresh_solve
  | |- createGlobalVariable _ _ _ = _ =>
      apply run_createGlobalVariable_fresh; st_simpl; fresh_solve
  | |- symtab_addSyntheticFunction _ _ _ _ = _ =>
      apply run_addSynthetic_fresh; st_simpl; fresh_solve
  | |- when true _ _ = _ => eapply run_when_true; run_solve
  | |- when false _ _ = _ => apply run_when_false
  | |- _ => reflexivity
  end.

Lemma createSyntheticSymbols_fresh st :
  relocatable (config st) = false →
  fresh_names syntheticNames st →
  exec createSyntheticSymbols st =
    {| config := syntheticConfig (config st);
       symtab := syntheticTable (config st) (symtab st);
       wasmSym := syntheticWasmSym (config st) (length (symVector (symtab st)))
                    (wasmSym st);
       files := files st; errors := errors st; warnings := warnings st |}.
Proof.
  intros Hr Hf.
  repeat (apply Forall_cons_1 in Hf as [? Hf]).
  destruct st as [c t w fs e wa]. cbn [config symtab wasmSym files errors warnings] in *.
  unfold syntheticConfig, syntheticTable, syntheticWasmSym.
  unfold callCtorsSym, undefinedGlobalSym, definedGlobalSym, initTLSSym.
  destruct (isPic c) eqn:Hp, (sharedMemory c) eqn:Hs.
  all: erewrite exec_of_run;
    [| unfold createSyntheticSymbols;
       eapply run_bind_eq; [apply run_getConfig|];
       cbn [config]; rewrite Hr, Hp, Hs; cbn [negb andb]; run_solve ].
  all: st_norm; reflexivity.
Qed.

Ltac push_lookup :=
  repeat first
    [ rewrite symMap_pushSymbol_eq
    | rewrite symMap_pushSymbol_ne by done
    | rewrite symVector_pushSymbol_new by (rewrite ?length_pushSymbol; reflexivity)
    | rewrite symVector_pushSymbol_old by (rewrite ?length_pushSymbol; lia) ];
  rewrite ?length_pushSymbol.

(** ** The indirect function table *)

Lemma run_existing st :
  (symtab_find functionTableName ≫= λ existingTable,
     from_option getSym (mret None) existingTable ≫= λ existing,
       mret (existingTable, existing)) st
  = ((existingTable st, existingSym st), st).
Proof.
  unfold existingSym, existingTable.
  eapply run_bind_eq; [apply run_symtab_find|].
  destruct (symMap (symtab st) !! functionTableName) as [p|]; cbn [from_option].
  - eapply run_bind_eq; [apply run_getSym|]. reflexivity.
  - reflexivity.
Qed.

(** The resolver is the decision [resolverBranch] followed by the action
    [runBranch] of the branch decided. *)
Lemma resolve_by_branch st :
  resolveIndirectFunctionTable st = runBranch (resolverBranch st) st.
Proof.
  unfold resolveIndirectFunctionTable, resolverBranch.
  eapply run_bind_eq; [apply run_symtab_find|].
  fold (existingTable st).
  assert (He : from_option getSym (mret None) (existingTable st) st
               = (existingSym st, st)).
  { unfold existingSym. destruct (existingTable st); reflexivity. }
  eapply run_bind_eq; [exact He|].
  eapply run_bind_eq; [apply run_getConfig|].
  destruct (from_option (λ s, negb (isTableSymbol s)) false (existingSym st));
    [reflexivity|].
  destruct (from_option isDefined false (existingSym st)); [reflexivity|].
  destruct (importTable (config st)).
  - by destruct (existingTable st).
  - by destruct (from_option live false (existingSym st) || exportTable (config st)).
Qed.

Lemma run_error_branch msg st :
  (error msg ≫= λ _, mret (None : option nat)) st
  = (None, with_errors (errors st ++ [msg]) st).
Proof. reflexivity. Qed.

Lemma run_createUndefinedIndirectFunctionTable_fresh st :
  symMap (symtab st) !! functionTableName = None →
  createUndefinedIndirectFunctionTable functionTableName st =
    (length (symVector (symtab st)),
     with_symtab
       (pushSymbol functionTableName (undefinedTableSym (config st)) (symtab st)) st).
Proof.
  intros H. unfold createUndefinedIndirectFunctionTable, symtab_addUndefinedTable.
  eapply run_bind_eq; [apply run_getConfig|].
  eapply run_bind_eq.
  { eapply run_bind_eq; [by apply run_insertName_fresh | reflexivity]. }
  cbn [fst].
  eapply run_bind_eq; [apply run_sym_markLive|].
  eapply run_bind_eq; [apply run_setSym|]. st_simpl.
  rewrite !alterSym_pushSymbol_new
    by (rewrite ?length_alterSym, ?length_pushSymbol; reflexivity).
  reflexivity.
Qed.

Lemma run_createDefinedIndirectFunctionTable st :
  createDefinedIndirectFunctionTable functionTableName st =
    let fl := if exportTable (config st) then 0%Z else WASM_SYMBOL_VISIBILITY_HIDDEN in
    let fin s := set_forceExport (exportTable (config st)) (set_live s) in
    match symMap (symtab st) !! functionTableName with
    | None =>
        (length (symVector (symtab st)),
         with_symtab
           (pushSymbol functionTableName
              (fin (syntheticSymbol functionTableName definedTableBody fl))
              (symtab st)) st)
    | Some p =>
        (p, with_symtab
              (alterSym (λ s, fin (set_body definedTableBody fl (set_unmarked s)))
                 p (symtab st)) st)
    end.
Proof.
  unfold createDefinedIndirectFunctionTable, symtab_addSyntheticTable.
  eapply run_bind_eq; [apply run_getConfig|].
  destruct (symMap (symtab st) !! functionTableName) as [p|] eqn:H.
  - eapply run_bind_eq; [by eapply run_addSynthetic_present|].
    eapply run_bind_eq; [apply run_sym_markLive|].
    eapply run_bind_eq; [apply run_setSym|]. st_simpl.
    cbn zeta. unfold alterSym.
    cbn [symVector symMap objectFiles with_symVector].
    rewrite !list_alter_alter_eq. reflexivity.
  - eapply run_bind_eq; [by eapply run_addSynthetic_fresh|].
    eapply run_bind_eq; [apply run_sym_markLive|].
    eapply run_bind_eq; [apply run_setSym|]. st_simpl.
    rewrite !alterSym_pushSymbol_new
      by (rewrite ?length_alterSym, ?length_pushSymbol; reflexivity).
    reflexivity.
Qed.

(** Case analysis of a run of the driver, step by step and gate by gate. *)
Ltac trace_inv E :=
  repeat
    (cbn beta in E;
     first
       [ apply finish_inv in E as [-> ->]
       | apply step_inv in E as (? & ? & ? & _ & -> & E)
       | apply gate_inv in E as [[_ E] | (_ & -> & ->)]
       | match type of E with
         | (if ?b then _ else _) = _ => destruct b
         | (if ?b then _ else _) _ = _ => destruct b
         end ]).

Lemma linkerMain_resolves_once ext args st0 :
  resolved_once_after_markLive (linkerMain ext args st0).1 = true.
Proof.
  destruct (linkerMain ext args st0) as [tr fin] eqn:E. cbn [fst].
  unfold linkerMain in E. trace_inv E; reflexivity.
Qed.

Lemma resolved_once_sound tr :
  resolved_once_after_markLive tr = true →
  (PhResolveIndirectFunctionTable ∉ tr) ∨
  ∃ pre post,
    tr = pre ++ PhMarkLive :: PhResolveIndirectFunctionTable :: post ∧
    (PhResolveIndirectFunctionTable ∉ pre) ∧
    (PhResolveIndirectFunctionTable ∉ post).
Proof.
  induction tr as [|ph tr IH]; [left; apply not_elem_of_nil|].
  intros H.
  assert (Hstep : ph ≠ PhResolveIndirectFunctionTable →
                  resolved_once_after_markLive tr = true →
                  (PhResolveIndirectFunctionTable ∉ ph :: tr) ∨
                  ∃ pre post,
                    ph :: tr = pre ++ PhMarkLive :: PhResolveIndirectFunctionTable :: post ∧
                    (PhResolveIndirectFunctionTable ∉ pre) ∧
                    (PhResolveIndirectFunctionTable ∉ post)).
  { intros Hne Htr. destruct (IH Htr) as [Hn | (pre & post & -> & Hpre & Hpost)].
    - left. by apply not_elem_of_cons.
    - right. exists (ph :: pre), post. split; [done|].
      split; [by apply not_elem_of_cons | done]. }
  destruct ph; try (apply Hstep; [done | exact H]); [|done].
  destruct tr as [|ph' tr'];
    [left; apply not_elem_of_cons; split; [done | apply not_elem_of_nil]|].
  destruct ph'; try (apply Hstep; [done | exact H]).
  cbn in H. apply andb_prop in H as [H1 _]. apply bool_decide_eq_true_1 in H1.
  right. exists [], tr'. split; [done|]. split; [apply not_elem_of_nil | done].
Qed.

(** ** Optional symbols *)


Lemma symtab_named_alterSym f p t :
  (∀ s, name (f s) = name s) → symtab_named t → symtab_named (alterSym f p t).
Proof.
  intros Hf Ht n q Hq. rewrite symMap_alterSym in Hq.
  destruct (Ht n q Hq) as (s & Hs & Hn). rewrite symVector_alterSym.
  case_decide; subst; rewrite Hs; cbn; eexists; (split; [done|]); by rewrite ?Hf.
Qed.

Lemma symtab_named_inj t n1 n2 p :
  symtab_named t → symMap t !! n1 = Some p → symMap t !! n2 = Some p → n1 = n2.
Proof.
  intros Ht H1 H2. destruct (Ht _ _ H1) as (s1 & Hs1 & <-).
  destruct (Ht _ _ H2) as (s2 & Hs2 & <-). congruence.
Qed.

Lemma tls_frame_refl st : tls_frame st st.
Proof. unfold tls_frame. split_and!; try done. Qed.



Lemma tls_framed_ret {A} (x : A) : tls_framed (mret x).
Proof. intros st. apply tls_frame_refl. Qed.







(** ** Names of the shadow symbols *)

Lemma string_length_app (s1 s2 : string) :
  String.length (s1 +:+ s2) = String.length s1 + String.length s2.
Proof. induction s1 as [|a s1 IH]; simpl; [done | by f_equal]. Qed.

Lemma real_name_ne n : "__real_" +:+ n ≠ n.
Proof.
  intros H. apply (f_equal String.length) in H.
  rewrite string_length_app in H. simpl in H. lia.
Qed.

Lemma wrap_name_ne n : "__wrap_" +:+ n ≠ n.
Proof.
  intros H. apply (f_equal String.length) in H.
  rewrite string_length_app in H. simpl in H. lia.
Qed.

Lemma real_name_ne_wrap n : "__real_" +:+ n ≠ "__wrap_" +:+ n.
Proof. simpl. intros H. discriminate H. Qed.

(** ** Entering a name in a well-named table *)

Lemma symtab_named_pushSymbol n s t :
  name s = n → symtab_named t → symtab_named (pushSymbol n s t).
Proof.
  intros Hname Ht n' p Hp. rewrite symMap_pushSymbol in Hp. case_decide.
  - injection Hp as <-. subst n'. exists s. split; [|done].
    by apply symVector_pushSymbol_new.
  - destruct (Ht _ _ Hp) as (s' & Hs' & Hn'). exists s'. split; [|done].
    rewrite symVector_pushSymbol_old; [done|]. by eapply lookup_lt_Some.
Qed.

Lemma insertName_spec n b fl st p ins st' :
  symtab_insertName n b fl st = ((p, ins), st') →
  symtab_named (symtab st) →
  symtab_named (symtab st') ∧
  symMap (symtab st') !! n = Some p ∧
  (∀ n', n' ≠ n → symMap (symtab st') !! n' = symMap (symtab st) !! n') ∧
  (∀ q s, symVector (symtab st) !! q = Some s →
          symVector (symtab st') !! q = Some s) ∧
  (symMap (symtab st) !! n = None →
   symVector (symtab st') !! p = Some (newSymbol n b fl)) ∧
  (is_Some (symMap (symtab st) !! n) → st' = st) ∧
  objectFiles (symtab st') = objectFiles (symtab st) ∧
  config st' = config st ∧ errors st' = errors st ∧ wasmSym st' = wasmSym st.
Proof.
  intros Hrun Hnamed.
  destruct (symMap (symtab st) !! n) as [q|] eqn:Hq.
  - rewrite (run_insertName_present _ _ _ _ _ Hq) in Hrun.
    injection Hrun as <- <- <-. split_and!; try done.
  - rewrite (run_insertName_fresh _ _ _ _ Hq) in Hrun.
    injection Hrun as <- <- <-. st_simpl. split_and!; try done.
    all: first
      [ by apply symtab_named_pushSymbol
      | apply symMap_pushSymbol_eq
      | intros n' Hn'; by apply symMap_pushSymbol_ne
      | intros q s Hs; rewrite symVector_pushSymbol_old; [done|];
        by eapply lookup_lt_Some
      | intros _; by apply symVector_pushSymbol_new
      | by intros [? ?] ].
Qed.

(** ** The wrap transformer *)

Lemma run_addWrappedSymbol_absent n st :
  symMap (symtab st) !! n = None → addWrappedSymbol n st = (None, st).
Proof.
  intros H. unfold addWrappedSymbol.
  eapply run_bind_eq; [apply run_symtab_find|]. by rewrite H.
Qed.

(** The state after the five flag assignments of one iteration. *)
Lemma run_addWrappedSymbol_present n st sym :
  symMap (symtab st) !! n = Some sym →
  ∃ real wrap st2 i1 i2,
    symtab_insertName ("__real_" +:+ n) (UndefinedFunction None)
      WASM_SYMBOL_UNDEFINED st = ((real, i1), exec (addUndefined ("__real_" +:+ n)) st) ∧
    symtab_insertName ("__wrap_" +:+ n) (UndefinedFunction None)
      WASM_SYMBOL_UNDEFINED (exec (addUndefined ("__real_" +:+ n)) st) = ((wrap, i2), st2) ∧
    addWrappedSymbol n st =
      (Some {| w_sym := sym; w_real := real; w_wrap := wrap |},
       with_symtab
         (alterSym (set_isUsedInRegularObj false) real
            (alterSym (set_isUsedInRegularObj true) wrap
               (alterSym (set_isUsedInRegularObj true) sym
                  (alterSym (set_canInline false) sym
                     (alterSym (set_canInline false) real (symtab st2))))))
         st2).
Proof.
  intros H. unfold addWrappedSymbol, addUndefined, symtab_addUndefinedFunction.
  destruct (symtab_insertName ("__real_" +:+ n) (UndefinedFunction None)
              WASM_SYMBOL_UNDEFINED st) as [[real i1] st1] eqn:E1.
  destruct (symtab_insertName ("__wrap_" +:+ n) (UndefinedFunction None)
              WASM_SYMBOL_UNDEFINED st1) as [[wrap i2] st2] eqn:E2.
  assert (Hst1 : exec (symtab_insertName ("__real_" +:+ n) (UndefinedFunction None)
                         WASM_SYMBOL_UNDEFINED ≫= λ r, mret r.1) st = st1).
  { unfold exec. by rewrite run_bind, E1. }
  rewrite Hst1. exists real, wrap, st2, i1, i2. split; [done|]. split; [done|].
  eapply run_bind_eq; [apply run_symtab_find|]. rewrite H.
  eapply run_bind_eq; [eapply run_bind_eq; [exact E1|reflexivity]|]. cbn [fst].
  eapply run_bind_eq; [eapply run_bind_eq; [exact E2|reflexivity]|]. cbn [fst].
  reflexivity.
Qed.

(** ** The rename pass *)

(** The loop over the slots of a file rewrites each slot by one lookup. *)
Lemma updateSlots_spec map syms i todo :
  i + todo = length syms →
  updateSlots map syms i todo =
    take i syms ++ ((λ p, default p (map !! p)) <$> drop i syms).
Proof.
  revert i syms. induction todo as [|todo IH]; intros i syms Hlen.
  - cbn [updateSlots]. rewrite drop_ge, take_ge by lia. by rewrite app_nil_r.
  - cbn [updateSlots].
    destruct (lookup_lt_is_Some_2 syms i) as [p Hp]; [lia|]. rewrite Hp.
    set (f := λ p, default p (map !! p)).
    assert (Hsyms : match map !! p with Some s => <[i:=s]> syms | None => syms end
                    = <[i := f p]> syms).
    { unfold f. destruct (map !! p); cbn; [done|]. by rewrite list_insert_id. }
    rewrite Hsyms, IH by (rewrite length_insert; lia).
    rewrite (take_S_r _ _ (f p))
      by (apply list_lookup_insert_eq; by eapply lookup_lt_Some).
    rewrite take_insert_ge, drop_insert_lt by lia.
    rewrite (drop_S _ _ _ Hp), fmap_cons, <- app_assoc. reflexivity.
Qed.

Lemma updateFile_symbols map f i :
  symbols (updateFile map f) !! i =
    (λ p, default p (map !! p)) <$> symbols f !! i.
Proof.
  unfold updateFile. cbn [symbols].
  rewrite updateSlots_spec by done. rewrite take_0, drop_0. cbn [app].
  by rewrite list_lookup_fmap.
Qed.

Lemma wrapMap_snoc ws w :
  wrapMap (ws ++ [w]) = <[w_real w := w_sym w]> (<[w_sym w := w_wrap w]> (wrapMap ws)).
Proof. unfold wrapMap. by rewrite foldl_app. Qed.

Lemma wrap_keys_snoc ws w : wrap_keys (ws ++ [w]) = wrap_keys ws ++ [w_sym w; w_real w].
Proof. unfold wrap_keys. rewrite bind_app. reflexivity. Qed.

(** With distinct keys, the rename map sends each original to its wrapper
    and each real shadow to its original, and nothing else anywhere. *)
Lemma wrapMap_lookup ws :
  NoDup (wrap_keys ws) →
  (∀ w, w ∈ ws → wrapMap ws !! w_sym w = Some (w_wrap w) ∧
                 wrapMap ws !! w_real w = Some (w_sym w)) ∧
  (∀ p, p ∉ wrap_keys ws → wrapMap ws !! p = None).
Proof.
  induction ws as [|w0 ws IH] using rev_ind; intros Hnd.
  - split; [by intros w ?%elem_of_nil|]. intros p _. apply lookup_empty.
  - rewrite wrap_keys_snoc in Hnd. apply NoDup_app in Hnd as (Hnd & Hdisj & Hlast).
    destruct (IH Hnd) as [IHin IHout].
    apply NoDup_cons in Hlast as [Hne _].
    assert (Hsr : w_sym w0 ≠ w_real w0).
    { intros Heq. apply Hne. rewrite Heq. apply elem_of_cons. by left. }
    rewrite wrapMap_snoc, wrap_keys_snoc. split.
    + intros w Hw. apply elem_of_app in Hw as [Hw|Hw].
      * assert (Hs : w_sym w ∈ wrap_keys ws).
        { unfold wrap_keys. apply list_elem_of_bind. exists w. split; [|done].
          apply elem_of_cons. by left. }
        assert (Hr : w_real w ∈ wrap_keys ws).
        { unfold wrap_keys. apply list_elem_of_bind. exists w. split; [|done].
          apply elem_of_cons. right. apply elem_of_cons. by left. }
        pose proof (Hdisj _ Hs) as Hs'. pose proof (Hdisj _ Hr) as Hr'.
        rewrite !lookup_insert_ne; [by apply IHin | | | |].
        all: intros Heq;
          first [ apply Hs'; rewrite <- Heq;
                  solve [repeat first [apply elem_of_cons; by left
                                      | apply elem_of_cons; right]]
                | apply Hr'; rewrite <- Heq;
                  solve [repeat first [apply elem_of_cons; by left
                                      | apply elem_of_cons; right]] ].
      * apply list_elem_of_singleton in Hw as ->.
        rewrite lookup_insert_ne, !lookup_insert_eq by done. done.
    + intros p Hp. rewrite !lookup_insert_ne; [apply IHout | |].
      * intros Hin. apply Hp. apply elem_of_app. by left.
      * intros Heq. apply Hp. apply elem_of_app. right. rewrite <- Heq.
        apply elem_of_cons. by left.
      * intros Heq. apply Hp. apply elem_of_app. right. rewrite <- Heq.
        apply elem_of_cons. right. apply elem_of_cons. by left.
Qed.

Lemma symtab_named_empty : symtab_named emptySymtab.
Proof. intros n p H. cbn in H. by rewrite lookup_empty in H. Qed.

Lemma name_keys_snoc reqs r :
  name_keys (reqs ++ [r]) = name_keys reqs ++ [r.1; "__real_" +:+ r.1].
Proof. unfold name_keys. rewrite bind_app. reflexivity. Qed.

Lemma tableAfter_snoc m reqs r :
  tableAfter m (reqs ++ [r]) =
    <[r.1 := w_wrap r.2]> (<["__real_" +:+ r.1 := w_sym r.2]> (tableAfter m reqs)).
Proof. unfold tableAfter. by rewrite foldl_app. Qed.

Lemma name_keys_cons r reqs :
  name_keys (r :: reqs) = r.1 :: ("__real_" +:+ r.1) :: name_keys reqs.
Proof. reflexivity. Qed.

Lemma shadow_names_cons r reqs :
  shadow_names (r :: reqs) =
    r.1 :: ("__real_" +:+ r.1) :: ("__wrap_" +:+ r.1) :: shadow_names reqs.
Proof. reflexivity. Qed.

Lemma wrap_keys_cons w ws :
  wrap_keys (w :: ws) = w_sym w :: w_real w :: wrap_keys ws.
Proof. reflexivity. Qed.

Lemma name_keys_shadow_names reqs k : k ∈ name_keys reqs → k ∈ shadow_names reqs.
Proof.
  unfold name_keys, shadow_names. rewrite !list_elem_of_bind.
  intros (r & Hk & Hr). exists r. split; [|done].
  apply elem_of_cons in Hk as [->|Hk]; [apply elem_of_cons; by left|].
  apply list_elem_of_singleton in Hk as ->.
  apply elem_of_cons. right. apply elem_of_cons. by left.
Qed.

Lemma NoDup_name_keys reqs : NoDup (shadow_names reqs) → NoDup (name_keys reqs).
Proof.
  induction reqs as [|r reqs IH]; [constructor|].
  rewrite shadow_names_cons, name_keys_cons. intros Hnd.
  apply NoDup_cons in Hnd as [H1 Hnd]. apply NoDup_cons in Hnd as [H2 Hnd].
  apply NoDup_cons in Hnd as [_ Hnd].
  apply NoDup_cons. split.
  - intros Hin. apply H1. apply elem_of_cons in Hin as [Hin|Hin].
    + apply elem_of_cons. by left.
    + apply elem_of_cons. right. apply elem_of_cons. right.
      by apply name_keys_shadow_names.
  - apply NoDup_cons. split; [|by apply IH].
    intros Hin. apply H2. apply elem_of_cons. right. by apply name_keys_shadow_names.
Qed.

(** With distinct names, the swapped index holds the wrapper under each
    original name and the original under each real name, and is as before
    under every other name. *)
Lemma tableAfter_lookup m reqs :
  NoDup (name_keys reqs) →
  (∀ r, r ∈ reqs → tableAfter m reqs !! r.1 = Some (w_wrap r.2) ∧
                   tableAfter m reqs !! ("__real_" +:+ r.1) = Some (w_sym r.2)) ∧
  (∀ k, k ∉ name_keys reqs → tableAfter m reqs !! k = m !! k).
Proof.
  induction reqs as [|r0 reqs IH] using rev_ind; intros Hnd.
  - split; [by intros r ?%elem_of_nil|]. by intros k _.
  - rewrite name_keys_snoc in Hnd. apply NoDup_app in Hnd as (Hnd & Hdisj & Hlast).
    destruct (IH Hnd) as [IHin IHout].
    rewrite tableAfter_snoc, name_keys_snoc. split.
    + intros r Hr. apply elem_of_app in Hr as [Hr|Hr].
      * assert (Hs : r.1 ∈ name_keys reqs).
        { unfold name_keys. apply list_elem_of_bind. exists r. split; [|done].
          apply elem_of_cons. by left. }
        assert (Hrl : "__real_" +:+ r.1 ∈ name_keys reqs).
        { unfold name_keys. apply list_elem_of_bind. exists r. split; [|done].
          apply elem_of_cons. right. apply elem_of_cons. by left. }
        pose proof (Hdisj _ Hs) as Hs'. pose proof (Hdisj _ Hrl) as Hr'.
        rewrite !lookup_insert_ne; [by apply IHin | | | |].
        all: intros Heq;
          first [ apply Hs'; rewrite <- Heq;
                  solve [repeat first [apply elem_of_cons; by left
                                      | apply elem_of_cons; right]]
                | apply Hr'; rewrite <- Heq;
                  solve [repeat first [apply elem_of_cons; by left
                                      | apply elem_of_cons; right]] ].
      * apply list_elem_of_singleton in Hr as ->.
        rewrite lookup_insert_eq, lookup_insert_ne, lookup_insert_eq; [done|].
        apply not_eq_sym, real_name_ne.
    + intros k Hk. rewrite !lookup_insert_ne; [apply IHout | |].
      * intros Hin. apply Hk. apply elem_of_app. by left.
      * intros Heq. apply Hk. apply elem_of_app. right. rewrite <- Heq.
        apply elem_of_cons. right. apply elem_of_cons. by left.
      * intros Heq. apply Hk. apply elem_of_app. right. rewrite <- Heq.
        apply elem_of_cons. by left.
Qed.

(** A key of the rename map is held by a name of the requests. *)
Lemma wrap_key_name st reqs p nm :
  symtab_named (symtab st) →
  Forall (λ r, record_of st r.1 r.2) reqs →
  p ∈ wrap_keys reqs.*2 →
  symMap (symtab st) !! nm = Some p →
  nm ∈ name_keys reqs.
Proof.
  intros Hnamed Hrec Hp Hnm. unfold wrap_keys in Hp.
  apply list_elem_of_bind in Hp as (w & Hp & Hw).
  apply list_elem_of_fmap in Hw as (r & -> & Hr).
  rewrite Forall_forall in Hrec. destruct (Hrec _ Hr) as (Hs & Hrl & _).
  unfold name_keys. apply list_elem_of_bind. exists r. split; [|done].
  apply elem_of_cons in Hp as [->|Hp].
  - apply elem_of_cons. left. eapply symtab_named_inj; eauto.
  - apply list_elem_of_singleton in Hp as ->.
    apply elem_of_cons. right. apply elem_of_cons. left.
    eapply symtab_named_inj; eauto.
Qed.

Lemma NoDup_wrap_keys st reqs :
  symtab_named (symtab st) →
  Forall (λ r, record_of st r.1 r.2) reqs →
  NoDup (name_keys reqs) →
  NoDup (wrap_keys reqs.*2).
Proof.
  intros Hnamed. induction reqs as [|r reqs IH]; intros Hrec Hnd; [constructor|].
  apply Forall_cons in Hrec as [(Hs & Hr & _) Hrec].
  rewrite name_keys_cons in Hnd.
  apply NoDup_cons in Hnd as [H1 Hnd]. apply NoDup_cons in Hnd as [H2 Hnd].
  rewrite fmap_cons, wrap_keys_cons.
  apply NoDup_cons. split.
  - intros Hin. apply elem_of_cons in Hin as [Heq|Hin].
    + apply (real_name_ne r.1).
      apply (symtab_named_inj (symtab st) _ _ (w_real r.2)); [done|done|].
      by rewrite <- Heq.
    + apply H1. apply elem_of_cons. right. eapply wrap_key_name; eauto.
  - apply NoDup_cons. split; [|by apply IH].
    intros Hin. apply H2. eapply wrap_key_name; eauto.
Qed.

(** One call of the table's [wrap], for a record whose three objects carry
    their names and whose original and wrapper are still entered. *)
Lemma exec_symtab_wrap st n w :
  from_option name "" (symVector (symtab st) !! w_sym w) = n →
  from_option name "" (symVector (symtab st) !! w_real w) = "__real_" +:+ n →
  from_option name "" (symVector (symtab st) !! w_wrap w) = "__wrap_" +:+ n →
  symMap (symtab st) !! n = Some (w_sym w) →
  symMap (symtab st) !! ("__wrap_" +:+ n) = Some (w_wrap w) →
  exec (symtab_wrap (w_sym w) (w_real w) (w_wrap w)) st =
    with_symtab
      (with_symMap (<[n := w_wrap w]> (<["__real_" +:+ n := w_sym w]>
                                         (symMap (symtab st)))) (symtab st)) st.
Proof.
  intros Hs Hr Hw Ms Mw. unfold symtab_wrap.
  apply exec_of_run with (x := tt).
  eapply run_bind_eq; [apply run_getName|].
  eapply run_bind_eq; [apply run_getName|].
  eapply run_bind_eq; [apply run_getName|].
  rewrite Hs, Hr, Hw. unfold modifySymtab, modify. cbn zeta.
  rewrite Ms, lookup_insert_ne, Mw by apply real_name_ne_wrap.
  reflexivity.
Qed.

Lemma shadow_names_elem reqs r :
  r ∈ reqs →
  r.1 ∈ shadow_names reqs ∧ "__real_" +:+ r.1 ∈ shadow_names reqs ∧
  "__wrap_" +:+ r.1 ∈ shadow_names reqs.
Proof.
  intros Hr. unfold shadow_names. rewrite !list_elem_of_bind.
  split_and!; exists r; (split; [|done]);
    repeat first [apply elem_of_cons; by left | apply elem_of_cons; right].
Qed.

(** The loop of [wrapSymbols] over the table, for requests with pairwise
    distinct names: the index ends as [tableAfter]. *)
Lemma exec_wrap_loop reqs : ∀ st,
  (∀ r, r ∈ reqs →
     from_option name "" (symVector (symtab st) !! w_sym r.2) = r.1 ∧
     from_option name "" (symVector (symtab st) !! w_real r.2) = "__real_" +:+ r.1 ∧
     from_option name "" (symVector (symtab st) !! w_wrap r.2) = "__wrap_" +:+ r.1 ∧
     symMap (symtab st) !! r.1 = Some (w_sym r.2) ∧
     symMap (symtab st) !! ("__wrap_" +:+ r.1) = Some (w_wrap r.2)) →
  NoDup (shadow_names reqs) →
  exec (forEach reqs.*2 (λ w, symtab_wrap (w_sym w) (w_real w) (w_wrap w))) st =
    with_symtab (with_symMap (tableAfter (symMap (symtab st)) reqs) (symtab st)) st.
Proof.
  induction reqs as [|r reqs IH]; intros st Hrec Hnd.
  - rewrite fmap_nil, exec_forEach_nil. destruct st as [c [m v o] w f e wn].
    reflexivity.
  - rewrite fmap_cons, exec_forEach_cons.
    destruct (Hrec r) as (Hs & Hr & Hw & Ms & Mw); [apply elem_of_cons; by left|].
    rewrite (exec_symtab_wrap st r.1 r.2 Hs Hr Hw Ms Mw).
    rewrite shadow_names_cons in Hnd.
    apply NoDup_cons in Hnd as [H1 Hnd]. apply NoDup_cons in Hnd as [H2 Hnd].
    apply NoDup_cons in Hnd as [_ Hnd].
    rewrite IH; [reflexivity| |done].
    intros r' Hr'.
    destruct (Hrec r') as (Hs' & Hrl' & Hw' & Ms' & Mw'); [apply elem_of_cons; by right|].
    destruct (shadow_names_elem _ _ Hr') as (E1 & E2 & E3).
    cbn [symtab with_symtab symVector symMap with_symMap].
    split_and!; try done.
    + rewrite !lookup_insert_ne; [done| |].
      * intros Heq. apply H2. rewrite Heq. apply elem_of_cons. by right.
      * intros Heq. apply H1. rewrite Heq. apply elem_of_cons. right.
        apply elem_of_cons. by right.
    + rewrite !lookup_insert_ne; [done| |].
      * intros Heq. apply H2. rewrite Heq. apply elem_of_cons. by right.
      * intros Heq. apply H1. rewrite Heq. apply elem_of_cons. right.
        apply elem_of_cons. by right.
Qed.

Lemma named_object t n p :
  symtab_named t → symMap t !! n = Some p →
  from_option name "" (symVector t !! p) = n.
Proof. intros Ht H. by destruct (Ht _ _ H) as (s & -> & <-). Qed.

(** The whole pass, for requests with pairwise distinct names. *)
Lemma exec_wrapSymbols st reqs :
  symtab_named (symtab st) →
  Forall (λ r, record_of st r.1 r.2) reqs →
  NoDup (shadow_names reqs) →
  symtab (exec (wrapSymbols reqs.*2) st) =
    {| symMap := tableAfter (symMap (symtab st)) reqs;
       symVector := symVector (symtab st);
       objectFiles := updateFile (wrapMap reqs.*2) <$> objectFiles (symtab st) |}.
Proof.
  intros Hnamed Hrec Hnd. unfold wrapSymbols. cbn zeta.
  rewrite exec_bind, exec_wrap_loop; [reflexivity| |done].
  intros r Hr. rewrite Forall_forall in Hrec.
  destruct (Hrec _ Hr) as (Hs & Hrl & Hw).
  unfold exec, modifySymtab, modify.
  cbn [snd symtab with_symtab symVector symMap with_objectFiles].
  split_and!; try done; by apply named_object.
Qed.

Lemma slot_updateFile map t k i :
  slot (with_objectFiles (updateFile map <$> objectFiles t) t) k i =
    (λ p, default p (map !! p)) <$> slot t k i.
Proof.
  unfold slot. cbn [objectFiles with_objectFiles]. rewrite list_lookup_fmap.
  destruct (objectFiles t !! k) as [f|]; [|done]. cbn [fmap option_fmap option_map mbind option_bind].
  apply updateFile_symbols.
Qed.

(** * The driver against its specification *)

Lemma table_undefined_of_not_defined s :
  isTableSymbol s = true → isDefined s = false → isUndefined s = true.
Proof. unfold isTableSymbol, isDefined, isUndefined, isLazy. by destruct (body s). Qed.

Lemma runBranch_import_new st :
  symMap (symtab st) !! functionTableName = None →
  runBranch BrImportNew st =
    (Some (length (symVector (symtab st))),
     with_symtab
       (pushSymbol functionTableName (undefinedTableSym (config st)) (symtab st)) st).
Proof.
  intros H. cbn [runBranch].
  eapply run_bind_eq; [by apply run_createUndefinedIndirectFunctionTable_fresh|].
  reflexivity.
Qed.

Lemma runBranch_define_fresh st :
  symMap (symtab st) !! functionTableName = None →
  runBranch BrDefine st =
    (Some (length (symVector (symtab st))),
     with_symtab
       (pushSymbol functionTableName
          (set_forceExport (exportTable (config st))
             (set_live
                (syntheticSymbol functionTableName definedTableBody
                   (if exportTable (config st) then 0%Z
                    else WASM_SYMBOL_VISIBILITY_HIDDEN))))
          (symtab st)) st).
Proof.
  intros H. cbn [runBranch].
  rewrite run_bind, run_createDefinedIndirectFunctionTable. cbn zeta.
  by rewrite H.
Qed.

Lemma runBranch_define_present st p :
  symMap (symtab st) !! functionTableName = Some p →
  runBranch BrDefine st =
    (Some p,
     with_symtab
       (alterSym
          (λ s, set_forceExport (exportTable (config st))
                  (set_live
                     (set_body definedTableBody
                        (if exportTable (config st) then 0%Z
                         else WASM_SYMBOL_VISIBILITY_HIDDEN)
                        (set_unmarked s))))
          p (symtab st)) st).
Proof.
  intros H. cbn [runBranch].
  rewrite run_bind, run_createDefinedIndirectFunctionTable. cbn zeta.
  by rewrite H.
Qed.

(** C1 (amended). Provided the reserved name is free or held by an undefined
    table symbol, the resolver records no error and leaves in exactly one of
    three ways.  With [importTable]: the result is an undefined table symbol
    under the reserved name, the existing one left as it is when there is
    one, else a new one, marked live and with [forceExport] set to
    [exportTable].  Else, when the existing table symbol is live or
    [exportTable] is set: the result is a table symbol defined by the
    linker, marked live, with [forceExport] set to [exportTable].  Else:
    the result is null and the state is unchanged.  In a run of the driver
    the resolver step occurs at most once, and then right after the
    reachability analysis. *)
Theorem indirect_table_three_way (st : LinkState) :
  reserved_name_usable st →
  let c := config st in
  let r := eval resolveIndirectFunctionTable st in
  let st' := exec resolveIndirectFunctionTable st in
  let tableLive := from_option live false (existingSym st) in
  errors st' = errors st ∧
  (importTable c = true →
     ∃ p s, r = Some p ∧
            symMap (symtab st') !! functionTableName = Some p ∧
            symVector (symtab st') !! p = Some s ∧
            isTableSymbol s = true ∧ isUndefined s = true ∧
            match existingTable st with
            | Some q => q = p ∧ st' = st
            | None => s = undefinedTableSym c ∧ live s = true ∧
                      forceExport s = exportTable c
            end) ∧
  (importTable c = false → tableLive || exportTable c = true →
     ∃ p s, r = Some p ∧
            symMap (symtab st') !! functionTableName = Some p ∧
            symVector (symtab st') !! p = Some s ∧
            body s = definedTableBody ∧ isDefined s = true ∧
            live s = true ∧ forceExport s = exportTable c) ∧
  (importTable c = false → tableLive || exportTable c = false →
     r = None ∧ st' = st) ∧
  (∀ ext args st0,
     let tr := (linkerMain ext args st0).1 in
     (PhResolveIndirectFunctionTable ∉ tr) ∨
     ∃ pre post,
       tr = pre ++ PhMarkLive :: PhResolveIndirectFunctionTable :: post ∧
       (PhResolveIndirectFunctionTable ∉ pre) ∧
       (PhResolveIndirectFunctionTable ∉ post)).
Proof.
  intros Hu. cbn zeta. unfold eval, exec. rewrite resolve_by_branch.
  split_and!.
  5:{ intros ext args st0. apply resolved_once_sound, linkerMain_resolves_once. }
  all: unfold resolverBranch, reserved_name_usable, existingSym in *.
  all: destruct (existingTable st) as [q|] eqn:Hq; unfold existingTable in Hq;
    cbn [mbind option_bind from_option] in *.
  all: try destruct Hu as (s & Hs & Ht & Hd); rewrite ?Hs; cbn [from_option];
    rewrite ?Ht, ?Hd; cbn [negb orb].
  - destruct (importTable (config st)); [reflexivity|].
    destruct (live s || exportTable (config st)); [|reflexivity].
    by rewrite (runBranch_define_present _ _ Hq).
  - destruct (importTable (config st)).
    { by rewrite (runBranch_import_new _ Hq). }
    destruct (exportTable (config st)); [|reflexivity].
    by rewrite (runBranch_define_fresh _ Hq).
  - intros ->. cbn [runBranch]. exists q, s. split_and!; try done.
    by apply table_undefined_of_not_defined.
  - intros ->. rewrite (runBranch_import_new _ Hq). cbn [fst snd].
    eexists _, _. split; [reflexivity|]. st_simpl. push_lookup.
    split; [reflexivity|]. split; [reflexivity|]. by split_and!.
  - intros -> Hl. rewrite Hl. rewrite (runBranch_define_present _ _ Hq). cbn [fst snd].
    eexists _, _. split; [reflexivity|]. st_simpl. rewrite symMap_alterSym.
    split; [exact Hq|]. rewrite symVector_alterSym_eq, Hs.
    cbn [fmap option_fmap option_map]. split; [reflexivity|]. done.
  - intros -> Hl. rewrite Hl. rewrite (runBranch_define_fresh _ Hq). cbn [fst snd].
    eexists _, _. split; [reflexivity|]. st_simpl. push_lookup.
    split; [reflexivity|]. split; [reflexivity|]. done.
  - intros -> Hl. by rewrite Hl.
  - intros -> Hl. by rewrite Hl.
Qed.

(** With [--import-table] and an empty table the hypothesis of C1 holds and
    the resolver makes the imported table symbol. *)
Lemma indirect_table_three_way_witness :
  reserved_name_usable (configuredState args_import_table) ∧
  errors (exec resolveIndirectFunctionTable (configuredState args_import_table))
  = errors (configuredState args_import_table).
Proof.
  split; [exact I|].
  apply (indirect_table_three_way (configuredState args_import_table)). exact I.
Defined.

(** C1 as stated fails: with [--import-table] and the reserved name held by
    a table that an input file defines, the resolver records an error and
    returns null; the table is untouched, no imported table symbol
    results. *)
Lemma import_table_over_defined_table_yields_none :
  importTable (config state_import_over_defined_table) = true ∧
  eval resolveIndirectFunctionTable state_import_over_defined_table = None ∧
  symtab (exec resolveIndirectFunctionTable state_import_over_defined_table)
  = symtab state_import_over_defined_table ∧
  errors (exec resolveIndirectFunctionTable state_import_over_defined_table)
  = ["reserved symbol must not be defined in input files: `__indirect_function_table`"] ∧
  ¬ (∃ p s, eval resolveIndirectFunctionTable state_import_over_defined_table = Some p ∧
            symVector (symtab (exec resolveIndirectFunctionTable
                                 state_import_over_defined_table)) !! p = Some s ∧
            isUndefined s = true).
Proof.
  split_and!; try reflexivity. intros (p & s & H & _). discriminate H.
Qed.

(** C2 (amended). In position-independent mode, on a table in which the
    synthetic names are new, [createSyntheticSymbols] makes [stackPointer],
    [memoryBase] and [tableBase] undefined globals to be imported;
    [memoryBase] and [tableBase] are marked live at once, [stackPointer] is
    not marked live by the generator. *)
Theorem pic_base_globals_imported (st : LinkState) :
  relocatable (config st) = false →
  isPic (config st) = true →
  fresh_names syntheticNames st →
  let st' := exec createSyntheticSymbols st in
  imported_global st' "__stack_pointer" (stackPointer (wasmSym st')) ∧
  imported_global st' "__memory_base" (memoryBase (wasmSym st')) ∧
  imported_global st' "__table_base" (tableBase (wasmSym st')) ∧
  marked_live st' (memoryBase (wasmSym st')) ∧
  marked_live st' (tableBase (wasmSym st')) ∧
  ¬ marked_live st' (stackPointer (wasmSym st')).
Proof.
  intros Hr Hp Hf. cbn zeta. rewrite createSyntheticSymbols_fresh by done.
  unfold imported_global, marked_live. cbn [config symtab wasmSym].
  unfold syntheticConfig, syntheticTable, syntheticWasmSym. rewrite Hp.
  destruct (sharedMemory (config st)) eqn:Hs;
    cbn [stackPointer memoryBase tableBase
         set_stackPointer set_memoryBase set_tableBase set_tlsBase
         set_tlsSize set_tlsAlign set_initTLS set_callCtors].
  all: split_and!.
  all: try (eexists _, _; split; [reflexivity|]; push_lookup;
            repeat (split; [reflexivity|]); first [reflexivity | cbn; set_solver]).
  all: intros (q & s & [= <-] & Hs' & Hl); revert Hs'; push_lookup;
    intros [= <-]; discriminate Hl.
Qed.

(** [-pie] on an empty table meets the hypotheses of C2. *)
Lemma pic_base_globals_imported_witness :
  relocatable (config (configuredState args_pie)) = false ∧
  isPic (config (configuredState args_pie)) = true ∧
  fresh_names syntheticNames (configuredState args_pie) ∧
  marked_live (exec createSyntheticSymbols (configuredState args_pie))
    (memoryBase (wasmSym (exec createSyntheticSymbols (configuredState args_pie)))).
Proof.
  assert (Hf : fresh_names syntheticNames (configuredState args_pie))
    by (repeat constructor).
  split_and!; [reflexivity | reflexivity | exact Hf |].
  apply (pic_base_globals_imported (configuredState args_pie));
    [reflexivity | reflexivity | exact Hf].
Defined.

(** C2 as stated fails: with [-pie], after [createSyntheticSymbols] on the
    empty table the stack-pointer symbol is an undefined global and does not
    carry the live mark. *)
Lemma pic_stack_pointer_not_marked_live :
  let st' := exec createSyntheticSymbols (configuredState args_pie) in
  isPic (config (configuredState args_pie)) = true ∧
  (∃ p s, stackPointer (wasmSym st') = Some p ∧
          symVector (symtab st') !! p = Some s ∧
          name s = "__stack_pointer" ∧ isUndefined s = true ∧ live s = false) ∧
  ¬ (marked_live st' (stackPointer (wasmSym st')) ∧
     marked_live st' (memoryBase (wasmSym st')) ∧
     marked_live st' (tableBase (wasmSym st'))).
Proof.
  cbn zeta. split; [reflexivity|]. split.
  - eexists _, _. split; [reflexivity|]. split; [reflexivity|]. by split_and!.
  - intros [(q & s & Hq & Hs & Hl) _].
    vm_compute in Hq. injection Hq as <-.
    vm_compute in Hs. injection Hs as <-. discriminate Hl.
Qed.

(** C3. For a configuration that is not relocatable, on a table in which the
    synthetic names are new, the stack-pointer symbol that
    [createSyntheticSymbols] makes is an undefined global, to be imported,
    exactly when the output is position independent; otherwise it is a
    defined global that is mutable, initialised to the constant zero, and
    marked live. *)
Theorem stack_pointer_gating (st : LinkState) :
  relocatable (config st) = false →
  fresh_names syntheticNames st →
  let st' := exec createSyntheticSymbols st in
  ∃ p s,
    stackPointer (wasmSym st') = Some p ∧
    symMap (symtab st') !! "__stack_pointer" = Some p ∧
    symVector (symtab st') !! p = Some s ∧
    isGlobalSymbol s = true ∧
    (isPic (config st) = true ↔ isUndefined s = true) ∧
    (isPic (config st) = true →
       imported_global st' "__stack_pointer" (stackPointer (wasmSym st'))) ∧
    (isPic (config st) = false →
       ∃ g, body s = DefinedGlobal g ∧ isDefined s = true ∧
            GT_Mutable (G_Type g) = true ∧
            IE_Value (G_InitExpr g) = 0%Z ∧
            (IE_Opcode (G_InitExpr g) = WASM_OPCODE_I32_CONST ∨
             IE_Opcode (G_InitExpr g) = WASM_OPCODE_I64_CONST) ∧
            live s = true).
Proof.
  intros Hr Hf. cbn zeta. rewrite createSyntheticSymbols_fresh by done.
  unfold imported_global. cbn [config symtab wasmSym].
  unfold syntheticConfig, syntheticTable, syntheticWasmSym.
  destruct (isPic (config st)) eqn:Hp, (sharedMemory (config st)) eqn:Hs;
    cbn [stackPointer set_stackPointer set_memoryBase set_tableBase set_tlsBase
         set_tlsSize set_tlsAlign set_initTLS set_callCtors];
    eexists _, _; (split; [reflexivity|]); push_lookup;
    (split; [reflexivity|]); (split; [reflexivity|]);
    (split; [reflexivity|]); (split; [done|]); split; try done.
  - intros _. eexists _, _. split; [reflexivity|]. push_lookup.
    repeat (split; [reflexivity|]). cbn. set_solver.
  - intros _. eexists _, _. split; [reflexivity|]. push_lookup.
    repeat (split; [reflexivity|]). cbn. set_solver.
  - intros _. eexists. split; [reflexivity|].
    destruct (zeroGlobal_props (config st) "__stack_pointer" true) as (? & ? & ? & Ht).
    repeat split; try done. cbn.
    destruct (is64_or_false (config st)); injection Ht as _ ->; auto.
  - intros _. eexists. split; [reflexivity|].
    destruct (zeroGlobal_props (config st) "__stack_pointer" true) as (? & ? & ? & Ht).
    repeat split; try done. cbn.
    destruct (is64_or_false (config st)); injection Ht as _ ->; auto.
Qed.

(** A plain link on an empty table meets the hypotheses of C3: the stack
    pointer is a global that is not undefined. *)
Lemma stack_pointer_gating_witness :
  relocatable (config (configuredState args_plain)) = false ∧
  fresh_names syntheticNames (configuredState args_plain) ∧
  ∃ p s,
    stackPointer (wasmSym (exec createSyntheticSymbols (configuredState args_plain)))
      = Some p ∧
    symVector (symtab (exec createSyntheticSymbols (configuredState args_plain))) !! p
      = Some s ∧
    isGlobalSymbol s = true ∧
    (isPic (config (configuredState args_plain)) = true ↔ isUndefined s = true).
Proof.
  assert (Hf : fresh_names syntheticNames (configuredState args_plain))
    by (repeat constructor).
  split_and!; [reflexivity | exact Hf |].
  destruct (stack_pointer_gating (configuredState args_plain) eq_refl Hf)
    as (p & s & H1 & _ & H3 & H4 & H5 & _).
  exists p, s. by split_and!.
Defined.

(** C4 (amended). The rename pass [wrapSymbols], run on the records of
    requests whose names and shadow names are pairwise distinct (so no
    request names the real or the wrap shadow of another), each
    record holding the symbols entered under [n], [__real_n] and [__wrap_n]:
    for every request, each slot of each object file and each table entry
    that referred to the original symbol refers to the wrap shadow
    afterwards, and each one that referred to the real shadow refers to the
    original; a slot or an entry that referred to neither an original nor a
    real shadow is as before, and no slot or entry is made or removed. *)
Theorem wrap_renames_references (st : LinkState)
    (reqs : list (string * WrappedSymbol)) :
  symtab_named (symtab st) →
  Forall (λ r, record_of st r.1 r.2) reqs →
  NoDup (shadow_names reqs) →
  let t := symtab st in
  let t' := symtab (exec (wrapSymbols reqs.*2) st) in
  (∀ n w, (n, w) ∈ reqs →
     (∀ k i, slot t k i = Some (w_sym w) → slot t' k i = Some (w_wrap w)) ∧
     (∀ k i, slot t k i = Some (w_real w) → slot t' k i = Some (w_sym w)) ∧
     (∀ m, symMap t !! m = Some (w_sym w) → symMap t' !! m = Some (w_wrap w)) ∧
     (∀ m, symMap t !! m = Some (w_real w) → symMap t' !! m = Some (w_sym w))) ∧
  (∀ k i p, slot t k i = Some p → p ∉ wrap_keys reqs.*2 →
            slot t' k i = Some p) ∧
  (∀ m p, symMap t !! m = Some p → p ∉ wrap_keys reqs.*2 →
          symMap t' !! m = Some p) ∧
  (∀ k i, slot t k i = None → slot t' k i = None) ∧
  (∀ m, symMap t !! m = None → symMap t' !! m = None) ∧
  symVector t' = symVector t.
Proof.
  intros Hnamed Hrec Hnd. cbn zeta.
  rewrite (exec_wrapSymbols st reqs Hnamed Hrec Hnd).
  pose proof (NoDup_name_keys _ Hnd) as Hnk.
  pose proof (NoDup_wrap_keys _ _ Hnamed Hrec Hnk) as Hwk.
  destruct (wrapMap_lookup _ Hwk) as [Win Wout].
  destruct (tableAfter_lookup (symMap (symtab st)) _ Hnk) as [Tin Tout].
  assert (Hslot : ∀ k i,
    slot {| symMap := tableAfter (symMap (symtab st)) reqs;
            symVector := symVector (symtab st);
            objectFiles := updateFile (wrapMap reqs.*2) <$> objectFiles (symtab st) |}
         k i = (λ p, default p (wrapMap reqs.*2 !! p)) <$> slot (symtab st) k i).
  { intros k i. apply (slot_updateFile (wrapMap reqs.*2) (symtab st) k i). }
  cbn [symMap symVector]. rewrite Forall_forall in Hrec.
  split_and!; [|..|reflexivity].
  - intros n w Hin.
    assert (Hw : w ∈ reqs.*2).
    { apply list_elem_of_fmap. by exists (n, w). }
    destruct (Win _ Hw) as [Ws Wr]. destruct (Tin _ Hin) as [Ts Tr].
    destruct (Hrec _ Hin) as (Rs & Rr & _). cbn [fst snd] in *.
    split_and!.
    + intros k i H. by rewrite Hslot, H; cbn; rewrite Ws.
    + intros k i H. by rewrite Hslot, H; cbn; rewrite Wr.
    + intros m H. by rewrite (symtab_named_inj _ _ _ _ Hnamed H Rs).
    + intros m H. by rewrite (symtab_named_inj _ _ _ _ Hnamed H Rr).
  - intros k i p H Hp. by rewrite Hslot, H; cbn; rewrite (Wout _ Hp).
  - intros m p H Hp. rewrite Tout; [done|].
    intros Hm. apply Hp. unfold name_keys in Hm.
    apply list_elem_of_bind in Hm as (r & Hm & Hr).
    destruct (Hrec _ Hr) as (Rs & Rr & _).
    unfold wrap_keys. apply list_elem_of_bind. exists r.2. split.
    + apply elem_of_cons in Hm as [->|Hm].
      * apply elem_of_cons. left. congruence.
      * apply list_elem_of_singleton in Hm as ->.
        apply elem_of_cons. right. apply elem_of_cons. left. congruence.
    + apply list_elem_of_fmap. by exists r.
  - intros k i H. by rewrite Hslot, H.
  - intros m H. rewrite Tout; [done|].
    intros Hm. unfold name_keys in Hm.
    apply list_elem_of_bind in Hm as (r & Hm & Hr).
    destruct (Hrec _ Hr) as (Rs & Rr & _).
    apply elem_of_cons in Hm as [->|Hm]; [congruence|].
    apply list_elem_of_singleton in Hm as ->. congruence.
Qed.

(** The table of [state_shadowed_foo] meets the hypotheses of C4 for the one
    request of [foo]: its four slots come out as wrap, original, wrap, wrap. *)
Lemma wrap_renames_references_witness :
  symtab_named (symtab state_shadowed_foo) ∧
  Forall (λ r, record_of state_shadowed_foo r.1 r.2) [record_foo] ∧
  NoDup (shadow_names [record_foo]) ∧
  let t' := symtab (exec (wrapSymbols [record_foo].*2) state_shadowed_foo) in
  slot t' 0 0 = Some 2 ∧ slot t' 0 1 = Some 0 ∧ slot t' 0 2 = Some 2 ∧
  slot t' 0 3 = Some 2 ∧
  symMap t' !! "foo" = Some 2 ∧ symMap t' !! "__real_foo" = Some 0 ∧
  symMap t' !! "__wrap_foo" = Some 2.
Proof.
  assert (Hn : symtab_named (symtab state_shadowed_foo)).
  { change (symtab state_shadowed_foo) with table_shadowed_foo.
    assert (H3 : symtab_named
      (pushSymbol "__wrap_foo"
         (newSymbol "__wrap_foo" (UndefinedFunction None) WASM_SYMBOL_UNDEFINED)
         (pushSymbol "__real_foo"
            (newSymbol "__real_foo" (UndefinedFunction None) WASM_SYMBOL_UNDEFINED)
            table_with_foo))).
    { repeat (apply symtab_named_pushSymbol; [reflexivity|]).
      apply symtab_named_empty. }
    intros n p H. exact (H3 n p H). }
  assert (Hr : Forall (λ r, record_of state_shadowed_foo r.1 r.2) [record_foo]).
  { repeat constructor. }
  assert (Hd : NoDup (shadow_names [record_foo])).
  { apply (bool_decide_unpack (NoDup (shadow_names [record_foo]))).
    vm_compute. exact I. }
  split; [exact Hn|]. split; [exact Hr|]. split; [exact Hd|].
  destruct (wrap_renames_references state_shadowed_foo [record_foo] Hn Hr Hd)
    as (Hin & Hslot & Htab & _).
  destruct (Hin "foo" record_foo.2) as (H1 & H2 & H3 & H4);
    [apply elem_of_cons; by left|].
  cbn zeta. split_and!.
  - apply (H1 0 0). reflexivity.
  - apply (H2 0 1). reflexivity.
  - apply (Hslot 0 2 2); [reflexivity|].
    apply (bool_decide_unpack (2 ∉ wrap_keys [record_foo].*2)).
    vm_compute. exact I.
  - apply (H1 0 3). reflexivity.
  - apply (H3 "foo"). reflexivity.
  - apply (H4 "__real_foo"). reflexivity.
  - apply (Htab "__wrap_foo" 2); [reflexivity|].
    apply (bool_decide_unpack (2 ∉ wrap_keys [record_foo].*2)).
    vm_compute. exact I.
Defined.

(** C4 as stated fails: with [--wrap=foo --wrap=__real_foo] the second
    request wraps the real shadow of the first, and the later record
    overwrites the entry of [__real_foo] in the map of the rename pass.  The
    slot of the object file that referred to [__real_foo] before the pass
    refers to [__wrap___real_foo] afterwards, not to the original [foo]. *)
Lemma wrap_of_real_shadow_redirects_real_site :
  let r := addWrappedSymbols args_wrap_foo_real state_foo_real in
  let t := symtab r.2 in
  let t' := symtab (exec (wrapSymbols r.1) r.2) in
  r.1 = [{| w_sym := 0; w_real := 1; w_wrap := 2 |};
         {| w_sym := 1; w_real := 3; w_wrap := 4 |}] ∧
  symMap t !! "foo" = Some 0 ∧ symMap t !! "__real_foo" = Some 1 ∧
  symMap t !! "__wrap_foo" = Some 2 ∧
  symMap t !! "__wrap___real_foo" = Some 4 ∧
  slot t 0 0 = Some 0 ∧ slot t 0 1 = Some 1 ∧
  slot t' 0 0 = Some 2 ∧ slot t' 0 1 = Some 4 ∧
  ¬ (∀ k i, slot t k i = Some 1 → slot t' k i = Some 0).
Proof.
  cbn zeta.
  assert (H : slot (symtab (exec (wrapSymbols
                (addWrappedSymbols args_wrap_foo_real state_foo_real).1)
                (addWrappedSymbols args_wrap_foo_real state_foo_real).2)) 0 1
              = Some 4) by (vm_compute; reflexivity).
  split_and!; try (vm_compute; reflexivity).
  intros Hall. specialize (Hall 0 1 ltac:(vm_compute; reflexivity)).
  rewrite H in Hall. discriminate Hall.
Qed.

(** C6. One iteration of [addWrappedSymbols], for a name [n] that has a
    symbol [sym] in a well-named table: the two shadow symbols are entered
    under [__real_n] and [__wrap_n] (as undefined functions where the names
    were new), and afterwards [canInline] is false on [sym] and on the real
    shadow, [isUsedInRegularObj] is true on [sym] and on the wrap shadow and
    false on the real shadow. *)
Theorem wrapped_symbol_flags (st : LinkState) (n : string) (sym : nat) :
  symtab_named (symtab st) →
  symMap (symtab st) !! n = Some sym →
  let st' := exec (addWrappedSymbol n) st in
  ∃ real wrap s r w,
    eval (addWrappedSymbol n) st =
      Some {| w_sym := sym; w_real := real; w_wrap := wrap |} ∧
    symMap (symtab st') !! n = Some sym ∧
    symMap (symtab st') !! ("__real_" +:+ n) = Some real ∧
    symMap (symtab st') !! ("__wrap_" +:+ n) = Some wrap ∧
    symVector (symtab st') !! sym = Some s ∧
    symVector (symtab st') !! real = Some r ∧
    symVector (symtab st') !! wrap = Some w ∧
    canInline s = false ∧ canInline r = false ∧
    isUsedInRegularObj s = true ∧ isUsedInRegularObj w = true ∧
    isUsedInRegularObj r = false ∧
    (symMap (symtab st) !! ("__real_" +:+ n) = None →
     body r = UndefinedFunction None ∧ flags r = WASM_SYMBOL_UNDEFINED) ∧
    (symMap (symtab st) !! ("__wrap_" +:+ n) = None →
     body w = UndefinedFunction None ∧ flags w = WASM_SYMBOL_UNDEFINED) ∧
    symtab_named (symtab st').
Proof.
  intros Hnamed Hsym. cbn zeta.
  destruct (run_addWrappedSymbol_present n st sym Hsym)
    as (real & wrap & st2 & i1 & i2 & E1 & E2 & Hrun).
  set (st1 := exec (addUndefined ("__real_" +:+ n)) st) in *. clearbody st1.
  unfold eval, exec. rewrite Hrun. cbn [fst snd]. clear Hrun.
  destruct (insertName_spec _ _ _ _ _ _ _ E1 Hnamed)
    as (Hn1 & Hr1 & Hk1 & Ho1 & Hnew1 & _).
  destruct (insertName_spec _ _ _ _ _ _ _ E2 Hn1)
    as (Hn2 & Hw2 & Hk2 & Ho2 & Hnew2 & _).
  assert (Hs2 : symMap (symtab st2) !! n = Some sym).
  { rewrite Hk2, Hk1; [done| |]; apply not_eq_sym;
      [apply real_name_ne | apply wrap_name_ne]. }
  assert (Hr2 : symMap (symtab st2) !! ("__real_" +:+ n) = Some real).
  { rewrite Hk2; [done|]. apply real_name_ne_wrap. }
  assert (Hsr : sym ≠ real).
  { intros ->. eapply real_name_ne, symtab_named_inj; eauto. }
  assert (Hsw : sym ≠ wrap).
  { intros ->. eapply wrap_name_ne, symtab_named_inj; eauto. }
  assert (Hrw : real ≠ wrap).
  { intros ->. eapply real_name_ne_wrap, symtab_named_inj; eauto. }
  destruct (Hn2 _ _ Hs2) as (s0 & Hs0 & Hs0n).
  destruct (Hn2 _ _ Hr2) as (r0 & Hr0 & Hr0n).
  destruct (Hn2 _ _ Hw2) as (w0 & Hw0 & Hw0n).
  exists real, wrap,
    (set_isUsedInRegularObj true (set_canInline false s0)),
    (set_isUsedInRegularObj false (set_canInline false r0)),
    (set_isUsedInRegularObj true w0).
  st_simpl. rewrite !symMap_alterSym.
  split_and!; try done.
  - rewrite symVector_alterSym_ne, symVector_alterSym_ne, symVector_alterSym_eq,
      symVector_alterSym_eq, symVector_alterSym_ne, Hs0 by done. reflexivity.
  - rewrite symVector_alterSym_eq, symVector_alterSym_ne, symVector_alterSym_ne,
      symVector_alterSym_ne, symVector_alterSym_eq, Hr0 by done. reflexivity.
  - rewrite symVector_alterSym_ne, symVector_alterSym_eq, symVector_alterSym_ne,
      symVector_alterSym_ne, symVector_alterSym_ne, Hw0 by done. reflexivity.
  - intros Hnone. specialize (Hnew1 Hnone). apply Ho2 in Hnew1.
    rewrite Hr0 in Hnew1. by injection Hnew1 as ->.
  - intros Hnone. rewrite <- Hk1 in Hnone by apply not_eq_sym, real_name_ne_wrap.
    specialize (Hnew2 Hnone). rewrite Hw0 in Hnew2. by injection Hnew2 as ->.
  - repeat apply symtab_named_alterSym; done.
Qed.

(** [foo] in the table meets the hypotheses of C6. *)
Lemma wrapped_symbol_flags_witness :
  symtab_named (symtab state_with_foo) ∧
  symMap (symtab state_with_foo) !! "foo" = Some 0 ∧
  ∃ real wrap s r w,
    eval (addWrappedSymbol "foo") state_with_foo =
      Some {| w_sym := 0; w_real := real; w_wrap := wrap |} ∧
    symVector (symtab (exec (addWrappedSymbol "foo") state_with_foo)) !! 0 = Some s ∧
    symVector (symtab (exec (addWrappedSymbol "foo") state_with_foo)) !! real = Some r ∧
    symVector (symtab (exec (addWrappedSymbol "foo") state_with_foo)) !! wrap = Some w ∧
    canInline s = false ∧ canInline r = false ∧
    isUsedInRegularObj s = true ∧ isUsedInRegularObj w = true ∧
    isUsedInRegularObj r = false.
Proof.
  assert (Hn : symtab_named (symtab state_with_foo)).
  { apply symtab_named_pushSymbol; [reflexivity | apply symtab_named_empty]. }
  split; [exact Hn|]. split; [reflexivity|].
  destruct (wrapped_symbol_flags state_with_foo "foo" 0 Hn eq_refl)
    as (real & wrap & s & r & w & H1 & _ & _ & _ & H2 & H3 & H4 & H5 & H6 & H7 & H8 & H9 & _).
  exists real, wrap, s, r, w. by split_and!.
Defined.

Lemma addWrappedSymbols_loop_seen n rest seen v st :
  n ∈ seen →
  addWrappedSymbols_loop (n :: rest) seen v st =
  addWrappedSymbols_loop rest seen v st.
Proof. intros H. cbn [addWrappedSymbols_loop]. by rewrite decide_True. Qed.

Lemma addWrappedSymbols_loop_duplicate n names1 names2 :
  ∀ seen v st,
    n ∈ seen ∨ n ∈ names1 →
    addWrappedSymbols_loop (names1 ++ n :: names2) seen v st =
    addWrappedSymbols_loop (names1 ++ names2) seen v st.
Proof.
  induction names1 as [|a names1 IH]; intros seen v st Hn.
  - destruct Hn as [Hn|Hn]; [|by apply elem_of_nil in Hn].
    by apply addWrappedSymbols_loop_seen.
  - cbn [app addWrappedSymbols_loop]. destruct (decide (a ∈ seen)) as [Ha|Ha].
    + apply IH. destruct Hn as [Hn|Hn]; [by left|].
      apply elem_of_cons in Hn as [->|Hn]; [by left | by right].
    + rewrite !run_bind. apply IH.
      destruct Hn as [Hn|Hn]; [left; set_solver|].
      apply elem_of_cons in Hn as [->|Hn]; [left; set_solver | by right].
Qed.

(** C5. A --wrap request for a name that was requested before is skipped:
    with the later occurrence or without it, [addWrappedSymbols] returns the
    same records and leaves the same state, so no further shadow symbol and
    no further record is made; in particular wrapping a name twice is
    wrapping it once. *)
Theorem wrap_duplicates_collapse (args args' : InputArgList) (n : string)
    (names1 names2 : list string) (st : LinkState) :
  OPT_wrap args = names1 ++ n :: names2 →
  OPT_wrap args' = names1 ++ names2 →
  n ∈ names1 →
  addWrappedSymbols args st = addWrappedSymbols args' st.
Proof.
  intros H1 H2 Hn. unfold addWrappedSymbols. rewrite H1, H2.
  apply addWrappedSymbols_loop_duplicate. by right.
Qed.

(** [--wrap=foo --wrap=foo] against [--wrap=foo]. *)
Lemma wrap_duplicates_collapse_witness :
  OPT_wrap args_wrap_foo_twice = ["foo"] ++ "foo" :: [] ∧
  OPT_wrap args_wrap_foo = ["foo"] ++ [] ∧
  "foo" ∈ ["foo"] ∧
  addWrappedSymbols args_wrap_foo_twice state_with_foo =
  addWrappedSymbols args_wrap_foo state_with_foo.
Proof.
  assert (Hin : "foo" ∈ ["foo"]) by (apply elem_of_cons; left; reflexivity).
  split; [reflexivity|]. split; [reflexivity|]. split; [exact Hin|].
  apply (wrap_duplicates_collapse args_wrap_foo_twice args_wrap_foo "foo"
           ["foo"] [] state_with_foo eq_refl eq_refl Hin).
Defined.




(** C9. When relocatable output is combined with a non-empty entry symbol
    or with garbage collection, [checkOptions] records a configuration
    error, and the driver, which tests the error count after the check,
    stops there: no synthetic symbol creation, no wrap transformation and no
    reachability analysis runs. *)
Theorem relocatable_conflict_stops_link (ext : Externals) (args : InputArgList)
    (st0 : LinkState) :
  let c := config (exec (readConfigs ext args) st0) in
  relocatable c = true →
  entry c ≠ "" ∨ gcSections c = true →
  (∀ st, relocatable (config st) = true →
         entry (config st) = entry c → gcSections (config st) = gcSections c →
         ∃ l, errors (exec (checkOptions ext args) st) = errors st ++ l ∧
              (entry c ≠ "" →
               In "entry point specified for relocatable output file" l) ∧
              (gcSections c = true →
               In "-r and --gc-sections may not be used together" l)) ∧
  let tr := (linkerMain ext args st0).1 in
  let fin := (linkerMain ext args st0).2 in
  (PhCreateSyntheticSymbols ∉ tr) ∧ (PhCreateOptionalSymbols ∉ tr) ∧
  (PhAddWrappedSymbols ∉ tr) ∧ (PhWrapSymbols ∉ tr) ∧ (PhMarkLive ∉ tr) ∧
  (PhResolveIndirectFunctionTable ∉ tr) ∧ (PhWriteResult ∉ tr) ∧
  (PhCheckOptions ∈ tr → last tr = Some PhCheckOptions ∧ errorCount fin ≠ 0).
Proof.
  cbn zeta. destruct (readConfigs_fields ext args st0) as (-> & -> & ->).
  intros Hr Hc. split.
  - intros st Hr' He Hg.
    destruct (checkOptions_emits ext args st Hr') as (l & Hl & H1 & H2).
    exists l. split; [exact Hl|]. rewrite He, Hg in *. by split.
  - set (msg := if bool_decide (getEntry args = "")
                then "-r and --gc-sections may not be used together"
                else "entry point specified for relocatable output file").
    destruct (linkerMain_stops_at_checkOptions ext args st0 msg) as (st' & Hrun).
    { intros st l H1 H2 H3 Hl.
      assert (Hr' : relocatable (config st) = true) by congruence.
      destruct (checkOptions_emits ext args st Hr') as (l' & Hl' & HE & HG).
      unfold emits in Hl, Hl'. rewrite Hl in Hl'. apply app_inv_head in Hl'.
      subst l'. unfold msg. case_bool_decide as Hent.
      - apply HG. rewrite H3. destruct Hc as [Hc|Hc]; [done|exact Hc].
      - apply HE. by rewrite H2. }
    assert (Hnil : ∀ ph : Phase, ph ∉ @nil Phase) by (intros ph; apply not_elem_of_nil).
    destruct Hrun as [-> | [-> | [-> Hin]]]; cbn [fst snd].
    all: split_and!.
    all: try (intros Hx; repeat (apply elem_of_cons in Hx as [Hx|Hx]; [done|]);
              by apply elem_of_nil in Hx).
    intros _. split; [reflexivity|].
    unfold errorCount. destruct (errors st'); [done|]. cbn. lia.
Qed.

(** A command line [-r --entry=main] meets the hypotheses of C9. *)
Lemma relocatable_conflict_stops_link_witness :
  let c := config (exec (readConfigs quietExternals args_relocatable_entry)
                     initialState) in
  relocatable c = true ∧ entry c = "main" ∧
  (PhCreateSyntheticSymbols ∉
    (linkerMain quietExternals args_relocatable_entry initialState).1).
Proof.
  cbn zeta. split; [reflexivity|]. split; [reflexivity|].
  apply (relocatable_conflict_stops_link quietExternals args_relocatable_entry
           initialState); [reflexivity | left; discriminate].
Defined.

(** C10 (amended). After [setConfigs]: [isPic] holds exactly when [pie] or
    [shared] is set; when it holds, [importTable] is true, and [exportTable]
    together with it is an error; in shared mode [importMemory] is true and the
    policy for unresolved symbols is import-functions.  With [importTable]
    forced, the resolver of the indirect function table, on any state with
    that configuration, leaves by the import branch unless it leaves by an
    error, which it does exactly when the reserved name is held by a symbol
    that is not a table or that is defined: it neither defines a table nor
    goes without one. *)
Theorem setConfigs_forces_import_for_pic (st : LinkState) :
  let c := config st in
  let st' := exec setConfigs st in
  let c' := config st' in
  (isPic c' = true ↔ pie c = true ∨ shared c = true) ∧
  (isPic c' = true → importTable c' = true) ∧
  errors st' =
    errors st ++
    (if isPic c' && exportTable c
     then ["-shared/-pie is incompatible with --export-table"] else []) ∧
  (shared c = true →
   importMemory c' = true ∧ unresolvedSymbols c' = ImportFuncs) ∧
  (isPic c' = true →
   ∀ st2, importTable (config st2) = importTable c' →
          resolveIndirectFunctionTable st2 = runBranch (resolverBranch st2) st2 ∧
          (isImportBranch (resolverBranch st2) = true ∨
           isErrorBranch (resolverBranch st2) = true) ∧
          isErrorBranch (resolverBranch st2) =
            from_option (λ s, negb (isTableSymbol s) || isDefined s) false
              (existingSym st2)).
Proof.
  cbn zeta. rewrite setConfigs_errors, setConfigs_config. cbn zeta.
  destruct (pie (config st)) eqn:Hp, (shared (config st)) eqn:Hs; cbn;
    rewrite ?Hp, ?Hs; cbn; rewrite ?Hs.
  all: split_and!; try done; try (by auto); try (by intros [?|?]).
  all: try (split; [by auto | by intros [?|?]]).
  all: intros _ st2 Hi; split; [apply resolve_by_branch|];
    unfold resolverBranch; rewrite Hi.
  all: match goal with
       | |- context [_ = from_option _ false ?e] =>
           change e with (existingSym st2)
       end.
  all: destruct (existingSym st2) as [s|]; cbn [from_option].
  all: try (destruct (isTableSymbol s), (isDefined s); cbn [negb orb]).
  all: split; [|by destruct (existingTable st2)].
  all: first [by right | left; by destruct (existingTable st2)].
Qed.

(** [-pie] meets the premises inside C10: the derived configuration is
    position independent and imports the table. *)
Lemma setConfigs_forces_import_for_pic_witness :
  isPic (config (configuredState args_pie)) = true ∧
  importTable (config (configuredState args_pie)) = true.
Proof.
  assert (Hp : isPic (config (configuredState args_pie)) = true) by reflexivity.
  split; [exact Hp|].
  destruct (setConfigs_forces_import_for_pic
              (exec (readConfigs quietExternals args_pie) initialState))
    as (_ & H & _).
  exact (H Hp).
Defined.

(** C10 as stated fails: with [-pie] and the reserved name held by a table
    that an input file defines, the configuration is position independent
    and imports the table, yet the resolver does not take the import
    branch: it records an error and returns null. *)
Lemma pie_over_defined_table_leaves_by_error :
  isPic (config state_pie_over_defined_table) = true ∧
  importTable (config state_pie_over_defined_table) = true ∧
  resolverBranch state_pie_over_defined_table = BrErrorDefined ∧
  isImportBranch (resolverBranch state_pie_over_defined_table) = false ∧
  eval resolveIndirectFunctionTable state_pie_over_defined_table = None ∧
  errors (exec resolveIndirectFunctionTable state_pie_over_defined_table)
  = ["reserved symbol must not be defined in input files: `__indirect_function_table`"].
Proof. split_and!; reflexivity. Qed.

(** C8. When the reserved name of the indirect function table is held by a
    symbol that is not a table, or that is defined while the table is to be
    imported, the resolver records one error and returns null: the table,
    the configuration and the synthetic-symbol pointers are as before, so
    no table symbol is made. *)
Theorem resolver_rejects_reserved_name_misuse (st : LinkState) (p : nat)
    (s : Symbol) :
  symMap (symtab st) !! functionTableName = Some p →
  symVector (symtab st) !! p = Some s →
  isTableSymbol s = false ∨ (isDefined s = true ∧ importTable (config st) = true) →
  eval resolveIndirectFunctionTable st = None ∧
  ∃ msg, exec resolveIndirectFunctionTable st = with_errors (errors st ++ [msg]) st.
Proof.
  intros Hp Hs Hbad. unfold eval, exec. rewrite resolve_by_branch.
  unfold resolverBranch, existingSym, existingTable. rewrite Hp. cbn. rewrite Hs. cbn.
  destruct (isTableSymbol s) eqn:Ht; cbn.
  - destruct Hbad as [?|[-> _]]; [done|]. split; [done|]. by eexists.
  - split; [done|]. by eexists.
Qed.

(** The reserved name held by a defined function, with [--import-table]. *)
Lemma resolver_rejects_reserved_name_misuse_witness :
  eval resolveIndirectFunctionTable state_import_over_function = None ∧
  ∃ msg, exec resolveIndirectFunctionTable state_import_over_function =
         with_errors (errors state_import_over_function ++ [msg])
           state_import_over_function.
Proof.
  apply (resolver_rejects_reserved_name_misuse state_import_over_function 0
           (newSymbol functionTableName (DefinedFunction None) 0));
    [reflexivity | reflexivity | left; reflexivity].
Defined.

(** * Further properties of the driver *)

(** ** Reading the options *)

Lemma run_getUnresolvedSymbolPolicy args st :
  getUnresolvedSymbolPolicy args st =
    let errorOrWarn :=
      if hasFlag (OPT_error_unresolved_symbols args) true then ReportError else Warn in
    let legacy := if OPT_allow_undefined args then ImportFuncs else errorOrWarn in
    match OPT_unresolved_symbols args with
    | Some s =>
        if bool_decide (s = "ignore-all") then (Ignore, st)
        else if bool_decide (s = "import-functions") then (ImportFuncs, st)
        else if bool_decide (s = "report-all") then (errorOrWarn, st)
        else (legacy,
              with_errors (errors st ++ ["unknown --unresolved-symbols value: " +:+ s]) st)
    | None => (legacy, st)
    end.
Proof.
  unfold getUnresolvedSymbolPolicy. cbn zeta.
  destruct (OPT_unresolved_symbols args) as [s|];
    repeat case_bool_decide; destruct (OPT_allow_undefined args); reflexivity.
Qed.

Lemma policyNames_elem s :
  s ∈ policyNames ↔ s = "ignore-all" ∨ s = "import-functions" ∨ s = "report-all".
Proof.
  unfold policyNames. rewrite !elem_of_cons, elem_of_nil. naive_solver.
Qed.

(** What reading the policy does to the state: at most one more error. *)
Lemma policy_state args st :
  let st1 := exec (getUnresolvedSymbolPolicy args) st in
  errors st1 =
    errors st ++
    match OPT_unresolved_symbols args with
    | Some s => if bool_decide (s ∈ policyNames) then []
                else ["unknown --unresolved-symbols value: " +:+ s]
    | None => []
    end ∧
  symtab st1 = symtab st ∧ wasmSym st1 = wasmSym st ∧ files st1 = files st ∧
  warnings st1 = warnings st ∧ config st1 = config st.
Proof.
  cbn zeta. unfold exec. rewrite run_getUnresolvedSymbolPolicy. cbn zeta.
  destruct (OPT_unresolved_symbols args) as [s|]; [|by rewrite app_nil_r].
  destruct (decide (s ∈ policyNames)) as [H|H];
    [rewrite (bool_decide_eq_true_2 _ H) | rewrite (bool_decide_eq_false_2 _ H)];
    rewrite policyNames_elem in H;
    repeat case_bool_decide; subst; cbn; rewrite ?app_nil_r; try done;
    exfalso; naive_solver.
Qed.

Lemma exec_modifyConfig f st : exec (modifyConfig f) st = with_config (f (config st)) st.
Proof. reflexivity. Qed.

Lemma exec_error msg st : exec (error msg) st = with_errors (errors st ++ [msg]) st.
Proof. reflexivity. Qed.

Lemma exec_warn msg st : exec (warn msg) st = with_warnings (warnings st ++ [msg]) st.
Proof. reflexivity. Qed.

Lemma exec_ret {A} (x : A) st : exec (mret x : Link A) st = st.
Proof. reflexivity. Qed.


(** [readConfigs], stage by stage. *)
Lemma exec_readConfigs ext args st :
  exec (readConfigs ext args) st =
    let st1 := exec (getUnresolvedSymbolPolicy args) st in
    let policy := eval (getUnresolvedSymbolPolicy args) st in
    let c := config st1 in
    let st2 :=
      with_config
        {| bsymbolic := OPT_Bsymbolic args;
           compressRelocations := OPT_compress_relocations args;
           experimentalPic := OPT_experimental_pic args;
           entry := getEntry args;
           exportTable := OPT_export_table args;
           gcSections := hasFlag (OPT_gc_sections args) (negb (OPT_relocatable args));
           importMemory := OPT_import_memory args;
           sharedMemory := OPT_shared_memory args;
           importTable := OPT_import_table args;
           is64 := is64 c;
           isPic := isPic c;
           ltoo := to_unsigned (getInteger (OPT_lto_O args) 2);
           ltoPartitions := to_unsigned (getInteger (OPT_lto_partitions args) 1);
           mergeDataSegments :=
             hasFlag (OPT_merge_data_segments args) (negb (OPT_relocatable args));
           outputFile := OPT_o args;
           mapFile := OPT_Map args;
           pie := hasFlag (OPT_pie args) false;
           relocatable := OPT_relocatable args;
           shared := OPT_shared args;
           stripAll := OPT_strip_all args;
           stripDebug := OPT_strip_debug args;
           thinLTOJobs := thinLTOJobs c;
           unresolvedSymbols := policy;
           allowUndefinedSymbols := allowUndefinedSymbols c;
           exportedSymbols := exportedSymbols c |} st1 in
    let st3 :=
      match OPT_m args with
      | Some s =>
          if bool_decide (s = "wasm32")
          then with_config (set_is64 (Some false) (config st2)) st2
          else if bool_decide (s = "wasm64")
          then with_config (set_is64 (Some true) (config st2)) st2
          else with_errors (errors st2 ++ ["invalid target architecture: " +:+ s]) st2
      | None => st2
      end in
    let st4 :=
      match OPT_threads args with
      | Some v =>
          let st' :=
            if match to_integer ext v with
               | None => true
               | Some threads => (threads =? 0)%Z
               end
            then with_errors
                   (errors st3 ++
                    ["--threads: expected a positive integer, but got '" +:+ v +:+ "'"])
                   st3
            else st3 in
          with_config (set_thinLTOJobs v (config st')) st'
      | None => st3
      end in
    let st5 :=
      match OPT_thinlto_jobs args with
      | Some v => with_config (set_thinLTOJobs v (config st4)) st4
      | None => st4
      end in
    if OPT_print_map args then with_config (set_mapFile "-" (config st5)) st5 else st5.
Proof.
  unfold readConfigs. cbn zeta. rewrite !exec_bind.
  destruct (OPT_m args) as [s|]; [repeat case_bool_decide|];
    (destruct (OPT_threads args) as [v|];
     [destruct (to_integer ext v) as [t|]; [destruct (t =? 0)%Z|]|]);
    destruct (OPT_thinlto_jobs args); destruct (OPT_print_map args); reflexivity.
Qed.

(** [readConfigs] with its stages named. *)
Lemma readConfigs_staged ext args st (P : LinkState → Prop) :
  (∀ st1 policy st2 st3 st4 st5,
     st1 = exec (getUnresolvedSymbolPolicy args) st →
     policy = eval (getUnresolvedSymbolPolicy args) st →
     st2 = with_config
        {| bsymbolic := OPT_Bsymbolic args;
           compressRelocations := OPT_compress_relocations args;
           experimentalPic := OPT_experimental_pic args;
           entry := getEntry args;
           exportTable := OPT_export_table args;
           gcSections := hasFlag (OPT_gc_sections args) (negb (OPT_relocatable args));
           importMemory := OPT_import_memory args;
           sharedMemory := OPT_shared_memory args;
           importTable := OPT_import_table args;
           is64 := is64 (config st1);
           isPic := isPic (config st1);
           ltoo := to_unsigned (getInteger (OPT_lto_O args) 2);
           ltoPartitions := to_unsigned (getInteger (OPT_lto_partitions args) 1);
           mergeDataSegments :=
             hasFlag (OPT_merge_data_segments args) (negb (OPT_relocatable args));
           outputFile := OPT_o args;
           mapFile := OPT_Map args;
           pie := hasFlag (OPT_pie args) false;
           relocatable := OPT_relocatable args;
           shared := OPT_shared args;
           stripAll := OPT_strip_all args;
           stripDebug := OPT_strip_debug args;
           thinLTOJobs := thinLTOJobs (config st1);
           unresolvedSymbols := policy;
           allowUndefinedSymbols := allowUndefinedSymbols (config st1);
           exportedSymbols := exportedSymbols (config st1) |} st1 →
     st3 =
       match OPT_m args with
       | Some s =>
           if bool_decide (s = "wasm32")
           then with_config (set_is64 (Some false) (config st2)) st2
           else if bool_decide (s = "wasm64")
           then with_config (set_is64 (Some true) (config st2)) st2
           else with_errors (errors st2 ++ ["invalid target architecture: " +:+ s]) st2
       | None => st2
       end →
     st4 =
       match OPT_threads args with
       | Some v =>
           let st' :=
             if match to_integer ext v with
                | None => true
                | Some threads => (threads =? 0)%Z
                end
             then with_errors
                    (errors st3 ++
                     ["--threads: expected a positive integer, but got '" +:+ v +:+ "'"])
                    st3
             else st3 in
           with_config (set_thinLTOJobs v (config st')) st'
       | None => st3
       end →
     st5 =
       match OPT_thinlto_jobs args with
       | Some v => with_config (set_thinLTOJobs v (config st4)) st4
       | None => st4
       end →
     P (if OPT_print_map args then with_config (set_mapFile "-" (config st5)) st5
        else st5)) →
  P (exec (readConfigs ext args) st).
Proof.
  intros H. rewrite exec_readConfigs.
  exact (H _ _ _ _ _ _ eq_refl eq_refl eq_refl eq_refl eq_refl eq_refl).
Qed.

Lemma with_errors_nil st : with_errors (errors st ++ []) st = st.
Proof. destruct st. unfold with_errors. cbn. by rewrite app_nil_r. Qed.

Lemma exec_policy args st :
  exec (getUnresolvedSymbolPolicy args) st =
    with_errors
      (errors st ++
       match OPT_unresolved_symbols args with
       | Some s => if bool_decide (s ∈ policyNames) then []
                   else ["unknown --unresolved-symbols value: " +:+ s]
       | None => []
       end) st.
Proof.
  unfold exec. rewrite run_getUnresolvedSymbolPolicy. cbn zeta.
  destruct (OPT_unresolved_symbols args) as [s|]; [|by rewrite with_errors_nil].
  destruct (decide (s ∈ policyNames)) as [H|H];
    [rewrite (bool_decide_eq_true_2 _ H) | rewrite (bool_decide_eq_false_2 _ H)];
    rewrite policyNames_elem in H;
    repeat case_bool_decide; subst; cbn [snd]; rewrite ?with_errors_nil; try done;
    exfalso; naive_solver.
Qed.

(** The state that [readConfigs] leaves. *)
Lemma readConfigs_state ext args st :
  exec (readConfigs ext args) st =
    with_errors
      (errors st ++
       match OPT_unresolved_symbols args with
       | Some s => if bool_decide (s ∈ policyNames) then []
                   else ["unknown --unresolved-symbols value: " +:+ s]
       | None => []
       end ++
       match OPT_m args with
       | Some s => if bool_decide (s = "wasm32") || bool_decide (s = "wasm64") then []
                   else ["invalid target architecture: " +:+ s]
       | None => []
       end ++
       match OPT_threads args with
       | Some v =>
           match to_integer ext v with
           | Some threads =>
               if (threads =? 0)%Z
               then ["--threads: expected a positive integer, but got '" +:+ v +:+ "'"]
               else []
           | None => ["--threads: expected a positive integer, but got '" +:+ v +:+ "'"]
           end
       | None => []
       end)
      (with_config
         {| bsymbolic := OPT_Bsymbolic args;
            compressRelocations := OPT_compress_relocations args;
            experimentalPic := OPT_experimental_pic args;
            entry := getEntry args;
            exportTable := OPT_export_table args;
            gcSections := hasFlag (OPT_gc_sections args) (negb (OPT_relocatable args));
            importMemory := OPT_import_memory args;
            sharedMemory := OPT_shared_memory args;
            importTable := OPT_import_table args;
            is64 :=
              match OPT_m args with
              | Some s =>
                  if bool_decide (s = "wasm32") then Some false
                  else if bool_decide (s = "wasm64") then Some true
                  else is64 (config st)
              | None => is64 (config st)
              end;
            isPic := isPic (config st);
            ltoo := to_unsigned (getInteger (OPT_lto_O args) 2);
            ltoPartitions := to_unsigned (getInteger (OPT_lto_partitions args) 1);
            mergeDataSegments :=
              hasFlag (OPT_merge_data_segments args) (negb (OPT_relocatable args));
            outputFile := OPT_o args;
            mapFile := if OPT_print_map args then "-" else OPT_Map args;
            pie := hasFlag (OPT_pie args) false;
            relocatable := OPT_relocatable args;
            shared := OPT_shared args;
            stripAll := OPT_strip_all args;
            stripDebug := OPT_strip_debug args;
            thinLTOJobs :=
              match OPT_thinlto_jobs args, OPT_threads args with
              | Some v, _ => v
              | None, Some v => v
              | None, None => thinLTOJobs (config st)
              end;
            unresolvedSymbols := eval (getUnresolvedSymbolPolicy args) st;
            allowUndefinedSymbols := allowUndefinedSymbols (config st);
            exportedSymbols := exportedSymbols (config st) |} st).
Proof.
  apply readConfigs_staged. intros st1 policy st2 st3 st4 st5 H1 <- H2 H3 H4 H5.
  rewrite exec_policy in H1.
  set (e1 := match OPT_unresolved_symbols args with Some _ => _ | None => _ end) in *.
  set (p := eval (getUnresolvedSymbolPolicy args) st) in *. clearbody e1 p.
  subst st1. cbn [config with_errors] in H2.
  set (c2 := Build_Configuration _ _ _ _ _ _ _ _ _ _ _ _ _ _ _ _ _ _ _ _ _ _ _ _ _) in H2.
  assert (E2 : st2 = with_errors (errors st ++ e1) (with_config c2 st))
    by (subst st2; reflexivity).
  clear H2.
  assert (E3 : st3 = with_errors
                 (errors st ++ e1 ++
                  match OPT_m args with
                  | Some s =>
                      if bool_decide (s = "wasm32") || bool_decide (s = "wasm64") then []
                      else ["invalid target architecture: " +:+ s]
                  | None => []
                  end)
                 (with_config
                    (match OPT_m args with
                     | Some s =>
                         if bool_decide (s = "wasm32") then set_is64 (Some false) c2
                         else if bool_decide (s = "wasm64") then set_is64 (Some true) c2
                         else c2
                     | None => c2
                     end) st)).
  { subst st3 st2. clearbody c2.
    destruct (OPT_m args) as [a|];
      [destruct (bool_decide (a = "wasm32")), (bool_decide (a = "wasm64"))|];
      cbn [orb]; rewrite ?app_nil_r; try reflexivity.
    unfold with_errors, with_config. cbn. by rewrite app_assoc. }
  clear H3 E2.
  set (e2 := match OPT_m args with Some _ => _ | None => [] end) in E3.
  set (c3 := match OPT_m args with Some _ => _ | None => c2 end) in E3.
  assert (E4 : st4 = with_errors
                 (errors st ++ e1 ++ e2 ++
                  match OPT_threads args with
                  | Some v =>
                      match to_integer ext v with
                      | Some threads =>
                          if (threads =? 0)%Z
                          then ["--threads: expected a positive integer, but got '" +:+ v +:+ "'"]
                          else []
                      | None => ["--threads: expected a positive integer, but got '" +:+ v +:+ "'"]
                      end
                  | None => []
                  end)
                 (with_config
                    (match OPT_threads args with
                     | Some v => set_thinLTOJobs v c3
                     | None => c3
                     end) st)).
  { subst st4 st3. clearbody c3 e2 c2.
    destruct (OPT_threads args) as [v|];
      [destruct (to_integer ext v) as [t|]; [destruct (t =? 0)%Z|]|];
      cbn zeta; rewrite ?app_nil_r; try reflexivity;
      unfold with_errors, with_config; cbn; by rewrite <- !app_assoc. }
  clear H4 E3.
  set (e3 := match OPT_threads args with Some _ => _ | None => [] end) in E4.
  set (c4 := match OPT_threads args with Some _ => _ | None => c3 end) in E4.
  assert (E5 : st5 = with_errors (errors st ++ e1 ++ e2 ++ e3)
                 (with_config
                    (match OPT_thinlto_jobs args with
                     | Some v => set_thinLTOJobs v c4
                     | None => c4
                     end) st)).
  { subst st5 st4. clearbody c4 e3 e2 c3 c2. by destruct (OPT_thinlto_jobs args). }
  clear H5 E4. subst st5.
  transitivity (with_errors (errors st ++ e1 ++ e2 ++ e3)
                  (with_config
                     (if OPT_print_map args
                      then set_mapFile "-"
                             match OPT_thinlto_jobs args with
                             | Some v => set_thinLTOJobs v c4
                             | None => c4
                             end
                      else match OPT_thinlto_jobs args with
                           | Some v => set_thinLTOJobs v c4
                           | None => c4
                           end) st)).
  { clearbody c4 e3 e2 c3 c2. by destruct (OPT_print_map args). }
  f_equal. f_equal. unfold c4, c3, c2. clear.
  destruct (OPT_print_map args), (OPT_thinlto_jobs args), (OPT_threads args);
    (destruct (OPT_m args) as [a|];
     [destruct (bool_decide (a = "wasm32")), (bool_decide (a = "wasm64"))|]);
    reflexivity.
Qed.

Lemma readConfigs_config ext args st :
  config (exec (readConfigs ext args) st) =
    {| bsymbolic := OPT_Bsymbolic args;
       compressRelocations := OPT_compress_relocations args;
       experimentalPic := OPT_experimental_pic args;
       entry := getEntry args;
       exportTable := OPT_export_table args;
       gcSections := hasFlag (OPT_gc_sections args) (negb (OPT_relocatable args));
       importMemory := OPT_import_memory args;
       sharedMemory := OPT_shared_memory args;
       importTable := OPT_import_table args;
       is64 :=
         match OPT_m args with
         | Some s =>
             if bool_decide (s = "wasm32") then Some false
             else if bool_decide (s = "wasm64") then Some true
             else is64 (config st)
         | None => is64 (config st)
         end;
       isPic := isPic (config st);
       ltoo := to_unsigned (getInteger (OPT_lto_O args) 2);
       ltoPartitions := to_unsigned (getInteger (OPT_lto_partitions args) 1);
       mergeDataSegments :=
         hasFlag (OPT_merge_data_segments args) (negb (OPT_relocatable args));
       outputFile := OPT_o args;
       mapFile := if OPT_print_map args then "-" else OPT_Map args;
       pie := hasFlag (OPT_pie args) false;
       relocatable := OPT_relocatable args;
       shared := OPT_shared args;
       stripAll := OPT_strip_all args;
       stripDebug := OPT_strip_debug args;
       thinLTOJobs :=
         match OPT_thinlto_jobs args, OPT_threads args with
         | Some v, _ => v
         | None, Some v => v
         | None, None => thinLTOJobs (config st)
         end;
       unresolvedSymbols := eval (getUnresolvedSymbolPolicy args) st;
       allowUndefinedSymbols := allowUndefinedSymbols (config st);
       exportedSymbols := exportedSymbols (config st) |}.
Proof. by rewrite readConfigs_state. Qed.

(** ** Programs that only report *)

Lemma reporting_state st es ws :
  with_warnings (warnings st ++ ws) (with_errors (errors st ++ es) st) =
    {| config := config st; symtab := symtab st; wasmSym := wasmSym st;
       files := files st; errors := errors st ++ es; warnings := warnings st ++ ws |}.
Proof. reflexivity. Qed.

Lemma reporting_ret {A} (x : A) st : reporting (mret x) st [] [].
Proof.
  unfold reporting. rewrite exec_ret. destruct st. unfold with_errors, with_warnings.
  cbn. by rewrite !app_nil_r.
Qed.

Lemma reporting_getConfig st : reporting getConfig st [] [].
Proof. apply (reporting_ret (config st)). Qed.

Lemma reporting_error msg st : reporting (error msg) st [msg] [].
Proof.
  unfold reporting. rewrite exec_error. unfold with_errors, with_warnings. cbn.
  by rewrite app_nil_r.
Qed.

Lemma reporting_warn msg st : reporting (warn msg) st [] [msg].
Proof.
  unfold reporting. rewrite exec_warn. unfold with_errors, with_warnings. cbn.
  by rewrite app_nil_r.
Qed.

Lemma reporting_bind {A B} (m : Link A) (f : A → Link B) st es1 ws1 es2 ws2 :
  reporting m st es1 ws1 →
  reporting (f (eval m st)) (exec m st) es2 ws2 →
  reporting (m ≫= f) st (es1 ++ es2) (ws1 ++ ws2).
Proof.
  unfold reporting. intros H1 H2. rewrite exec_bind, H2, H1.
  unfold with_errors, with_warnings. cbn. by rewrite !app_assoc.
Qed.

Lemma reporting_when b m st es ws :
  reporting m st es ws →
  reporting (when b m) st (if b then es else []) (if b then ws else []).
Proof. destruct b; [done|]. intros _. apply (reporting_ret tt). Qed.

Lemma reporting_when_errors b m st es :
  reporting m st es [] → reporting (when b m) st (if b then es else []) [].
Proof. destruct b; [done|]. intros _. apply (reporting_ret tt). Qed.

Lemma reporting_when_warnings b m st ws :
  reporting m st [] ws → reporting (when b m) st [] (if b then ws else []).
Proof. destruct b; [done|]. intros _. apply (reporting_ret tt). Qed.

(** Builds the two lists of a straight-line program of reports. *)
Ltac reporting_step :=
  lazymatch goal with
  | |- reporting (_ ≫= _) _ _ _ => eapply reporting_bind
  | |- reporting (when _ (error _)) _ _ _ =>
      eapply reporting_when_errors; apply reporting_error
  | |- reporting (when _ (warn _)) _ _ _ =>
      eapply reporting_when_warnings; apply reporting_warn
  | |- reporting (when _ _) _ _ _ => eapply reporting_when
  | |- reporting (mret _) _ _ _ => apply reporting_ret
  | |- reporting getConfig _ _ _ => apply reporting_getConfig
  | |- reporting (error _) _ _ _ => apply reporting_error
  | |- reporting (warn _) _ _ _ => apply reporting_warn
  end.

(** ** Option checking, in full *)

Lemma checkOptions_reporting ext args st :
  let c := config st in
  reporting (checkOptions ext args) st
    ((if negb (stripDebug c) && negb (stripAll c) && compressRelocations c
      then ["--compress-relocations is incompatible with output debug" +:+
            " information. Please pass --strip-debug or --strip-all"] else []) ++
     (if (3 <? ltoo c)%Z
      then ["invalid optimization level for LTO: " +:+ pretty (ltoo c)] else []) ++
     (if (ltoPartitions c =? 0)%Z
      then ["--lto-partitions: number of threads must be > 0"] else []) ++
     (if negb (get_threadpool_strategy ext (thinLTOJobs c))
      then ["--thinlto-jobs: invalid job count: " +:+ thinLTOJobs c] else []) ++
     (if pie c && shared c
      then ["-shared and -pie may not be used together"] else []) ++
     (if emptyString (outputFile c) then ["no output file specified"] else []) ++
     (if importTable c && exportTable c
      then ["--import-table and --export-table may not be used together"] else []) ++
     (if relocatable c then
        (if negb (emptyString (entry c))
         then ["entry point specified for relocatable output file"] else []) ++
        (if gcSections c
         then ["-r and --gc-sections may not be used together"] else []) ++
        (if compressRelocations c
         then ["-r -and --compress-relocations may not be used together"] else []) ++
        (if negb (bool_decide (OPT_undefined args = []))
         then ["-r -and --undefined may not be used together"] else []) ++
        (if pie c then ["-r and -pie may not be used together"] else []) ++
        (if sharedMemory c
         then ["-r and --shared-memory may not be used together"] else [])
      else []))
    ((if negb (experimentalPic c)
      then (if shared c
            then ["creating shared libraries, with -shared, is not yet stable"]
            else []) ++
           (if pie c then ["creating PIEs, with -pie, is not yet stable"] else [])
      else []) ++
     (if bsymbolic c && negb (shared c)
      then ["-Bsymbolic is only meaningful when combined with -shared"] else [])).
Proof.
  cbn zeta.
  eassert (H : reporting (checkOptions ext args) st _ _).
  { unfold checkOptions. repeat reporting_step. }
  change (eval getConfig st) with (config st) in H.
  cbn [app] in H. rewrite !app_nil_r in H.
  destruct (relocatable (config st)), (negb (experimentalPic (config st)));
    cbn [app] in *; rewrite ?app_nil_r in *; exact H.
Qed.

Lemma not_in_if (b : bool) (x msg : string) :
  x ≠ msg → ¬ In msg (if b then [x] else []).
Proof. intros Hx. destruct b; [|by intros []]. by intros [?|[]]. Qed.

(** ** Forcing symbols into the output *)

Lemma run_handleUndefined_absent ext n st :
  symMap (symtab st) !! n = None → handleUndefined ext n st = (None, st).
Proof.
  intros H. unfold handleUndefined.
  eapply run_bind_eq; [apply run_symtab_find|]. by rewrite H.
Qed.

Lemma run_handleUndefined_plain ext n p s st :
  symMap (symtab st) !! n = Some p →
  symVector (symtab st) !! p = Some s →
  isLazy s = false →
  handleUndefined ext n st =
    (Some p, with_symtab (alterSym (set_isUsedInRegularObj true) p (symtab st)) st).
Proof.
  intros Hn Hp Hl. unfold handleUndefined.
  eapply run_bind_eq; [apply run_symtab_find|]. rewrite Hn.
  eapply run_bind_eq; [apply run_setSym|].
  eapply run_bind_eq; [apply run_getSym|].
  st_simpl. rewrite symVector_alterSym_eq, Hp. cbn [fmap option_fmap option_map from_option].
  change (isLazy (set_isUsedInRegularObj true s)) with (isLazy s). rewrite Hl.
  eapply run_bind_eq; [apply run_when_false|]. reflexivity.
Qed.

Lemma run_handleLibcall_quiet ext n st :
  (∀ p s, symMap (symtab st) !! n = Some p → symVector (symtab st) !! p = Some s →
          isLazy s && lazy_isBitcode ext p = false) →
  handleLibcall ext n st = (tt, st).
Proof.
  intros H. unfold handleLibcall.
  eapply run_bind_eq; [apply run_symtab_find|].
  destruct (symMap (symtab st) !! n) as [p|] eqn:Hn; [|done].
  eapply run_bind_eq; [apply run_getSym|].
  destruct (symVector (symtab st) !! p) as [s|] eqn:Hp; [|done].
  cbn [from_option]. by rewrite (H p s).
Qed.

(** ** The loop over --export *)

(** One turn of the loop of [forceExports]. *)
Lemma forceExports_turn n st :
  (sym ← symtab_find n;
   s ← from_option getSym (mret None) sym;
   c ← getConfig;
   match sym with
   | Some p =>
       if from_option isDefined false s then setSym p (set_forceExport true)
       else match unresolvedSymbols c with
            | ReportError => error ("symbol exported via --export not found: " +:+ n)
            | Warn => warn ("symbol exported via --export not found: " +:+ n)
            | _ => mret tt
            end
   | None =>
       match unresolvedSymbols c with
       | ReportError => error ("symbol exported via --export not found: " +:+ n)
       | Warn => warn ("symbol exported via --export not found: " +:+ n)
       | _ => mret tt
       end
   end) st =
  (tt,
   if definedName (symtab st) n
   then match symMap (symtab st) !! n with
        | Some p => with_symtab (alterSym (set_forceExport true) p (symtab st)) st
        | None => st
        end
   else match unresolvedSymbols (config st) with
        | ReportError =>
            with_errors
              (errors st ++ ["symbol exported via --export not found: " +:+ n]) st
        | Warn =>
            with_warnings
              (warnings st ++ ["symbol exported via --export not found: " +:+ n]) st
        | _ => st
        end).
Proof.
  eapply run_bind_eq; [apply run_symtab_find|]. unfold definedName.
  destruct (symMap (symtab st) !! n) as [p|]; cbn [from_option mbind option_bind].
  - eapply run_bind_eq; [apply run_getSym|].
    eapply run_bind_eq; [apply run_getConfig|].
    destruct (symVector (symtab st) !! p) as [s|]; cbn [from_option].
    + destruct (isDefined s); [reflexivity|].
      by destruct (unresolvedSymbols (config st)).
    + by destruct (unresolvedSymbols (config st)).
  - eapply run_bind_eq; [apply run_ret|].
    eapply run_bind_eq; [apply run_getConfig|].
    by destruct (unresolvedSymbols (config st)).
Qed.

Lemma isDefined_set_forceExport b s : isDefined (set_forceExport b s) = isDefined s.
Proof. reflexivity. Qed.

Lemma definedName_alter_forceExport t p n :
  definedName (alterSym (set_forceExport true) p t) n = definedName t n.
Proof.
  unfold definedName. rewrite symMap_alterSym.
  destruct (symMap t !! n) as [q|]; [|done]. cbn [mbind option_bind].
  destruct (decide (q = p)) as [->|Hq].
  - rewrite symVector_alterSym_eq. by destruct (symVector t !! p).
  - by rewrite symVector_alterSym_ne.
Qed.

Lemma exportsNotFound_cons t n l :
  exportsNotFound t (n :: l) =
    (if definedName t n then []
     else ["symbol exported via --export not found: " +:+ n]) ++ exportsNotFound t l.
Proof.
  unfold exportsNotFound. rewrite filter_cons.
  destruct (decide (definedName t n = false)) as [H|H].
  - by rewrite H.
  - apply not_false_is_true in H. by rewrite H.
Qed.

Lemma exportsNotFound_ext t t' l :
  (∀ n, definedName t' n = definedName t n) →
  exportsNotFound t' l = exportsNotFound t l.
Proof.
  intros H. induction l as [|n l IH]; [done|].
  by rewrite !exportsNotFound_cons, IH, H.
Qed.

(** The loop of [forceExports], for any body that does what one turn does. *)
Lemma exports_loop (B : string → Link unit) :
  (∀ n st,
     B n st =
       (tt,
        if definedName (symtab st) n
        then match symMap (symtab st) !! n with
             | Some p => with_symtab (alterSym (set_forceExport true) p (symtab st)) st
             | None => st
             end
        else match unresolvedSymbols (config st) with
             | ReportError =>
                 with_errors
                   (errors st ++ ["symbol exported via --export not found: " +:+ n]) st
             | Warn =>
                 with_warnings
                   (warnings st ++ ["symbol exported via --export not found: " +:+ n]) st
             | _ => st
             end)) →
  ∀ l st,
    let st' := exec (forEach l B) st in
    errors st' =
      errors st ++
      match unresolvedSymbols (config st) with
      | ReportError => exportsNotFound (symtab st) l
      | _ => []
      end ∧
    warnings st' =
      warnings st ++
      match unresolvedSymbols (config st) with
      | Warn => exportsNotFound (symtab st) l
      | _ => []
      end ∧
    config st' = config st ∧ wasmSym st' = wasmSym st ∧ files st' = files st ∧
    symMap (symtab st') = symMap (symtab st) ∧
    objectFiles (symtab st') = objectFiles (symtab st) ∧
    (∀ m, definedName (symtab st') m = definedName (symtab st) m) ∧
    (∀ q s, symVector (symtab st) !! q = Some s →
            ∃ s', symVector (symtab st') !! q = Some s' ∧
                  (s' = s ∨
                   (s' = set_forceExport true s ∧ isDefined s = true ∧
                    ∃ n, n ∈ l ∧ symMap (symtab st) !! n = Some q))) ∧
    (∀ n p s, n ∈ l → symMap (symtab st) !! n = Some p →
              symVector (symtab st) !! p = Some s → isDefined s = true →
              ∃ s', symVector (symtab st') !! p = Some s' ∧ forceExport s' = true).
Proof.
  intros HB. induction l as [|n l IH]; intros st; cbn zeta.
  - rewrite exec_forEach_nil.
    split_and!; try done; try (by destruct (unresolvedSymbols (config st));
                                rewrite app_nil_r).
    + intros q s Hq. exists s. by split; [|left].
    + by intros n p s ?%elem_of_nil.
  - rewrite exec_forEach_cons.
    set (st1 := exec (B n) st).
    assert (H1 : st1 =
      if definedName (symtab st) n
      then match symMap (symtab st) !! n with
           | Some p => with_symtab (alterSym (set_forceExport true) p (symtab st)) st
           | None => st
           end
      else match unresolvedSymbols (config st) with
           | ReportError =>
               with_errors
                 (errors st ++ ["symbol exported via --export not found: " +:+ n]) st
           | Warn =>
               with_warnings
                 (warnings st ++ ["symbol exported via --export not found: " +:+ n]) st
           | _ => st
           end).
    { unfold st1, exec. by rewrite HB. }
    clearbody st1.
    assert (Hc : config st1 = config st ∧ wasmSym st1 = wasmSym st ∧
                 files st1 = files st ∧
                 symMap (symtab st1) = symMap (symtab st) ∧
                 objectFiles (symtab st1) = objectFiles (symtab st) ∧
                 (∀ m, definedName (symtab st1) m = definedName (symtab st) m)).
    { subst st1. destruct (definedName (symtab st) n).
      - destruct (symMap (symtab st) !! n); [|done].
        split_and!; try done. intros m. apply definedName_alter_forceExport.
      - by destruct (unresolvedSymbols (config st)). }
    destruct Hc as (Hc & Hw & Hf & Hm & Ho & Hd).
    assert (He : errors st1 =
                 errors st ++
                 match unresolvedSymbols (config st) with
                 | ReportError =>
                     if definedName (symtab st) n then []
                     else ["symbol exported via --export not found: " +:+ n]
                 | _ => []
                 end).
    { subst st1. destruct (definedName (symtab st) n).
      - destruct (symMap (symtab st) !! n), (unresolvedSymbols (config st));
          by rewrite app_nil_r.
      - destruct (unresolvedSymbols (config st)); by rewrite ?app_nil_r. }
    assert (Hn : warnings st1 =
                 warnings st ++
                 match unresolvedSymbols (config st) with
                 | Warn =>
                     if definedName (symtab st) n then []
                     else ["symbol exported via --export not found: " +:+ n]
                 | _ => []
                 end).
    { subst st1. destruct (definedName (symtab st) n).
      - destruct (symMap (symtab st) !! n), (unresolvedSymbols (config st));
          by rewrite app_nil_r.
      - destruct (unresolvedSymbols (config st)); by rewrite ?app_nil_r. }
    assert (Hv : ∀ q s, symVector (symtab st) !! q = Some s →
                 symVector (symtab st1) !! q =
                   Some (if bool_decide (symMap (symtab st) !! n = Some q) && isDefined s
                         then set_forceExport true s else s)).
    { intros q s Hq. subst st1. unfold definedName.
      destruct (symMap (symtab st) !! n) as [p|] eqn:Hp; cbn [mbind option_bind].
      - destruct (decide (p = q)) as [->|Hpq].
        + rewrite bool_decide_eq_true_2 by done. rewrite Hq. cbn [from_option andb].
          destruct (isDefined s).
          * st_simpl. by rewrite symVector_alterSym_eq, Hq.
          * by destruct (unresolvedSymbols (config st)).
        + rewrite bool_decide_eq_false_2 by congruence. cbn [andb].
          destruct (from_option isDefined false (symVector (symtab st) !! p)).
          * st_simpl. by rewrite symVector_alterSym_ne.
          * by destruct (unresolvedSymbols (config st)).
      - rewrite bool_decide_eq_false_2 by done. cbn [andb from_option].
        by destruct (unresolvedSymbols (config st)). }
    clear H1.
    destruct (IH st1) as (Ie & In' & Ic & Iw & If & Im & Io & Id & Iv & Ix).
    rewrite Ic, Hc, Iw, Hw, If, Hf, Im, Hm, Io, Ho.
    rewrite exportsNotFound_cons.
    split_and!; try done.
    + rewrite Ie, He, Hc, (exportsNotFound_ext _ _ _ Hd).
      destruct (unresolvedSymbols (config st)); by rewrite <- ?app_assoc, ?app_nil_r.
    + rewrite In', Hn, Hc, (exportsNotFound_ext _ _ _ Hd).
      destruct (unresolvedSymbols (config st)); by rewrite <- ?app_assoc, ?app_nil_r.
    + intros m. by rewrite Id, Hd.
    + intros q s Hq. pose proof (Hv q s Hq) as Hs1.
      destruct (Iv q _ Hs1) as (s' & Hs' & Hor').
      exists s'. split; [done|].
      case_bool_decide as Hnq; cbn [andb] in *;
        [destruct (isDefined s) eqn:Hdef|].
      * right. split_and!; try done.
        -- by destruct Hor' as [-> | (-> & _)].
        -- exists n. split; [by apply elem_of_cons; left | done].
      * destruct Hor' as [-> | (-> & Hdef' & m & Hm' & Hmq)]; [by left|].
        congruence.
      * destruct Hor' as [-> | (-> & Hdef & m & Hm' & Hmq)]; [by left|].
        right. split_and!; try done. exists m. split; [by apply elem_of_cons; right|].
        by rewrite <- Hm.
    + intros m p s Hin Hmp Hp Hdef. pose proof (Hv p s Hp) as Hs1.
      apply elem_of_cons in Hin as [-> | Hin].
      * rewrite bool_decide_eq_true_2, Hdef in Hs1 by done. cbn [andb] in Hs1.
        destruct (Iv p _ Hs1) as (s' & Hs' & [-> | (-> & _)]);
          exists (set_forceExport true s); by split.
      * eapply (Ix m p); [exact Hin | by rewrite Hm | exact Hs1 |].
        by destruct (bool_decide _ && isDefined s).
Qed.

(** X1. [getUnresolvedSymbolPolicy]: a known value of --unresolved-symbols
    decides the policy alone and without effect, whatever --allow-undefined
    says; an unknown value is reported as one error and then the policy is
    that of a command line without the option: import-functions with
    --allow-undefined, else report or warn.  The policy is ignore-all only
    when it is asked for by that name. *)
Theorem unresolved_policy_precedence (args : InputArgList) (st : LinkState) :
  let r := eval (getUnresolvedSymbolPolicy args) st in
  let st' := exec (getUnresolvedSymbolPolicy args) st in
  let errorOrWarn :=
    if hasFlag (OPT_error_unresolved_symbols args) true then ReportError else Warn in
  let legacy := if OPT_allow_undefined args then ImportFuncs else errorOrWarn in
  (∀ s, OPT_unresolved_symbols args = Some s → s ∈ policyNames →
        st' = st ∧
        r = if bool_decide (s = "ignore-all") then Ignore
            else if bool_decide (s = "import-functions") then ImportFuncs
            else errorOrWarn) ∧
  (∀ s, OPT_unresolved_symbols args = Some s → s ∉ policyNames →
        st' = with_errors
                (errors st ++ ["unknown --unresolved-symbols value: " +:+ s]) st ∧
        r = legacy) ∧
  (OPT_unresolved_symbols args = None → st' = st ∧ r = legacy) ∧
  (r = Ignore ↔ OPT_unresolved_symbols args = Some "ignore-all").
Proof.
  cbn zeta. unfold eval, exec. rewrite run_getUnresolvedSymbolPolicy. cbn zeta.
  split_and!.
  - intros s -> Hs. apply policyNames_elem in Hs.
    repeat case_bool_decide; try done. exfalso. naive_solver.
  - intros s -> Hs. rewrite policyNames_elem in Hs.
    repeat case_bool_decide; try done; exfalso; naive_solver.
  - by intros ->.
  - destruct (OPT_unresolved_symbols args) as [s|].
    + repeat case_bool_decide; subst; cbn [fst];
        destruct (hasFlag (OPT_error_unresolved_symbols args) true),
          (OPT_allow_undefined args);
        split; (done || congruence).
    + cbn [fst]. destruct (hasFlag (OPT_error_unresolved_symbols args) true),
        (OPT_allow_undefined args); split; done.
Qed.


(** [--unresolved-symbols=ignore-all] is a known value and gives the policy
    ignore-all. *)
Lemma unresolved_policy_precedence_witness :
  OPT_unresolved_symbols args_ignore_all = Some "ignore-all" ∧
  "ignore-all" ∈ policyNames ∧
  eval (getUnresolvedSymbolPolicy args_ignore_all) initialState = Ignore.
Proof.
  assert (Hin : "ignore-all" ∈ policyNames) by (apply elem_of_cons; left; reflexivity).
  split; [reflexivity|]. split; [exact Hin|].
  destruct (unresolved_policy_precedence args_ignore_all initialState) as [H _].
  apply (H "ignore-all" eq_refl Hin).
Defined.

(** X3. [readConfigs], later options over earlier ones: the LTO job count is
    the value of --thinlto-jobs when that is given, else the value of
    --threads (taken as it is, also when it is reported as invalid), else
    what it was; the map file is [-] with --print-map, whatever -Map says.
    Garbage collection and merging of data segments default to the negation
    of -r. *)
Theorem readConfigs_overrides (ext : Externals) (args : InputArgList)
    (st : LinkState) :
  let c' := config (exec (readConfigs ext args) st) in
  thinLTOJobs c' =
    match OPT_thinlto_jobs args, OPT_threads args with
    | Some v, _ => v
    | None, Some v => v
    | None, None => thinLTOJobs (config st)
    end ∧
  mapFile c' = (if OPT_print_map args then "-" else OPT_Map args) ∧
  (OPT_gc_sections args = None → gcSections c' = negb (relocatable c')) ∧
  (OPT_merge_data_segments args = None →
   mergeDataSegments c' = negb (relocatable c')).
Proof.
  cbn zeta. rewrite readConfigs_config.
  cbn [thinLTOJobs mapFile gcSections mergeDataSegments relocatable].
  split_and!; [reflexivity | reflexivity | by intros -> | by intros ->].
Qed.

Lemma one_if_nil (b : bool) (x : string) : (if b then [x] else []) = [] ↔ b = false.
Proof. by destruct b. Qed.

Lemma emptyString_false s : emptyString s = false ↔ s ≠ "".
Proof. unfold emptyString. by rewrite bool_decide_eq_false. Qed.

Lemma emptyString_true s : emptyString s = true ↔ s = "".
Proof. unfold emptyString. by rewrite bool_decide_eq_true. Qed.

(** X4. [checkOptions] accepts a configuration, that is, records no error,
    exactly when: relocations are compressed only with debug information
    stripped; the LTO level is at most 3 and the number of LTO partitions is
    not 0; the LTO job count is one the thread pool takes; -pie and -shared
    are not both set; there is an output file; the table is not both
    imported and exported; and, for relocatable output, there is no entry
    point, no garbage collection, no compressed relocations, no --undefined,
    no -pie and no shared memory. *)
Theorem checkOptions_accepts (ext : Externals) (args : InputArgList)
    (st : LinkState) :
  let c := config st in
  errors (exec (checkOptions ext args) st) = errors st ↔
    (compressRelocations c = true → stripDebug c = true ∨ stripAll c = true) ∧
    (ltoo c ≤ 3)%Z ∧ ltoPartitions c ≠ 0%Z ∧
    get_threadpool_strategy ext (thinLTOJobs c) = true ∧
    (pie c = false ∨ shared c = false) ∧
    outputFile c ≠ "" ∧
    (importTable c = false ∨ exportTable c = false) ∧
    (relocatable c = true →
       entry c = "" ∧ gcSections c = false ∧ compressRelocations c = false ∧
       OPT_undefined args = [] ∧ pie c = false ∧ sharedMemory c = false).
Proof.
  cbn zeta. rewrite (checkOptions_reporting ext args st).
  cbn [errors with_warnings with_errors].
  rewrite <- (app_nil_r (errors st)) at 2.
  split.
  - intros H. apply app_inv_head in H.
    apply app_eq_nil in H as [H1%one_if_nil H].
    apply app_eq_nil in H as [H2%one_if_nil H].
    apply app_eq_nil in H as [H3%one_if_nil H].
    apply app_eq_nil in H as [H4%one_if_nil H].
    apply app_eq_nil in H as [H5%one_if_nil H].
    apply app_eq_nil in H as [H6%one_if_nil H].
    apply app_eq_nil in H as [H7%one_if_nil H].
    split_and!.
    + intros Hc. rewrite Hc, andb_true_r in H1.
      apply andb_false_iff in H1 as [?%negb_false_iff | ?%negb_false_iff]; auto.
    + by apply Z.ltb_ge.
    + by apply Z.eqb_neq.
    + by apply negb_false_iff.
    + by apply andb_false_iff.
    + by apply emptyString_false.
    + by apply andb_false_iff.
    + intros Hr. rewrite Hr in H.
      apply app_eq_nil in H as [R1%one_if_nil H].
      apply app_eq_nil in H as [R2%one_if_nil H].
      apply app_eq_nil in H as [R3%one_if_nil H].
      apply app_eq_nil in H as [R4%one_if_nil H].
      apply app_eq_nil in H as [R5%one_if_nil R6%one_if_nil].
      apply negb_false_iff in R1, R4.
      apply emptyString_true in R1. apply bool_decide_eq_true in R4.
      by split_and!.
  - intros (H1 & H2 & H3 & H4 & H5 & H6 & H7 & H8). f_equal.
    apply Z.ltb_ge in H2. apply Z.eqb_neq in H3. apply emptyString_false in H6.
    apply andb_false_iff in H5, H7. rewrite H2, H3, H4, H5, H6, H7. cbn [negb app].
    assert (negb (stripDebug (config st)) && negb (stripAll (config st)) &&
            compressRelocations (config st) = false) as ->.
    { destruct (compressRelocations (config st)); [|by rewrite andb_false_r].
      destruct (H1 eq_refl) as [-> | ->]; [done | by rewrite andb_false_r]. }
    cbn [app]. destruct (relocatable (config st)); [|done].
    destruct H8 as (E1 & -> & -> & E4 & -> & ->); [done|].
    apply emptyString_true in E1. rewrite E1, E4. by rewrite bool_decide_eq_true_2.
Qed.

(** X5. [checkOptions] only reports: configuration, symbol table,
    synthetic-symbol pointers and files are as before.  Its warnings are
    exactly: -shared, then -pie, each unless --experimental-pic is given;
    then -Bsymbolic without -shared. *)
Theorem checkOptions_only_reports (ext : Externals) (args : InputArgList)
    (st : LinkState) :
  let c := config st in
  let st' := exec (checkOptions ext args) st in
  config st' = c ∧ symtab st' = symtab st ∧ wasmSym st' = wasmSym st ∧
  files st' = files st ∧
  warnings st' =
    warnings st ++
    (if negb (experimentalPic c) && shared c
     then ["creating shared libraries, with -shared, is not yet stable"] else []) ++
    (if negb (experimentalPic c) && pie c
     then ["creating PIEs, with -pie, is not yet stable"] else []) ++
    (if bsymbolic c && negb (shared c)
     then ["-Bsymbolic is only meaningful when combined with -shared"] else []).
Proof.
  cbn zeta. rewrite (checkOptions_reporting ext args st).
  cbn [config symtab wasmSym files warnings with_warnings with_errors].
  split_and!; try reflexivity. f_equal.
  destruct (experimentalPic (config st)), (shared (config st)), (pie (config st));
    reflexivity.
Qed.

(** X6. The defaults of -r pass the checks of -r: on a command line with -r
    and with neither --entry/--no-entry nor --gc-sections/--no-gc-sections,
    [readConfigs] leaves an empty entry and garbage collection off, and
    [checkOptions], run after [createFiles] and [setConfigs] as the driver
    does, records neither the entry-point error nor the garbage-collection
    error of relocatable output. *)
Theorem relocatable_defaults_pass (ext : Externals) (args : InputArgList)
    (st0 : LinkState) :
  OPT_relocatable args = true →
  OPT_entry args = None →
  OPT_gc_sections args = None →
  let st := exec setConfigs
              (exec (createFiles ext args) (exec (readConfigs ext args) st0)) in
  entry (config st) = "" ∧ gcSections (config st) = false ∧
  ∃ l, errors (exec (checkOptions ext args) st) = errors st ++ l ∧
       ¬ In "entry point specified for relocatable output file" l ∧
       ¬ In "-r and --gc-sections may not be used together" l.
Proof.
  intros Hr He Hg. cbn zeta.
  set (st := exec setConfigs _).
  assert (Hc : relocatable (config st) = true ∧ entry (config st) = "" ∧
               gcSections (config st) = false).
  { unfold st.
    destruct (setConfigs_keeps
                (exec (createFiles ext args) (exec (readConfigs ext args) st0)))
      as (-> & -> & ->).
    destruct (createFiles_keeps ext args (exec (readConfigs ext args) st0))
      as (-> & -> & ->).
    rewrite readConfigs_config. cbn [relocatable entry gcSections].
    unfold getEntry. by rewrite Hr, He, Hg. }
  clearbody st. destruct Hc as (Hc1 & Hc2 & Hc3).
  split; [exact Hc2|]. split; [exact Hc3|].
  eexists. split.
  { rewrite (checkOptions_reporting ext args st).
    cbn [errors with_warnings with_errors]. reflexivity. }
  rewrite Hc1, Hc2, Hc3. unfold emptyString at 2.
  rewrite (bool_decide_eq_true_2 ("" = "")) by reflexivity. cbn [negb app].
  split; intros Hin; rewrite !in_app_iff in Hin;
    repeat (destruct Hin as [Hin|Hin]);
    try (by destruct Hin);
    (revert Hin; apply not_in_if; intros E; simpl in E; discriminate E).
Qed.

(** [-r] alone meets the hypotheses of X6. *)
Lemma relocatable_defaults_pass_witness :
  OPT_relocatable args_relocatable = true ∧ OPT_entry args_relocatable = None ∧
  OPT_gc_sections args_relocatable = None ∧
  gcSections
    (config
       (exec setConfigs
          (exec (createFiles quietExternals args_relocatable)
             (exec (readConfigs quietExternals args_relocatable) initialState))))
  = false.
Proof.
  split_and!; [reflexivity | reflexivity | reflexivity |].
  apply (relocatable_defaults_pass quietExternals args_relocatable initialState
           eq_refl eq_refl eq_refl).
Defined.

(** X7. [handleUndefined]: for a name that the table does not hold the
    result is null and nothing changes.  For a name held by a symbol that is
    not lazy the result is that symbol, the only change is that the symbol
    is marked as used in a regular object, no routine from outside is
    called, and a second call changes nothing more. *)
Theorem handleUndefined_marks_used (ext : Externals) (n : string)
    (st : LinkState) :
  (symMap (symtab st) !! n = None → handleUndefined ext n st = (None, st)) ∧
  (∀ p s, symMap (symtab st) !! n = Some p →
          symVector (symtab st) !! p = Some s → isLazy s = false →
          let st' := exec (handleUndefined ext n) st in
          eval (handleUndefined ext n) st = Some p ∧
          st' = with_symtab (alterSym (set_isUsedInRegularObj true) p (symtab st)) st ∧
          symVector (symtab st') !! p = Some (set_isUsedInRegularObj true s) ∧
          (∀ q, q ≠ p → symVector (symtab st') !! q = symVector (symtab st) !! q) ∧
          handleUndefined ext n st' = (Some p, st')).
Proof.
  split; [apply run_handleUndefined_absent|].
  intros p s Hn Hp Hl. cbn zeta. unfold eval, exec.
  rewrite (run_handleUndefined_plain ext n p s st Hn Hp Hl). cbn [fst snd].
  split_and!; try reflexivity.
  - st_simpl. by rewrite symVector_alterSym_eq, Hp.
  - intros q Hq. st_simpl. by rewrite symVector_alterSym_ne.
  - rewrite (run_handleUndefined_plain ext n p (set_isUsedInRegularObj true s)).
    + f_equal. st_simpl. f_equal. unfold alterSym. cbn [symVector with_symVector].
      rewrite list_alter_alter_eq. unfold with_symVector. cbn. by f_equal.
    + st_simpl. by rewrite symMap_alterSym.
    + st_simpl. by rewrite symVector_alterSym_eq, Hp.
    + exact Hl.
Qed.

(** X8. The loop over the runtime libcall names changes nothing and calls
    no routine from outside as long as none of the names is held by a lazy
    symbol whose archive member is bitcode; names that the table does not
    hold are passed over. *)
Theorem handleLibcall_only_fetches_bitcode (ext : Externals)
    (names : list string) (st : LinkState) :
  (∀ n p s, n ∈ names → symMap (symtab st) !! n = Some p →
            symVector (symtab st) !! p = Some s →
            isLazy s && lazy_isBitcode ext p = false) →
  forEach names (handleLibcall ext) st = (tt, st).
Proof.
  induction names as [|n names IH]; intros H; [reflexivity|].
  cbn [forEach]. eapply run_bind_eq.
  - apply run_handleLibcall_quiet. intros p s. apply H, elem_of_cons. by left.
  - apply IH. intros n' p s Hn'. apply H, elem_of_cons. by right.
Qed.

(** A table that holds [foo], not lazy, meets the hypothesis of X8 for the
    names [foo] and [memcpy]. *)
Lemma handleLibcall_only_fetches_bitcode_witness :
  (∀ n p s, n ∈ ["foo"; "memcpy"] → symMap (symtab state_with_foo) !! n = Some p →
            symVector (symtab state_with_foo) !! p = Some s →
            isLazy s && lazy_isBitcode quietExternals p = false) ∧
  forEach ["foo"; "memcpy"] (handleLibcall quietExternals) state_with_foo =
    (tt, state_with_foo).
Proof.
  assert (H : ∀ n p s, n ∈ ["foo"; "memcpy"] →
            symMap (symtab state_with_foo) !! n = Some p →
            symVector (symtab state_with_foo) !! p = Some s →
            isLazy s && lazy_isBitcode quietExternals p = false).
  { intros n p s _ _ _. simpl. apply andb_false_r. }
  split; [exact H|].
  apply (handleLibcall_only_fetches_bitcode quietExternals ["foo"; "memcpy"]
           state_with_foo H).
Defined.

(** [foo], held by a symbol that is not lazy, is found. *)
Lemma handleUndefined_marks_used_witness :
  symMap (symtab state_with_foo) !! "foo" = Some 0 ∧
  symVector (symtab state_with_foo) !! 0 =
    Some (newSymbol "foo" (DefinedFunction None) 0) ∧
  isLazy (newSymbol "foo" (DefinedFunction None) 0) = false ∧
  eval (handleUndefined quietExternals "foo") state_with_foo = Some 0.
Proof.
  split_and!; [reflexivity | reflexivity | reflexivity |].
  destruct (handleUndefined_marks_used quietExternals "foo" state_with_foo) as [_ H].
  apply (H 0 (newSymbol "foo" (DefinedFunction None) 0) eq_refl eq_refl eq_refl).
Defined.

(** X9. The entry symbol.  For relocatable output or an empty entry name
    (as --no-entry gives) nothing is looked up and nothing changes.
    Otherwise a name that the table does not hold is reported as "entry
    symbol not defined" and the result is null; a symbol that is held, not
    lazy, and defined is marked as used and force-exported without error; a
    symbol that is held but not defined is marked as used, reported with
    the same error, and still returned. *)
Theorem handleEntry_cases (ext : Externals) (st : LinkState) :
  let c := config st in
  let msg := "entry symbol not defined (pass --no-entry to suppress): " +:+ entry c in
  (relocatable c = true ∨ entry c = "" → handleEntry ext st = (None, st)) ∧
  (relocatable c = false → entry c ≠ "" →
   symMap (symtab st) !! entry c = None →
   handleEntry ext st = (None, with_errors (errors st ++ [msg]) st)) ∧
  (∀ p s, relocatable c = false → entry c ≠ "" →
          symMap (symtab st) !! entry c = Some p →
          symVector (symtab st) !! p = Some s → isLazy s = false →
          let st' := exec (handleEntry ext) st in
          eval (handleEntry ext) st = Some p ∧
          config st' = c ∧ symMap (symtab st') = symMap (symtab st) ∧
          (∀ q, q ≠ p → symVector (symtab st') !! q = symVector (symtab st) !! q) ∧
          (isDefined s = true →
             errors st' = errors st ∧
             symVector (symtab st') !! p =
               Some (set_forceExport true (set_isUsedInRegularObj true s))) ∧
          (isDefined s = false →
             errors st' = errors st ++ [msg] ∧
             symVector (symtab st') !! p = Some (set_isUsedInRegularObj true s))).
Proof.
  cbn zeta. split_and!.
  - intros H. unfold handleEntry.
    eapply run_bind_eq; [apply run_getConfig|].
    destruct H as [-> | ->]; [done|]. unfold emptyString.
    rewrite bool_decide_eq_true_2 by done. by rewrite andb_false_r.
  - intros Hr He Hn. unfold handleEntry.
    eapply run_bind_eq; [apply run_getConfig|].
    rewrite Hr, (proj2 (emptyString_false _) He). cbn [negb andb].
    eapply run_bind_eq; [by apply run_handleUndefined_absent|].
    reflexivity.
  - intros p s Hr He Hn Hp Hl. cbn zeta.
    assert (Hrun : handleEntry ext st =
      let st1 := with_symtab (alterSym (set_isUsedInRegularObj true) p (symtab st)) st in
      if isDefined s
      then (Some p, with_symtab (alterSym (set_forceExport true) p (symtab st1)) st1)
      else (Some p,
            with_errors
              (errors st1 ++
               ["entry symbol not defined (pass --no-entry to suppress): " +:+
                entry (config st)]) st1)).
    { unfold handleEntry.
      eapply run_bind_eq; [apply run_getConfig|].
      rewrite Hr, (proj2 (emptyString_false _) He). cbn [negb andb].
      eapply run_bind_eq; [by eapply run_handleUndefined_plain|].
      cbn [from_option].
      eapply run_bind_eq; [apply run_getSym|].
      st_simpl. rewrite symVector_alterSym_eq, Hp.
      cbn [fmap option_fmap option_map from_option].
      change (isDefined (set_isUsedInRegularObj true s)) with (isDefined s).
      by destruct (isDefined s). }
    unfold eval, exec. rewrite Hrun. cbn zeta.
    destruct (isDefined s); cbn [fst snd]; st_simpl;
      rewrite ?symMap_alterSym; (split_and!; try done).
    + intros q Hq. by rewrite !symVector_alterSym_ne.
    + intros _. split; [done|].
      by rewrite symVector_alterSym_eq, symVector_alterSym_eq, Hp.
    + intros q Hq. by rewrite !symVector_alterSym_ne.
    + intros _. split; [done|]. by rewrite symVector_alterSym_eq, Hp.
Qed.

(** A plain link on an empty table: the entry [_start] is reported as not
    defined. *)
Lemma handleEntry_cases_witness :
  relocatable (config (configuredState args_plain)) = false ∧
  entry (config (configuredState args_plain)) ≠ "" ∧
  symMap (symtab (configuredState args_plain))
    !! entry (config (configuredState args_plain)) = None ∧
  handleEntry quietExternals (configuredState args_plain) =
    (None,
     with_errors
       (errors (configuredState args_plain) ++
        ["entry symbol not defined (pass --no-entry to suppress): " +:+
         entry (config (configuredState args_plain))])
       (configuredState args_plain)).
Proof.
  assert (Hne : entry (config (configuredState args_plain)) ≠ "") by discriminate.
  split_and!; [reflexivity | exact Hne | reflexivity |].
  destruct (handleEntry_cases quietExternals (configuredState args_plain))
    as (_ & H & _).
  apply (H eq_refl Hne eq_refl).
Defined.

(** X10. The search for a user-defined [__wasm_call_dtors].  It is skipped,
    with no change, for relocatable or shared output, and when
    [__wasm_call_ctors] is used in a regular object, is the entry, or is
    exported.  When it is not skipped: a missing [__wasm_call_dtors] changes
    nothing; one that is a defined function is recorded in
    [WasmSym::callDtors], also when its signature is rejected, which
    happens exactly when the signature is known and has a parameter or a
    result; one that is anything else is reported and not recorded. *)
Theorem findCallDtors_cases (ext : Externals) (st : LinkState) (pc : nat)
    (ctors : Symbol) :
  callCtors (wasmSym st) = Some pc →
  symVector (symtab st) !! pc = Some ctors →
  let c := config st in
  let skipped :=
    relocatable c || shared c || isUsedInRegularObj ctors ||
    bool_decide (name ctors = entry c) ||
    bool_decide (name ctors ∈ exportedSymbols c) in
  (skipped = true → findCallDtors ext st = (tt, st)) ∧
  (skipped = false → symMap (symtab st) !! "__wasm_call_dtors" = None →
   findCallDtors ext st = (tt, st)) ∧
  (∀ p s, skipped = false →
          symMap (symtab st) !! "__wasm_call_dtors" = Some p →
          symVector (symtab st) !! p = Some s → isLazy s = false →
          let st' := exec (findCallDtors ext) st in
          symVector (symtab st') !! p = Some (set_isUsedInRegularObj true s) ∧
          match body s with
          | DefinedFunction sig =>
              callDtors (wasmSym st') = Some p ∧
              errors st' =
                errors st ++
                match sig with
                | Some sg =>
                    if bool_decide (Params sg = []) && bool_decide (Returns sg = [])
                    then []
                    else ["__wasm_call_dtors must have no argument or return values"]
                | None => []
                end
          | _ =>
              callDtors (wasmSym st') = callDtors (wasmSym st) ∧
              errors st' = errors st ++ ["__wasm_call_dtors must be a function"]
          end).
Proof.
  intros Hpc Hc. cbn zeta.
  assert (Hcond :
    findCallDtors ext st =
      when (negb (relocatable (config st)) && negb (shared (config st)) &&
            negb (isUsedInRegularObj ctors) &&
            negb (bool_decide (name ctors = entry (config st))) &&
            negb (bool_decide (name ctors ∈ exportedSymbols (config st))))
        (callDtors ← handleUndefined ext "__wasm_call_dtors";
         match callDtors with
         | None => mret tt
         | Some p =>
             s ← getSym p;
             match body <$> s with
             | Some (DefinedFunction sig) =>
                 when (match sig with
                       | Some sg => negb (bool_decide (Params sg = [])) ||
                                    negb (bool_decide (Returns sg = []))
                       | None => false
                       end)
                   (error "__wasm_call_dtors must have no argument or return values");;
                 modifyWasmSym (set_callDtors (Some p))
             | _ => error "__wasm_call_dtors must be a function"
             end
         end) st).
  { unfold findCallDtors. rewrite run_bind, run_get. cbn [fst snd].
    rewrite Hpc. cbn [mbind option_bind]. rewrite Hc. reflexivity. }
  split_and!.
  - intros Hs. rewrite Hcond.
    destruct (relocatable (config st)), (shared (config st)),
      (isUsedInRegularObj ctors), (bool_decide (name ctors = entry (config st))),
      (bool_decide (name ctors ∈ exportedSymbols (config st))); done.
  - intros Hs Hn. rewrite Hcond, run_when. clear Hcond.
    destruct (relocatable (config st)), (shared (config st)),
      (isUsedInRegularObj ctors), (bool_decide (name ctors = entry (config st))),
      (bool_decide (name ctors ∈ exportedSymbols (config st))); try done.
    cbn [negb andb]. f_equal. apply (exec_of_run _ _ tt).
    eapply run_bind_eq; [by apply run_handleUndefined_absent|]. reflexivity.
  - intros p s Hs Hn Hp Hl. cbn zeta.
    set (st1 := with_symtab (alterSym (set_isUsedInRegularObj true) p (symtab st)) st).
    assert (H1 : symVector (symtab st1) !! p = Some (set_isUsedInRegularObj true s)).
    { unfold st1. st_simpl. by rewrite symVector_alterSym_eq, Hp. }
    assert (Hrun : findCallDtors ext st =
      (tt, match body s with
           | DefinedFunction sig =>
               with_wasmSym (set_callDtors (Some p) (wasmSym st1))
                 (match sig with
                  | Some sg =>
                      if negb (bool_decide (Params sg = [])) ||
                         negb (bool_decide (Returns sg = []))
                      then with_errors
                             (errors st1 ++
                              ["__wasm_call_dtors must have no argument or return values"])
                             st1
                      else st1
                  | None => st1
                  end)
           | _ => with_errors (errors st1 ++ ["__wasm_call_dtors must be a function"]) st1
           end)).
    { rewrite Hcond, run_when. clear Hcond.
      destruct (relocatable (config st)), (shared (config st)),
        (isUsedInRegularObj ctors), (bool_decide (name ctors = entry (config st))),
        (bool_decide (name ctors ∈ exportedSymbols (config st))); try done.
      cbn [negb andb]. f_equal. apply (exec_of_run _ _ tt).
      eapply run_bind_eq; [by eapply run_handleUndefined_plain|]. fold st1.
      eapply run_bind_eq; [apply run_getSym|]. rewrite H1.
      cbn [fmap option_fmap option_map].
      change (body (set_isUsedInRegularObj true s)) with (body s).
      destruct (body s) as [sig| | | | | | | | |]; try reflexivity.
      rewrite run_bind, run_when. cbn [fst snd].
      destruct sig as [sg|]; [|reflexivity].
      by destruct (negb (bool_decide (Params sg = [])) ||
                   negb (bool_decide (Returns sg = []))). }
    unfold exec. rewrite Hrun. cbn [snd]. clear Hrun Hcond.
    destruct (body s) as [sig| | | | | | | | |];
      try (split; [exact H1|]; split; reflexivity).
    destruct sig as [sg|].
    + destruct (bool_decide (Params sg = [])), (bool_decide (Returns sg = []));
        cbn [negb orb andb]; st_simpl; rewrite ?app_nil_r;
        (split; [exact H1|]); by split.
    + st_simpl. rewrite ?app_nil_r. (split; [exact H1|]); by split.
Qed.

(** A user-defined [__wasm_call_dtors] without parameter or result is
    recorded without error. *)
Lemma findCallDtors_cases_witness :
  callCtors (wasmSym state_user_dtors) = Some 0 ∧
  symVector (symtab state_user_dtors) !! 0 =
    Some (set_isUsedInRegularObj false callCtorsSym) ∧
  callDtors (wasmSym (exec (findCallDtors quietExternals) state_user_dtors)) = Some 1 ∧
  errors (exec (findCallDtors quietExternals) state_user_dtors) =
    errors state_user_dtors.
Proof.
  split; [reflexivity|]. split; [reflexivity|].
  destruct (findCallDtors_cases quietExternals state_user_dtors 0
              (set_isUsedInRegularObj false callCtorsSym) eq_refl eq_refl)
    as (_ & _ & H).
  destruct (H 1 (newSymbol "__wasm_call_dtors" (DefinedFunction (Some nullSignature)) 0)
              eq_refl eq_refl eq_refl eq_refl) as (_ & H1 & H2).
  split; [exact H1|]. rewrite H2. apply app_nil_r.
Defined.

(** X11. The last loop over --export in the driver.  Each exported name
    that is not held by a defined symbol is reported once per occurrence, in
    the order of the command line: as an error under the report-error
    policy, as a warning under the warn policy, and not at all under
    ignore-all and import-functions.  Every exported name that is held by a
    defined symbol has that symbol force-exported; no other member of any
    symbol changes, and the name index, the configuration and the
    synthetic-symbol pointers are as before. *)
Theorem forceExports_reports_missing (args : InputArgList) (st : LinkState) :
  let st' := exec (forceExports args) st in
  let missing := exportsNotFound (symtab st) (OPT_export args) in
  errors st' =
    errors st ++
    match unresolvedSymbols (config st) with ReportError => missing | _ => [] end ∧
  warnings st' =
    warnings st ++
    match unresolvedSymbols (config st) with Warn => missing | _ => [] end ∧
  config st' = config st ∧ wasmSym st' = wasmSym st ∧
  symMap (symtab st') = symMap (symtab st) ∧
  (∀ n p s, n ∈ OPT_export args → symMap (symtab st) !! n = Some p →
            symVector (symtab st) !! p = Some s → isDefined s = true →
            ∃ s', symVector (symtab st') !! p = Some s' ∧ forceExport s' = true) ∧
  (∀ q s, symVector (symtab st) !! q = Some s →
          ∃ s', symVector (symtab st') !! q = Some s' ∧
                (s' = s ∨
                 (s' = set_forceExport true s ∧ isDefined s = true ∧
                  ∃ n, n ∈ OPT_export args ∧ symMap (symtab st) !! n = Some q))).
Proof.
  cbn zeta. unfold forceExports.
  match goal with |- context [forEach _ ?B] =>
    destruct (exports_loop B forceExports_turn (OPT_export args) st)
      as (He & Hw & Hc & Hs & _ & Hm & _ & _ & Hv & Hx)
  end.
  by split_and!.
Qed.

(** ** Synthetic and optional symbols *)

Lemma run_createSyntheticSymbols_relocatable st :
  relocatable (config st) = true → createSyntheticSymbols st = (tt, st).
Proof.
  intros Hr. unfold createSyntheticSymbols.
  eapply run_bind_eq; [apply run_getConfig|]. by rewrite Hr.
Qed.

Lemma run_createOptionalSymbols_relocatable st :
  relocatable (config st) = true → createOptionalSymbols st = (tt, st).
Proof.
  intros Hr. unfold createOptionalSymbols.
  eapply run_bind_eq; [apply run_getConfig|]. by rewrite Hr.
Qed.

(** X12. Relocatable output gets no symbol from the linker: with -r,
    [createSyntheticSymbols] and [createOptionalSymbols] return at once, the
    entry symbol is not looked up, and the search for [__wasm_call_dtors] is
    skipped before [WasmSym::callCtors], which is null then, is read.  None
    of the four changes the state or calls a routine from outside. *)
Theorem relocatable_skips_synthesis (ext : Externals) (st : LinkState) :
  relocatable (config st) = true →
  createSyntheticSymbols st = (tt, st) ∧
  createOptionalSymbols st = (tt, st) ∧
  handleEntry ext st = (None, st) ∧
  findCallDtors ext st = (tt, st).
Proof.
  intros Hr. split_and!.
  - by apply run_createSyntheticSymbols_relocatable.
  - by apply run_createOptionalSymbols_relocatable.
  - unfold handleEntry. eapply run_bind_eq; [apply run_getConfig|]. by rewrite Hr.
  - unfold findCallDtors. rewrite run_bind, run_get. cbn [fst snd]. by rewrite Hr.
Qed.

(** X13. The types of the synthetic symbols.  [__wasm_call_ctors] is a
    hidden function defined by the linker with no parameter and no result,
    and [WasmSym::callCtors] points at it.  In position-independent mode the
    imported [__stack_pointer] is a mutable global and [__memory_base] an
    immutable one, both of pointer width (i64 under wasm64, else i32), while
    [__table_base] is an immutable i32 under either target.  With shared
    memory [__wasm_init_tls] takes one argument of pointer width and returns
    nothing. *)
Theorem synthetic_symbol_types (st : LinkState) :
  relocatable (config st) = false →
  fresh_names syntheticNames st →
  let st' := exec createSyntheticSymbols st in
  let wide := is64_or_false (config st) in
  let ptr := if wide then WASM_TYPE_I64 else WASM_TYPE_I32 in
  (∃ s, symbolNamed st' "__wasm_call_ctors" = Some s ∧
        body s = DefinedFunction (Some {| Returns := []; Params := [] |}) ∧
        flags s = WASM_SYMBOL_VISIBILITY_HIDDEN ∧
        callCtors (wasmSym st') = symMap (symtab st') !! "__wasm_call_ctors") ∧
  (isPic (config st) = true →
     body <$> symbolNamed st' "__stack_pointer" =
       Some (UndefinedGlobal None None
               (Some {| GT_Type := ptr; GT_Mutable := true |})) ∧
     body <$> symbolNamed st' "__memory_base" =
       Some (UndefinedGlobal None None
               (Some {| GT_Type := ptr; GT_Mutable := false |})) ∧
     body <$> symbolNamed st' "__table_base" =
       Some (UndefinedGlobal None None
               (Some {| GT_Type := WASM_TYPE_I32; GT_Mutable := false |}))) ∧
  (sharedMemory (config st) = true →
     body <$> symbolNamed st' "__wasm_init_tls" =
       Some (DefinedFunction
               (Some {| Returns := []; Params := [if wide then I64 else I32] |}))).
Proof.
  intros Hr Hf. cbn zeta. rewrite createSyntheticSymbols_fresh by done.
  unfold symbolNamed. cbn [config symtab wasmSym].
  unfold syntheticConfig, syntheticTable, syntheticWasmSym.
  destruct (isPic (config st)) eqn:Hp, (sharedMemory (config st)) eqn:Hs,
    (is64_or_false (config st)) eqn:Hw;
    cbn [callCtors set_stackPointer set_memoryBase set_tableBase set_tlsBase
         set_tlsSize set_tlsAlign set_initTLS set_callCtors].
  all: split_and!; try done.
  all: try (eexists; push_lookup; cbn [mbind option_bind]; push_lookup;
            split; [reflexivity|]; by split_and!).
  all: intros _; push_lookup; cbn [mbind option_bind]; push_lookup;
    cbn [fmap option_fmap option_map]; unfold initTLSSym; rewrite ?Hw;
    repeat split; reflexivity.
Qed.

(** X14. What [createSyntheticSymbols] adds.  On a table in which the
    synthetic names are new it appends two symbols, or four in
    position-independent mode, and four more with shared memory; the
    symbols that were there, the entries of other names, the errors, the
    warnings and the files are as before, and only in position-independent
    mode does the configuration change, by three names allowed to stay
    undefined. *)
Theorem synthetic_symbols_frame (st : LinkState) :
  relocatable (config st) = false →
  fresh_names syntheticNames st →
  let st' := exec createSyntheticSymbols st in
  length (symVector (symtab st')) =
    length (symVector (symtab st)) +
    (if isPic (config st) then 4 else 2) +
    (if sharedMemory (config st) then 4 else 0) ∧
  (∀ q, q < length (symVector (symtab st)) →
        symVector (symtab st') !! q = symVector (symtab st) !! q) ∧
  (∀ n, n ∉ syntheticNames → symMap (symtab st') !! n = symMap (symtab st) !! n) ∧
  errors st' = errors st ∧ warnings st' = warnings st ∧ files st' = files st ∧
  (isPic (config st) = false → config st' = config st) ∧
  (isPic (config st) = true →
   allowUndefinedSymbols (config st') =
     {["__table_base"; "__memory_base"; "__stack_pointer"]} ∪
     allowUndefinedSymbols (config st)).
Proof.
  intros Hr Hf. cbn zeta. rewrite createSyntheticSymbols_fresh by done.
  cbn [config symtab wasmSym errors warnings files].
  unfold syntheticConfig, syntheticTable.
  destruct (isPic (config st)) eqn:Hp, (sharedMemory (config st)) eqn:Hs.
  all: split_and!; try done.
  all: try (push_lookup; lia).
  all: try (intros q Hq; by push_lookup).
  all: try (intros n Hn; unfold syntheticNames in Hn;
            rewrite !not_elem_of_cons in Hn;
            destruct Hn as (? & ? & ? & ? & ? & ? & ? & ? & _); by push_lookup).
  all: intros _; cbn; set_solver.
Qed.

(** [-r] meets the hypothesis of X12. *)
Lemma relocatable_skips_synthesis_witness :
  relocatable (config (configuredState args_relocatable)) = true ∧
  createSyntheticSymbols (configuredState args_relocatable) =
    (tt, configuredState args_relocatable).
Proof.
  split; [reflexivity|].
  apply (relocatable_skips_synthesis quietExternals (configuredState args_relocatable)
           eq_refl).
Defined.

(** [-pie] on an empty table meets the hypotheses of X13. *)
Lemma synthetic_symbol_types_witness :
  relocatable (config (configuredState args_pie)) = false ∧
  fresh_names syntheticNames (configuredState args_pie) ∧
  body <$> symbolNamed (exec createSyntheticSymbols (configuredState args_pie))
             "__table_base" =
    Some (UndefinedGlobal None None
            (Some {| GT_Type := WASM_TYPE_I32; GT_Mutable := false |})).
Proof.
  assert (Hf : fresh_names syntheticNames (configuredState args_pie))
    by (repeat constructor).
  split_and!; [reflexivity | exact Hf |].
  destruct (synthetic_symbol_types (configuredState args_pie) eq_refl Hf)
    as (_ & H & _).
  apply (H eq_refl).
Defined.

(** [-pie] on an empty table meets the hypotheses of X14: four symbols
    are made. *)
Lemma synthetic_symbols_frame_witness :
  relocatable (config (configuredState args_pie)) = false ∧
  fresh_names syntheticNames (configuredState args_pie) ∧
  length (symVector (symtab (exec createSyntheticSymbols (configuredState args_pie))))
  = 4.
Proof.
  assert (Hf : fresh_names syntheticNames (configuredState args_pie))
    by (repeat constructor).
  split_and!; [reflexivity | exact Hf |].
  apply (synthetic_symbols_frame (configuredState args_pie) eq_refl Hf).
Defined.

Lemma same_reports_refl st : same_reports st st.
Proof. by unfold same_reports. Qed.

Lemma same_reports_trans st1 st2 st3 :
  same_reports st1 st2 → same_reports st2 st3 → same_reports st1 st3.
Proof. unfold same_reports. intros (-> & -> & -> & ->) (-> & -> & -> & ->). done. Qed.











(** ** The wrap transformer, without assumptions on the requests *)

Lemma run_addWrappedSymbol_unknown n st :
  symMap (symtab st) !! n = None → addWrappedSymbol n st = (None, st).
Proof.
  intros H. unfold addWrappedSymbol.
  eapply run_bind_eq; [apply run_symtab_find|]. by rewrite H.
Qed.

Lemma addWrappedSymbols_loop_unknown names :
  ∀ seen v st,
    (∀ n, n ∈ names → symMap (symtab st) !! n = None) →
    addWrappedSymbols_loop names seen v st = (v, st).
Proof.
  induction names as [|n names IH]; intros seen v st H; [reflexivity|].
  cbn [addWrappedSymbols_loop].
  assert (Hrest : ∀ n', n' ∈ names → symMap (symtab st) !! n' = None).
  { intros n' Hn'. apply H, elem_of_cons. by right. }
  destruct (decide (n ∈ seen)); [by apply IH|].
  eapply run_bind_eq.
  - apply run_addWrappedSymbol_unknown, H, elem_of_cons. by left.
  - by apply IH.
Qed.

(** X16. --wrap of names that the table does not hold is without effect:
    [addWrappedSymbols] makes no shadow symbol and no record and leaves the
    state as it is, so that the driver, which runs the rename pass only on a
    non-empty list of records, skips it. *)
Theorem wrap_of_unknown_names (args : InputArgList) (st : LinkState) :
  (∀ n, n ∈ OPT_wrap args → symMap (symtab st) !! n = None) →
  addWrappedSymbols args st = ([], st).
Proof. intros H. by apply addWrappedSymbols_loop_unknown. Qed.

Lemma symtab_wrap_frame a b c st :
  let st' := exec (symtab_wrap a b c) st in
  same_reports st st' ∧ wasmSym st' = wasmSym st ∧
  symVector (symtab st') = symVector (symtab st) ∧
  objectFiles (symtab st') = objectFiles (symtab st).
Proof.
  cbn zeta. unfold symtab_wrap.
  rewrite exec_bind, exec_bind, exec_bind. unfold exec.
  rewrite !run_getName. cbn [fst snd]. unfold modifySymtab, modify. cbn [snd].
  unfold same_reports. st_simpl.
  set (m := symMap (symtab st)).
  destruct (m !! from_option name "" (symVector (symtab st) !! a));
    match goal with |- context [match ?x with Some _ => _ | None => _ end] =>
      destruct x end; by split_and!.
Qed.

Lemma wrap_loop_frame ws :
  ∀ st,
    let st' := exec (forEach ws (λ w, symtab_wrap (w_sym w) (w_real w) (w_wrap w))) st in
    same_reports st st' ∧ wasmSym st' = wasmSym st ∧
    symVector (symtab st') = symVector (symtab st) ∧
    objectFiles (symtab st') = objectFiles (symtab st).
Proof.
  induction ws as [|w ws IH]; intros st; cbn zeta.
  - rewrite exec_forEach_nil. by split_and!.
  - rewrite exec_forEach_cons.
    destruct (symtab_wrap_frame (w_sym w) (w_real w) (w_wrap w) st)
      as (Q1 & W1 & V1 & O1).
    destruct (IH (exec (symtab_wrap (w_sym w) (w_real w) (w_wrap w)) st))
      as (Q2 & W2 & V2 & O2).
    split_and!; [exact (same_reports_trans _ _ _ Q1 Q2) | congruence..].
Qed.

Lemma wrapMap_not_key ws p : p ∉ wrap_keys ws → wrapMap ws !! p = None.
Proof.
  induction ws as [|w ws IH] using rev_ind; intros Hp; [apply lookup_empty|].
  rewrite wrap_keys_snoc in Hp. rewrite wrapMap_snoc.
  rewrite !not_elem_of_app, !not_elem_of_cons in Hp.
  destruct Hp as (Hp & Hs & Hr & _).
  rewrite !lookup_insert_ne by done. by apply IH.
Qed.

Lemma updateFile_as_map map f :
  updateFile map f =
    {| fileName := fileName f;
       symbols := (λ p, default p (map !! p)) <$> symbols f |}.
Proof.
  unfold updateFile. f_equal.
  rewrite updateSlots_spec by done. by rewrite take_0, drop_0.
Qed.

(** X17. The rename pass on the input files, for any list of records: each
    slot of each object file is rewritten by one lookup in the map of the
    records, so a slot that refers to no original and no real shadow of a
    record keeps its symbol and a rewritten slot is not rewritten again;
    the files keep their number, order, names and sizes; no symbol object
    changes and nothing is reported ([SymbolTable::wrap], which ends the
    pass, being taken to change the name index only). *)
Theorem wrapSymbols_rewrites_slots (ws : list WrappedSymbol) (st : LinkState) :
  let st' := exec (wrapSymbols ws) st in
  objectFiles (symtab st') =
    (λ f, {| fileName := fileName f;
             symbols := (λ p, default p (wrapMap ws !! p)) <$> symbols f |})
    <$> objectFiles (symtab st) ∧
  (∀ k i p, slot (symtab st) k i = Some p → p ∉ wrap_keys ws →
            slot (symtab st') k i = Some p) ∧
  (∀ k i, slot (symtab st') k i = None ↔ slot (symtab st) k i = None) ∧
  symVector (symtab st') = symVector (symtab st) ∧
  same_reports st st' ∧ wasmSym st' = wasmSym st.
Proof.
  cbn zeta. unfold wrapSymbols. cbn zeta. rewrite exec_bind.
  set (st1 := exec (modifySymtab _) st).
  destruct (wrap_loop_frame ws st1) as (Q & W & V & O).
  assert (Hslot : ∀ k i,
    slot (symtab (exec (forEach ws
            (λ w, symtab_wrap (w_sym w) (w_real w) (w_wrap w))) st1)) k i =
    (λ p, default p (wrapMap ws !! p)) <$> slot (symtab st) k i).
  { intros k i. unfold slot at 1. rewrite O.
    apply (slot_updateFile (wrapMap ws) (symtab st) k i). }
  split_and!.
  - rewrite O. unfold st1, exec, modifySymtab, modify. cbn.
    apply list_fmap_ext. intros _ f _. apply updateFile_as_map.
  - intros k i p Hp Hk. by rewrite Hslot, Hp; cbn; rewrite wrapMap_not_key.
  - intros k i. rewrite Hslot. by destruct (slot (symtab st) k i).
  - by rewrite V.
  - exact Q.
  - by rewrite W.
Qed.

(** [--wrap=foo] on an empty table meets the hypothesis of X16. *)
Lemma wrap_of_unknown_names_witness :
  (∀ n, n ∈ OPT_wrap args_wrap_foo →
        symMap (symtab (configuredState args_wrap_foo)) !! n = None) ∧
  addWrappedSymbols args_wrap_foo (configuredState args_wrap_foo) =
    ([], configuredState args_wrap_foo).
Proof.
  assert (H : ∀ n, n ∈ OPT_wrap args_wrap_foo →
                   symMap (symtab (configuredState args_wrap_foo)) !! n = None).
  { intros n _. reflexivity. }
  split; [exact H|].
  apply (wrap_of_unknown_names args_wrap_foo (configuredState args_wrap_foo) H).
Defined.

(** ** The order of the steps of the driver *)

Lemma linkerMain_follows ext args st0 :
  follows phaseOrder (linkerMain ext args st0).1 = true.
Proof.
  destruct (linkerMain ext args st0) as [tr fin] eqn:E. cbn [fst].
  unfold linkerMain in E. trace_inv E; reflexivity.
Qed.

Lemma follows_sublist order : ∀ tr, follows order tr = true → sublist tr order.
Proof.
  induction order as [|o order IH]; intros tr H; cbn [follows] in H.
  - apply bool_decide_eq_true in H as ->. constructor.
  - destruct tr as [|ph tr]; [apply sublist_nil_l|].
    destruct (decide (ph = o)) as [->|Hne].
    + apply sublist_skip. by apply IH.
    + apply andb_prop in H as [_ H]. apply sublist_cons. by apply IH.
Qed.

Lemma follows_mandatory order :
  NoDup order →
  ∀ tr, follows order tr = true →
  ∀ i j m ph, order !! i = Some m → order !! j = Some ph → i < j →
              ph ∈ tr → m ∉ optionalPhases → m ∈ tr.
Proof.
  induction order as [|o order IH]; intros Hnd tr H i j m ph Hi Hj Hij Hph Hm;
    [done|].
  apply NoDup_cons in Hnd as [Ho Hnd]. cbn [follows] in H.
  destruct tr as [|ph0 tr]; [by apply elem_of_nil in Hph|].
  destruct j as [|j]; [lia|]. cbn in Hj.
  destruct (decide (ph0 = o)) as [->|Hne].
  - destruct i as [|i]; cbn in Hi.
    + injection Hi as <-. apply elem_of_cons. by left.
    + apply elem_of_cons. right.
      apply (IH Hnd tr H i j m ph Hi Hj); [lia| |done].
      apply elem_of_cons in Hph as [->|Hph]; [|done].
      exfalso. apply Ho. by eapply list_elem_of_lookup_2.
  - apply andb_prop in H as [Hopt H]. apply bool_decide_eq_true in Hopt.
    destruct i as [|i]; cbn in Hi.
    + injection Hi as <-. done.
    + apply (IH Hnd _ H i j m ph Hi Hj); [lia|done|done].
Qed.

Lemma NoDup_phaseOrder : NoDup phaseOrder.
Proof. apply (bool_decide_unpack (NoDup phaseOrder)). vm_compute. exact I. Qed.

(** X18. The steps of [linkerMain] run in one fixed order, whatever the
    routines outside do: the steps taken are a subsequence of the order of
    the source, each at most once; a step is taken only after every step
    before it, other than the rename pass, the weak-undefined pass and the
    table resolver, has been taken; and when the result is written, all of
    the other steps have run, except possibly those three. *)
Theorem linkerMain_phase_order (ext : Externals) (args : InputArgList)
    (st0 : LinkState) :
  let tr := (linkerMain ext args st0).1 in
  sublist tr phaseOrder ∧ NoDup tr ∧
  (∀ m ph, ph ∈ tr → before m ph → m ∉ optionalPhases → m ∈ tr) ∧
  (PhWriteResult ∈ tr → ∀ m, m ∉ optionalPhases → m ∈ tr).
Proof.
  cbn zeta. pose proof (linkerMain_follows ext args st0) as H.
  set (tr := (linkerMain ext args st0).1) in *. clearbody tr.
  pose proof (follows_sublist _ _ H) as Hsub.
  assert (Hbefore : ∀ m ph, ph ∈ tr → before m ph → m ∉ optionalPhases → m ∈ tr).
  { intros m ph Hph (i & j & Hi & Hj & Hij) Hm.
    exact (follows_mandatory _ NoDup_phaseOrder tr H i j m ph Hi Hj Hij Hph Hm). }
  split_and!; [exact Hsub | | exact Hbefore |].
  - eapply sublist_NoDup; [exact NoDup_phaseOrder | exact Hsub].
  - intros Hw m Hm.
    destruct (decide (m = PhWriteResult)) as [->|Hne]; [done|].
    apply (Hbefore m PhWriteResult Hw); [|done].
    assert (Hin : m ∈ phaseOrder)
      by (destruct m; apply (bool_decide_unpack _); vm_compute; exact I).
    apply list_elem_of_lookup_1 in Hin as [i Hi].
    exists i, 25. split; [done|]. split; [reflexivity|].
    assert (i < 26) by (apply lookup_lt_Some in Hi; exact Hi).
    destruct (decide (i = 25)) as [->|]; [|lia].
    cbn in Hi. congruence.
Qed.

Lemma run_createFiles ext args st :
  createFiles ext args st =
    let '(fs, errs, imports) := addInputs ext args (config st) in
    let st1 :=
      with_errors (errors st ++ errs)
        (with_config
           (set_allowUndefinedSymbols (imports ∪ allowUndefinedSymbols (config st))
              (config st))
           (with_files (files st ++ fs) st)) in
    (tt, if bool_decide (files st1 = []) && bool_decide (errorCount st1 = 0)
         then with_errors (errors st1 ++ ["no input files"]) st1 else st1).
Proof.
  unfold createFiles. rewrite run_bind, run_getConfig. cbn [fst snd].
  destruct (addInputs ext args (config st)) as [[fs errs] imports].
  rewrite run_bind. cbn [modify fst snd]. rewrite run_bind. cbn [modifyConfig modify fst snd].
  rewrite run_bind.
  assert (Herr : ∀ l s, forEach l error s = (tt, with_errors (errors s ++ l) s)).
  { clear. induction l as [|e l IH]; intros s.
    - cbn. by rewrite with_errors_nil.
    - cbn [forEach]. rewrite run_bind, run_error. cbn [fst snd]. rewrite IH.
      unfold with_errors. cbn. by rewrite <- app_assoc. }
  rewrite Herr. cbn [fst snd]. rewrite run_bind, run_get. cbn [fst snd].
  rewrite run_when. reflexivity.
Qed.

Lemma createFiles_grows ext args st :
  let st' := exec (createFiles ext args) st in
  (∃ l, errors st' = errors st ++ l) ∧
  symtab st' = symtab st ∧ wasmSym st' = wasmSym st ∧
  (files st = [] → (addInputs ext args (config st)).1.1 = [] → errorCount st' ≠ 0).
Proof.
  cbn zeta. unfold exec. rewrite run_createFiles.
  destruct (addInputs ext args (config st)) as [[fs errs] imports]. cbn zeta. cbn [fst snd].
  case_bool_decide as Hf; [case_bool_decide as He|]; cbn [andb]; st_simpl.
  - split_and!; try done.
    + exists (errs ++ ["no input files"]). by rewrite app_assoc.
    + intros _ _. unfold errorCount. cbn. rewrite !length_app. cbn. lia.
  - split_and!; try done. by exists errs.
  - split_and!; try done; [by exists errs|].
    intros Hs Hfs. cbn in Hfs. subst fs. rewrite Hs in Hf. by destruct Hf.
Qed.

Lemma reproduce_grows ext args st :
  let st' := exec (from_option (λ e, error ("--reproduce: " +:+ e)) (mret tt)
                     (createTarWriter ext args)) st in
  (∃ l, errors st' = errors st ++ l) ∧ symtab st' = symtab st ∧
  wasmSym st' = wasmSym st ∧ files st' = files st ∧ config st' = config st.
Proof.
  cbn zeta. destruct (createTarWriter ext args) as [e|]; cbn [from_option].
  - rewrite exec_error. split_and!; try done. by eexists.
  - rewrite exec_ret. split_and!; try done. exists []. by rewrite app_nil_r.
Qed.

(** The driver up to its first test of the error count. *)
Lemma linkerMain_first_gate ext args st0 :
  OPT_help args = false → OPT_version args || OPT_v args = false →
  let st2 :=
    exec (createFiles ext args)
      (exec (readConfigs ext args)
         (exec (from_option (λ e, error ("--reproduce: " +:+ e)) (mret tt)
                  (createTarWriter ext args)) st0)) in
  errorCount st2 ≠ 0 →
  linkerMain ext args st0 = ([PhReproduce; PhReadConfigs; PhCreateFiles], st2).
Proof.
  intros Hh Hv. cbn zeta. intros He.
  destruct (linkerMain ext args st0) as [tr fin] eqn:E.
  unfold linkerMain in E. rewrite Hh, Hv in E.
  apply step_inv in E as (? & ? & s0 & E0 & -> & E).
  apply step_inv in E as (? & ? & s1 & E1 & -> & E).
  apply step_inv in E as (? & ? & s2 & E2 & -> & E).
  apply exec_of_run in E0, E1, E2. subst s0 s1 s2.
  apply gate_inv in E as [[H0 _] | (_ & -> & ->)]; [done | reflexivity].
Qed.

(** X19. An option value that [readConfigs] rejects ends the link at the
    first test of the error count: with an unknown --unresolved-symbols
    value, a -m value other than wasm32 and wasm64, or a --threads value that
    is not a positive integer, the driver stops after [createFiles], with
    errors recorded and with the symbol table and the synthetic-symbol
    pointers as they were. *)
Theorem rejected_value_stops_link (ext : Externals) (args : InputArgList)
    (st0 : LinkState) :
  OPT_help args = false → OPT_version args || OPT_v args = false →
  (∃ s, OPT_unresolved_symbols args = Some s ∧ s ∉ policyNames) ∨
  (∃ s, OPT_m args = Some s ∧ s ≠ "wasm32" ∧ s ≠ "wasm64") ∨
  (∃ v, OPT_threads args = Some v ∧
        (to_integer ext v = None ∨ to_integer ext v = Some 0%Z)) →
  ∃ fin,
    linkerMain ext args st0 = ([PhReproduce; PhReadConfigs; PhCreateFiles], fin) ∧
    errorCount fin ≠ 0 ∧ symtab fin = symtab st0 ∧ wasmSym fin = wasmSym st0.
Proof.
  intros Hh Hv Hbad. eexists. split; [apply linkerMain_first_gate; [done..|]|].
  all: destruct (reproduce_grows ext args st0) as ([l0 E0] & T0 & W0 & _);
    cbn zeta in E0, T0, W0;
    set (sa := exec (from_option _ _ (createTarWriter ext args)) st0) in *;
    clearbody sa.
  all: pose proof (readConfigs_state ext args sa) as E1;
    set (sb := exec (readConfigs ext args) sa) in *; clearbody sb.
  all: destruct (createFiles_grows ext args sb) as ([l2 E2] & T2 & W2 & _);
    cbn zeta in E2, T2, W2;
    set (sc := exec (createFiles ext args) sb) in *; clearbody sc.
  all: assert (Hne : errorCount sc ≠ 0).
  1,3: unfold errorCount; rewrite E2, E1; cbn [errors with_errors];
    rewrite !length_app;
    destruct Hbad as [(s & -> & Hs) | [(s & -> & H1 & H2) | (v & -> & Hz)]].
  1,4: rewrite bool_decide_eq_false_2 by done; cbn; lia.
  1,3: rewrite !bool_decide_eq_false_2 by done; cbn [orb length]; lia.
  1,2: destruct Hz as [-> | ->]; cbn [Z.eqb length]; lia.
  - exact Hne.
  - split; [exact Hne|]. rewrite T2, W2, E1. by split.
Qed.

(** X20. A link without input files does not get past [createFiles].  When
    the reading loop leaves the list of files empty, [createFiles] ends with
    at least one error: those recorded so far or, when there is none, the
    one error "no input files"; the driver then stops at its first test of
    the error count. *)
Theorem no_input_files_stops_link (ext : Externals) (args : InputArgList) :
  (∀ st, files st = [] → (addInputs ext args (config st)).1.1 = [] →
         let st' := exec (createFiles ext args) st in
         files st' = [] ∧ errorCount st' ≠ 0 ∧
         (errors st = [] → (addInputs ext args (config st)).1.2 = [] →
          errors st' = ["no input files"])) ∧
  (∀ st0, OPT_help args = false → OPT_version args || OPT_v args = false →
          files st0 = [] → (∀ c, (addInputs ext args c).1.1 = []) →
          ∃ fin,
            linkerMain ext args st0 =
              ([PhReproduce; PhReadConfigs; PhCreateFiles], fin) ∧
            errorCount fin ≠ 0 ∧ files fin = []).
Proof.
  assert (H1 : ∀ st, files st = [] → (addInputs ext args (config st)).1.1 = [] →
               let st' := exec (createFiles ext args) st in
               files st' = [] ∧ errorCount st' ≠ 0 ∧
               (errors st = [] → (addInputs ext args (config st)).1.2 = [] →
                errors st' = ["no input files"])).
  { intros st Hf Ha. cbn zeta. unfold exec. rewrite run_createFiles.
    destruct (addInputs ext args (config st)) as [[fs errs] imports].
    cbn [fst snd] in Ha. subst fs. cbn zeta. cbn [fst snd].
    st_simpl. rewrite Hf. cbn [app]. rewrite bool_decide_eq_true_2 by done.
    cbn [andb]. unfold errorCount. st_simpl.
    case_bool_decide as He; st_simpl.
    - split; [done|]. split; [rewrite length_app; cbn; lia|].
      intros -> ->. reflexivity.
    - split; [done|]. split; [done|]. intros Ha Hb. exfalso. apply He.
      by rewrite Ha, Hb. }
  split; [exact H1|].
  intros st0 Hh Hv Hf Ha. eexists.
  split; [apply linkerMain_first_gate; [done..|]|].
  all: destruct (reproduce_grows ext args st0) as (_ & _ & _ & F0 & _);
    cbn zeta in F0;
    set (sa := exec (from_option _ _ (createTarWriter ext args)) st0) in *;
    clearbody sa.
  all: pose proof (readConfigs_state ext args sa) as E1;
    set (sb := exec (readConfigs ext args) sa) in *.
  all: assert (Fb : files sb = []) by (rewrite E1; cbn; congruence).
  all: clearbody sb; destruct (H1 sb Fb (Ha _)) as (F2 & E2 & _).
  - exact E2.
  - by split.
Qed.

(** [-m wasm16] meets the hypotheses of X19. *)
Lemma rejected_value_stops_link_witness :
  OPT_help args_wasm16 = false ∧ OPT_version args_wasm16 || OPT_v args_wasm16 = false ∧
  OPT_m args_wasm16 = Some "wasm16" ∧
  ∃ fin, linkerMain quietExternals args_wasm16 initialState =
           ([PhReproduce; PhReadConfigs; PhCreateFiles], fin) ∧
         errorCount fin ≠ 0.
Proof.
  split_and!; [reflexivity | reflexivity | reflexivity |].
  destruct (rejected_value_stops_link quietExternals args_wasm16 initialState
              eq_refl eq_refl) as (fin & H1 & H2 & _).
  { right. left. exists "wasm16". split_and!; [reflexivity | discriminate | discriminate]. }
  exists fin. split; [exact H1 | exact H2].
Defined.

(** A command line without input files stops after [createFiles]. *)
Lemma no_input_files_stops_link_witness :
  OPT_help args_plain = false ∧ OPT_version args_plain || OPT_v args_plain = false ∧
  files initialState = [] ∧
  (∀ c, (addInputs noInputExternals args_plain c).1.1 = []) ∧
  ∃ fin, linkerMain noInputExternals args_plain initialState =
           ([PhReproduce; PhReadConfigs; PhCreateFiles], fin) ∧
         errorCount fin ≠ 0.
Proof.
  assert (H0 : ∀ c, (addInputs noInputExternals args_plain c).1.1 = [])
    by (intros c; reflexivity).
  split_and!; [reflexivity | reflexivity | reflexivity | exact H0 |].
  destruct (no_input_files_stops_link noInputExternals args_plain) as [_ H].
  destruct (H initialState eq_refl eq_refl eq_refl H0) as (fin & H1 & H2 & _).
  exists fin. split; [exact H1 | exact H2].
Defined.

(** ** Defaults that meet later steps *)

(** X21. The entry point from the command line to the entry step.  The
    last of --entry and --no-entry decides; without either the entry is
    empty with -r, else [__wasm_call_ctors] with -shared, else [_start].
    With --no-entry, and with -r when no entry is named, the entry step of
    the driver looks up no symbol and records no error. *)
Theorem entry_point_defaults (ext : Externals) (args : InputArgList)
    (st : LinkState) :
  let st' := exec (readConfigs ext args) st in
  entry (config st') =
    match OPT_entry args with
    | Some (Some v) => v
    | Some None => ""
    | None => if OPT_relocatable args then ""
              else if OPT_shared args then "__wasm_call_ctors" else "_start"
    end ∧
  (OPT_entry args = Some None ∨ (OPT_entry args = None ∧ OPT_relocatable args = true) →
   handleEntry ext st' = (None, st')).
Proof.
  cbn zeta. split.
  - rewrite readConfigs_config. cbn [entry]. unfold getEntry.
    by destruct (OPT_entry args) as [[v|]|].
  - intros H. unfold handleEntry.
    eapply run_bind_eq; [apply run_getConfig|].
    rewrite readConfigs_config. cbn [entry relocatable]. unfold getEntry.
    destruct H as [-> | [-> ->]]; unfold emptyString;
      rewrite bool_decide_eq_true_2 by done; by rewrite andb_false_r.
Qed.

(** X22. The width of the globals that the linker defines follows -m.  From
    a configuration in which the target is not set, as [link] makes it,
    [createGlobal] gives a global of type i64 initialised by [i64.const 0]
    exactly when -m wasm64 is given, and of type i32 initialised by
    [i32.const 0] otherwise, also when the value of -m is rejected; the
    mutability and the name are those asked for, and the state is not
    changed. *)
Theorem global_width_follows_target (ext : Externals) (args : InputArgList)
    (st : LinkState) (n : string) (isMutable : bool) :
  is64 (config st) = None →
  let st' := exec (readConfigs ext args) st in
  let g := eval (createGlobal n isMutable) st' in
  let wide := bool_decide (OPT_m args = Some "wasm64") in
  exec (createGlobal n isMutable) st' = st' ∧
  GT_Type (G_Type g) = (if wide then WASM_TYPE_I64 else WASM_TYPE_I32) ∧
  IE_Opcode (G_InitExpr g) =
    (if wide then WASM_OPCODE_I64_CONST else WASM_OPCODE_I32_CONST) ∧
  IE_Value (G_InitExpr g) = 0%Z ∧
  GT_Mutable (G_Type g) = isMutable ∧ G_SymbolName g = n.
Proof.
  intros H64. cbn zeta.
  pose proof (readConfigs_config ext args st) as Hc.
  set (st' := exec (readConfigs ext args) st) in *. clearbody st'.
  unfold eval, exec, createGlobal.
  rewrite run_bind, run_getConfig. cbn [fst snd].
  unfold is64_or_false. rewrite Hc. cbn [is64]. rewrite H64.
  destruct (OPT_m args) as [s|].
  - destruct (decide (s = "wasm64")) as [->|Hs].
    + rewrite bool_decide_eq_false_2 by done.
      rewrite !bool_decide_eq_true_2 by done. by cbn.
    + rewrite (bool_decide_eq_false_2 (s = "wasm64")) by done.
      rewrite (bool_decide_eq_false_2 (Some s = Some "wasm64")) by congruence.
      by destruct (bool_decide (s = "wasm32")).
  - rewrite bool_decide_eq_false_2 by done. by cbn.
Qed.

(** [-m wasm64] from the initial state meets the hypothesis of X22. *)
Lemma global_width_follows_target_witness :
  is64 (config initialState) = None ∧
  GT_Type
    (G_Type
       (eval (createGlobal "__stack_pointer" true)
          (exec (readConfigs quietExternals args_wasm64) initialState)))
  = WASM_TYPE_I64.
Proof.
  split; [reflexivity|].
  apply (global_width_follows_target quietExternals args_wasm64 initialState
           "__stack_pointer" true eq_refl).
Defined.

(** With [--no-entry] the entry step does nothing. *)
Lemma entry_point_defaults_witness :
  OPT_entry args_no_entry = Some None ∧
  handleEntry quietExternals (exec (readConfigs quietExternals args_no_entry) initialState)
  = (None, exec (readConfigs quietExternals args_no_entry) initialState).
Proof.
  split; [reflexivity|].
  destruct (entry_point_defaults quietExternals args_no_entry initialState) as [_ H].
  apply H. left. reflexivity.
Defined.

(** ** Reading the inputs *)

Module InputFacts.
Import Inputs.

Lemma run_bindO_Done {A B} (m : Link (Outcome A)) (f : A → Link (Outcome B))
    st x st1 r :
  m st = (Done x, st1) → f x st1 = r → bindO m f st = r.
Proof. intros H1 H2. unfold bindO. by rewrite run_bind, H1. Qed.

Lemma run_bindO_Exited {A B} (m : Link (Outcome A)) (f : A → Link (Outcome B))
    st st1 :
  m st = (Exited, st1) → bindO m f st = (Exited, st1).
Proof. intros H1. unfold bindO. by rewrite run_bind, H1. Qed.

Lemma run_fatal {A} msg st :
  fatal (A := A) msg st = (Exited, with_errors (errors st ++ [msg]) st).
Proof. reflexivity. Qed.

Lemma run_addLibrary_loop_miss fs d name dirs st :
  (∀ p, p ∈ dirs →
        fs_exists fs (path_append fs p ("lib" +:+ name +:+ ".a")) = false) →
  addLibrary_loop fs d name dirs st =
    (Done d, with_errors (errors st ++ ["unable to find library -l" +:+ name]) st).
Proof.
  induction dirs as [|dir dirs IH]; intros H; [reflexivity|].
  cbn [addLibrary_loop]. unfold findFile. cbn zeta.
  rewrite H by (apply elem_of_cons; by left).
  apply IH. intros p Hp. apply H, elem_of_cons. by right.
Qed.

Lemma run_addLibrary_loop_hit fs d name pre dir post st :
  (∀ p, p ∈ pre →
        fs_exists fs (path_append fs p ("lib" +:+ name +:+ ".a")) = false) →
  fs_exists fs (path_append fs dir ("lib" +:+ name +:+ ".a")) = true →
  addLibrary_loop fs d name (pre ++ dir :: post) st =
    addFile fs d (path_append fs dir ("lib" +:+ name +:+ ".a")) st.
Proof.
  induction pre as [|p pre IH]; intros Hpre Hdir.
  - cbn [app addLibrary_loop]. unfold findFile. cbn zeta. by rewrite Hdir.
  - cbn [app addLibrary_loop]. unfold findFile at 1. cbn zeta.
    rewrite Hpre by (apply elem_of_cons; by left).
    apply IH; [|done]. intros q Hq. apply Hpre, elem_of_cons. by right.
Qed.

(** X23. [addLibrary] takes the first search path, in the order of -L, in
    which [lib<name>.a] exists, and loads that file as [addFile] does; the
    paths after it are not looked at.  When the file exists in no search
    path, and so when there is no search path at all, the only effect is the
    error "unable to find library -l<name>". *)
Theorem addLibrary_search (fs : FileSystem) (d : Driver fs) (name : string)
    (st : LinkState) :
  let lib := "lib" +:+ name +:+ ".a" in
  (∀ pre dir post,
     searchPaths fs = pre ++ dir :: post →
     (∀ p, p ∈ pre → fs_exists fs (path_append fs p lib) = false) →
     fs_exists fs (path_append fs dir lib) = true →
     addLibrary fs d name st = addFile fs d (path_append fs dir lib) st) ∧
  ((∀ p, p ∈ searchPaths fs → fs_exists fs (path_append fs p lib) = false) →
   addLibrary fs d name st =
     (Done d, with_errors (errors st ++ ["unable to find library -l" +:+ name]) st)).
Proof.
  cbn zeta. split.
  - intros pre dir post Hs Hpre Hdir. unfold addLibrary. rewrite Hs.
    by apply run_addLibrary_loop_hit.
  - intros H. by apply run_addLibrary_loop_miss.
Qed.

(** [-lc]: [/usr/lib] does not hold [libc.a], [/opt/lib] does. *)
Lemma addLibrary_search_witness :
  searchPaths sampleFiles = ["/usr/lib"] ++ "/opt/lib" :: [] ∧
  (∀ p, p ∈ ["/usr/lib"] →
        fs_exists sampleFiles (path_append sampleFiles p ("lib" +:+ "c" +:+ ".a")) = false) ∧
  fs_exists sampleFiles (path_append sampleFiles "/opt/lib" ("lib" +:+ "c" +:+ ".a")) = true ∧
  addLibrary sampleFiles (newDriver sampleFiles) "c" initialState =
    addFile sampleFiles (newDriver sampleFiles) "/opt/lib/libc.a" initialState.
Proof.
  assert (H0 : ∀ p, p ∈ ["/usr/lib"] →
    fs_exists sampleFiles (path_append sampleFiles p ("lib" +:+ "c" +:+ ".a")) = false).
  { intros p Hp. apply list_elem_of_singleton in Hp. rewrite Hp. reflexivity. }
  split_and!; [reflexivity | exact H0 | reflexivity |].
  destruct (addLibrary_search sampleFiles (newDriver sampleFiles) "c" initialState)
    as [H _].
  apply (H ["/usr/lib"] "/opt/lib" [] eq_refl H0 eq_refl).
Defined.

Lemma run_createFiles_turn_other fs d arg st :
  read_by_createFiles arg = false → createFiles_turn fs d arg st = (Done d, st).
Proof. unfold read_by_createFiles, createFiles_turn. by destruct (arg_id arg). Qed.

Lemma createFiles_loop_filter fs args :
  ∀ d st, createFiles_loop fs (filter (λ a, read_by_createFiles a = true) args) d st =
          createFiles_loop fs args d st.
Proof.
  induction args as [|a args IH]; intros d st; [reflexivity|].
  rewrite filter_cons. destruct (decide (read_by_createFiles a = true)) as [Ha|Ha].
  - cbn [createFiles_loop]. unfold bindO. rewrite !run_bind.
    destruct (createFiles_turn fs d a st) as [[d1|] st1]; cbn [fst snd]; [apply IH|done].
  - apply not_true_is_false in Ha. rewrite IH. cbn [createFiles_loop].
    symmetry. eapply run_bindO_Done; [by apply run_createFiles_turn_other|done].
Qed.

(** What one file or one library adds: the driver keeps its flag and its
    files, with new ones after them. *)
Lemma addMembers_extends fs path ms :
  ∀ d st d' st',
    addMembers fs path ms d st = (Done d', st') →
    inWholeArchive d' = inWholeArchive d ∧ ∃ new, loaded d' = loaded d ++ new.
Proof.
  induction ms as [|m ms IH]; intros d st d' st' H; cbn [addMembers] in H.
  - injection H as <- <-. split; [done|]. exists []. by rewrite app_nil_r.
  - destruct (createObjectFile fs m path) as [o|msg]; [|done].
    apply IH in H as [Hf [new Hn]]. split; [done|].
    exists (LoadedObject o true :: new). rewrite Hn. cbn. by rewrite <- app_assoc.
Qed.

Lemma bindO_Done_inv {A B} (m : Link (Outcome A)) (f : A → Link (Outcome B))
    st y st' :
  bindO m f st = (Done y, st') →
  ∃ x st1, m st = (Done x, st1) ∧ f x st1 = (Done y, st').
Proof.
  unfold bindO. rewrite run_bind. destruct (m st) as [[x|] st1]; cbn [fst snd].
  - intros H. by exists x, st1.
  - done.
Qed.

Lemma addFile_extends fs d path st d' st' :
  addFile fs d path st = (Done d', st') →
  inWholeArchive d' = inWholeArchive d ∧ ∃ new, loaded d' = loaded d ++ new.
Proof.
  unfold addFile. rewrite run_bind.
  destruct (readFile fs path st) as [[mb|] st1]; cbn [fst snd].
  2:{ intros [= <- <-]. split; [done|]. exists []. by rewrite app_nil_r. }
  destruct (identify_magic fs mb).
  - rewrite run_bind. cbn [fst snd].
    set (st2 := (when _ _ st1).2). clearbody st2.
    destruct (inWholeArchive d) eqn:Hw.
    + intros H. apply bindO_Done_inv in H as (ms & st3 & _ & H).
      apply addMembers_extends in H as [Hf Hn]. by rewrite Hf.
    + intros H. apply bindO_Done_inv in H as (file & st3 & _ & H).
      rewrite run_bind in H. cbn [fst snd] in H. injection H as <- <-.
      split; [done|]. by eexists.
  - destruct (createObjectFile fs mb "") as [o|msg]; [|done].
    intros [= <- <-]. split; [done|]. by eexists.
  - destruct (createObjectFile fs mb "") as [o|msg]; [|done].
    intros [= <- <-]. split; [done|]. by eexists.
  - rewrite run_bind. cbn [fst snd]. intros [= <- <-].
    split; [done|]. exists []. by rewrite app_nil_r.
Qed.

Lemma addLibrary_loop_extends fs d name dirs st d' st' :
  addLibrary_loop fs d name dirs st = (Done d', st') →
  inWholeArchive d' = inWholeArchive d ∧ ∃ new, loaded d' = loaded d ++ new.
Proof.
  induction dirs as [|dir dirs IH]; cbn [addLibrary_loop].
  - intros [= <- <-]. split; [done|]. exists []. by rewrite app_nil_r.
  - destruct (findFile fs dir _); [apply addFile_extends | exact IH].
Qed.

Lemma createFiles_loop_extends fs args :
  ∀ d st d' st',
    createFiles_loop fs args d st = (Done d', st') →
    inWholeArchive d' = wholeArchiveAfter args (inWholeArchive d) ∧
    ∃ new, loaded d' = loaded d ++ new.
Proof.
  induction args as [|a args IH]; intros d st d' st' H; cbn [createFiles_loop] in H.
  - injection H as <- <-. split; [done|]. exists []. by rewrite app_nil_r.
  - apply bindO_Done_inv in H as (d1 & st1 & H1 & H).
    apply IH in H as [Hf [new Hn]].
    assert (H1' : inWholeArchive d1 =
                  match arg_id a with
                  | ID_whole_archive => true
                  | ID_no_whole_archive => false
                  | _ => inWholeArchive d
                  end ∧ ∃ new1, loaded d1 = loaded d ++ new1).
    { unfold createFiles_turn in H1. destruct (arg_id a).
      - by apply addLibrary_loop_extends in H1.
      - by apply addFile_extends in H1.
      - injection H1 as <- <-. split; [done|]. exists []. by rewrite app_nil_r.
      - injection H1 as <- <-. split; [done|]. exists []. by rewrite app_nil_r.
      - injection H1 as <- <-. split; [done|]. exists []. by rewrite app_nil_r.
      - injection H1 as <- <-. split; [done|]. exists []. by rewrite app_nil_r.
      - injection H1 as <- <-. split; [done|]. exists []. by rewrite app_nil_r. }
    destruct H1' as [Hf1 [new1 Hn1]]. split.
    + rewrite Hf. unfold wholeArchiveAfter. cbn [foldl]. by rewrite Hf1.
    + exists (new1 ++ new). by rewrite Hn, Hn1, app_assoc.
Qed.

(** X24. [createFiles] as a loop.  Of the command line it reads only -l,
    the inputs, --whole-archive and --no-whole-archive: with the other
    arguments removed it does the same.  When it returns, the files that
    were there are still first and in order, new ones after them;
    [inWholeArchive] is what the last of the two flags says, or what it was;
    and a run that ends with no file at all ends with an error. *)
Theorem createFiles_reads_in_order (fs : FileSystem) (args : list Arg)
    (d : Driver fs) (st : LinkState) :
  createFiles fs (filter (λ a, read_by_createFiles a = true) args) d st =
    createFiles fs args d st ∧
  ∀ d' st', createFiles fs args d st = (Done d', st') →
    (∃ new, loaded d' = loaded d ++ new) ∧
    inWholeArchive d' = wholeArchiveAfter args (inWholeArchive d) ∧
    (loaded d' = [] → errorCount st' ≠ 0).
Proof.
  split.
  - unfold createFiles, bindO. rewrite !run_bind. by rewrite createFiles_loop_filter.
  - intros d' st' H. unfold createFiles in H.
    apply bindO_Done_inv in H as (d1 & st1 & H1 & H).
    apply createFiles_loop_extends in H1 as [Hf Hn].
    rewrite run_bind, run_get in H. cbn [fst snd] in H.
    rewrite run_bind, run_when in H. cbn [fst snd] in H.
    injection H as <- <-. split; [done|]. split; [done|].
    intros He. rewrite bool_decide_eq_true_2 by done. cbn [andb].
    case_bool_decide as H0; [|done].
    rewrite exec_error. unfold errorCount. cbn. rewrite length_app. cbn. lia.
Qed.

(** The one input [a.o]: it is loaded, and [inWholeArchive] stays off. *)
Lemma createFiles_reads_in_order_witness :
  createFiles sampleFiles [arg_a_o] (newDriver sampleFiles) initialState =
    (Done (push_back (LoadedObject ("a.o" : ObjFile sampleFiles) false)
             (newDriver sampleFiles)),
     initialState) ∧
  inWholeArchive
    (push_back (LoadedObject ("a.o" : ObjFile sampleFiles) false) (newDriver sampleFiles))
  = wholeArchiveAfter [arg_a_o] (inWholeArchive (newDriver sampleFiles)).
Proof.
  assert (H0 : createFiles sampleFiles [arg_a_o] (newDriver sampleFiles) initialState =
    (Done (push_back (LoadedObject ("a.o" : ObjFile sampleFiles) false)
             (newDriver sampleFiles)),
     initialState)) by reflexivity.
  split; [exact H0|].
  destruct (createFiles_reads_in_order sampleFiles [arg_a_o] (newDriver sampleFiles)
              initialState) as [_ H].
  apply (H _ _ H0).
Defined.

Lemma run_getArchiveMembers_loop_ok fs mb ms :
  ∀ v st, getArchiveMembers_loop fs mb (inl <$> ms) v st = (Done (v ++ ms), st).
Proof.
  induction ms as [|m ms IH]; intros v st; cbn [fmap list_fmap getArchiveMembers_loop].
  - by rewrite app_nil_r.
  - eapply run_bindO_Done; [reflexivity|]. rewrite IH. by rewrite <- app_assoc.
Qed.

Lemma run_getArchiveMembers_loop_bad fs mb ms e rest :
  ∀ v st,
    getArchiveMembers_loop fs mb ((inl <$> ms) ++ inr e :: rest) v st =
      (Exited,
       with_errors
         (errors st ++
          [checkMessage fs
             (getBufferIdentifier fs mb +:+
              ": could not get the buffer for a child of the archive") e]) st).
Proof.
  induction ms as [|m ms IH]; intros v st;
    cbn [fmap list_fmap app getArchiveMembers_loop].
  - by apply run_bindO_Exited.
  - eapply run_bindO_Done; [reflexivity|]. apply IH.
Qed.

Lemma run_addMembers_ok fs path ms objs :
  Forall2 (λ m o, createObjectFile fs m path = inl o) ms objs →
  ∀ d st,
    addMembers fs path ms d st =
      (Done {| inWholeArchive := inWholeArchive d;
               loaded := loaded d ++ ((λ o, LoadedObject o true) <$> objs) |}, st).
Proof.
  induction 1 as [|m o ms objs Hm _ IH]; intros d st; cbn [addMembers].
  - cbn. rewrite app_nil_r. by destruct d.
  - rewrite Hm, IH. cbn. by rewrite <- app_assoc.
Qed.

(** X25. An archive on the command line, in its two modes.  After
    --whole-archive each member becomes an object file marked live, in the
    order of the archive, and the archive is not asked for an index; a
    member whose buffer cannot be read ends the process before any member is
    loaded.  Otherwise the archive itself is kept, also when it is reported
    as having no index, which happens exactly when it is not empty and has
    no symbol table.  In either mode the import file beside the archive, if
    there is one, is read first. *)
Theorem archive_loading_modes (fs : FileSystem) (d : Driver fs) (path : string)
    (st st1 : LinkState) (mb : Buffer fs) (file : Archive fs) :
  readFile fs path st = (Some mb, st1) →
  identify_magic fs mb = magic_archive →
  Archive_create fs mb = inl file →
  let importFile := replace_extension fs path ".imports" in
  let st2 := exec (when (fs_exists fs importFile) (readImportFile fs importFile)) st1 in
  (inWholeArchive d = true →
   (∀ ms objs,
      Archive_children fs file = (inl <$> ms, None) →
      Forall2 (λ m o, createObjectFile fs m path = inl o) ms objs →
      addFile fs d path st =
        (Done {| inWholeArchive := true;
                 loaded := loaded d ++ ((λ o, LoadedObject o true) <$> objs) |},
         st2)) ∧
   (∀ ms e rest err,
      Archive_children fs file = ((inl <$> ms) ++ inr e :: rest, err) →
      addFile fs d path st =
        (Exited,
         with_errors
           (errors st2 ++
            [checkMessage fs
               (getBufferIdentifier fs mb +:+
                ": could not get the buffer for a child of the archive") e])
           st2))) ∧
  (inWholeArchive d = false →
   addFile fs d path st =
     (Done (push_back (LoadedArchive mb) d),
      if negb (Archive_isEmpty fs file) && negb (Archive_hasSymbolTable fs file)
      then with_errors
             (errors st2 ++
              [getBufferIdentifier fs mb +:+
               ": archive has no index; run ranlib to add one"]) st2
      else st2)).
Proof.
  intros Hread Hmagic Hcreate. cbn zeta.
  assert (Hhead :
    (readFile fs path ≫= λ buffer,
       match buffer with
       | None => mret (Done d)
       | Some mbref =>
           match identify_magic fs mbref with
           | magic_archive =>
               when (fs_exists fs (replace_extension fs path ".imports"))
                 (readImportFile fs (replace_extension fs path ".imports"));;
               (if inWholeArchive d
                then bindO (getArchiveMembers fs mbref) (λ ms, addMembers fs path ms d)
                else
                  bindO (CHECK fs (Archive_create fs mbref)
                           (path +:+ ": failed to parse archive"))
                    (λ file,
                       when (negb (Archive_isEmpty fs file) &&
                             negb (Archive_hasSymbolTable fs file))
                         (error (getBufferIdentifier fs mbref +:+
                                 ": archive has no index; run ranlib to add one"));;
                       mret (Done (push_back (LoadedArchive mbref) d))))
           | magic_bitcode | magic_wasm_object =>
               match createObjectFile fs mbref "" with
               | inl object => mret (Done (push_back (LoadedObject object false) d))
               | inr msg => fatal msg
               end
           | magic_other =>
               error ("unknown file type: " +:+ getBufferIdentifier fs mbref);;
               mret (Done d)
           end
       end) st =
    (if inWholeArchive d
     then bindO (getArchiveMembers fs mb) (λ ms, addMembers fs path ms d)
     else
       bindO (CHECK fs (Archive_create fs mb) (path +:+ ": failed to parse archive"))
         (λ file,
            when (negb (Archive_isEmpty fs file) &&
                  negb (Archive_hasSymbolTable fs file))
              (error (getBufferIdentifier fs mb +:+
                      ": archive has no index; run ranlib to add one"));;
            mret (Done (push_back (LoadedArchive mb) d))))
      (exec (when (fs_exists fs (replace_extension fs path ".imports"))
               (readImportFile fs (replace_extension fs path ".imports"))) st1)).
  { rewrite run_bind, Hread. cbn [fst snd]. rewrite Hmagic.
    rewrite run_bind. reflexivity. }
  unfold addFile. cbn zeta. rewrite Hhead.
  clear Hhead.
  set (st2 := exec (when _ _) st1). clearbody st2.
  split.
  - intros Hw. rewrite Hw. split.
    + intros ms objs Hc Hobjs.
      eapply run_bindO_Done.
      * unfold getArchiveMembers. rewrite Hcreate.
        eapply run_bindO_Done; [reflexivity|]. rewrite Hc. cbn [fst snd].
        eapply run_bindO_Done; [apply run_getArchiveMembers_loop_ok|]. reflexivity.
      * cbn [app]. rewrite (run_addMembers_ok fs path ms objs Hobjs).
        by rewrite Hw.
    + intros ms e rest err Hc. apply run_bindO_Exited.
      unfold getArchiveMembers. rewrite Hcreate.
      eapply run_bindO_Done; [reflexivity|]. rewrite Hc. cbn [fst snd].
      apply run_bindO_Exited. apply run_getArchiveMembers_loop_bad.
  - intros ->. rewrite Hcreate.
    eapply run_bindO_Done; [reflexivity|]. rewrite run_bind, run_when. cbn [fst snd].
    by destruct (negb (Archive_isEmpty fs file) && negb (Archive_hasSymbolTable fs file)).
Qed.

(** [libc.a] after --whole-archive: its two members are loaded and marked
    live. *)
Lemma archive_loading_modes_witness :
  readFile sampleFiles "libc.a" initialState = (Some "libc.a", initialState) ∧
  identify_magic sampleFiles "libc.a" = magic_archive ∧
  Archive_create sampleFiles "libc.a" = inl ["a.o"; "b.o"] ∧
  addFile sampleFiles (set_inWholeArchive true (newDriver sampleFiles)) "libc.a"
    initialState =
    (Done {| inWholeArchive := true;
             loaded := [LoadedObject ("a.o" : ObjFile sampleFiles) true;
                        LoadedObject ("b.o" : ObjFile sampleFiles) true] |},
     initialState).
Proof.
  split_and!; [reflexivity | reflexivity | reflexivity |].
  destruct (archive_loading_modes sampleFiles
              (set_inWholeArchive true (newDriver sampleFiles)) "libc.a"
              initialState initialState "libc.a" ["a.o"; "b.o"]
              eq_refl eq_refl eq_refl) as [H _].
  destruct (H eq_refl) as [H1 _].
  apply (H1 ["a.o"; "b.o"] ["a.o"; "b.o"] eq_refl).
  repeat constructor.
Defined.

End InputFacts.

(** ** Parsing the command line *)

Module ParsingFacts.
Import Parsing.

Lemma run_getQuotingStyle rsp host st :
  getQuotingStyle rsp host st =
    match rsp with
    | Some s =>
        (if bool_decide (s = "windows") then TokenizeWindowsCommandLine
         else TokenizeGNUCommandLine,
         with_errors
           (errors st ++
            if bool_decide (s = "windows") || bool_decide (s = "posix") then []
            else ["invalid response file quoting: " +:+ s]) st)
    | None =>
        (if host then TokenizeWindowsCommandLine else TokenizeGNUCommandLine, st)
    end.
Proof.
  unfold getQuotingStyle. destruct rsp as [s|]; [|by destruct host].
  rewrite run_bind, run_when. cbn [fst snd].
  destruct (bool_decide (s = "windows")), (bool_decide (s = "posix"));
    cbn [negb andb orb]; rewrite ?with_errors_nil; reflexivity.
Qed.

Lemma run_handleColorDiagnostics arg colors st :
  handleColorDiagnostics arg colors st =
    match arg with
    | Some Color_diagnostics => (true, st)
    | Some No_color_diagnostics => (false, st)
    | Some (Color_diagnostics_eq s) =>
        (if bool_decide (s = "always") then true
         else if bool_decide (s = "never") then false else colors,
         with_errors
           (errors st ++
            if bool_decide (s = "always") || bool_decide (s = "never") ||
               bool_decide (s = "auto")
            then [] else ["unknown option: --color-diagnostics=" +:+ s]) st)
    | None => (colors, st)
    end.
Proof.
  unfold handleColorDiagnostics. destruct arg as [[|s|]|]; try reflexivity.
  destruct (bool_decide (s = "always")), (bool_decide (s = "never")),
    (bool_decide (s = "auto")); cbn [negb orb]; rewrite ?with_errors_nil; reflexivity.
Qed.

Lemma run_forEach_error {A} (f : A → string) l st :
  forEach l (λ a, error (f a)) st = (tt, with_errors (errors st ++ (f <$> l)) st).
Proof.
  revert st. induction l as [|a l IH]; intros st.
  - cbn. by rewrite with_errors_nil.
  - cbn [forEach]. rewrite run_bind, run_error. cbn [fst snd]. rewrite IH.
    unfold with_errors. cbn. by rewrite <- app_assoc.
Qed.

(** X26. [parse] reads the command line twice.  The quoting style of
    response files comes from the first reading, before any response file
    is expanded: --rsp-quoting=windows gives the Windows tokenizer, any
    other value the GNU one, a value that is neither windows nor posix
    being reported as well; without the option the host decides.  Colour
    and unknown arguments come from the second reading, of the expanded
    command line.  The errors are, in this order, the quoting error, the
    error for a --color-diagnostics value other than always, never and
    auto, and one error per unknown argument; nothing else changes. *)
Theorem parse_reads_twice (p : Parser) (argv : list string) (colors : bool)
    (st : LinkState) :
  let first := ParseArgs p argv in
  let style :=
    match rsp_quoting p first with
    | Some s => if bool_decide (s = "windows") then TokenizeWindowsCommandLine
                else TokenizeGNUCommandLine
    | None => if hostIsWindows p then TokenizeWindowsCommandLine
              else TokenizeGNUCommandLine
    end in
  let args := ParseArgs p (ExpandResponseFiles p style argv) in
  let r := eval (parse p argv colors) st in
  let st' := exec (parse p argv colors) st in
  r.1 = args ∧
  r.2 =
    match color_arg p args with
    | Some Color_diagnostics => true
    | Some No_color_diagnostics => false
    | Some (Color_diagnostics_eq s) =>
        if bool_decide (s = "always") then true
        else if bool_decide (s = "never") then false else colors
    | None => colors
    end ∧
  errors st' =
    errors st ++
    match rsp_quoting p first with
    | Some s => if bool_decide (s = "windows") || bool_decide (s = "posix") then []
                else ["invalid response file quoting: " +:+ s]
    | None => []
    end ++
    match color_arg p args with
    | Some (Color_diagnostics_eq s) =>
        if bool_decide (s = "always") || bool_decide (s = "never") ||
           bool_decide (s = "auto")
        then [] else ["unknown option: --color-diagnostics=" +:+ s]
    | _ => []
    end ++
    ((λ a, "unknown argument: " +:+ a) <$> unknown_args p args) ∧
  config st' = config st ∧ symtab st' = symtab st ∧ wasmSym st' = wasmSym st ∧
  files st' = files st ∧ warnings st' = warnings st.
Proof.
  cbn zeta. unfold eval, exec, parse. cbn zeta.
  rewrite run_bind, run_getQuotingStyle.
  destruct (rsp_quoting p (ParseArgs p argv)) as [s|]; cbn [fst snd].
  - set (style := if bool_decide (s = "windows") then _ else _).
    set (e1 := if bool_decide (s = "windows") || bool_decide (s = "posix") then _ else _).
    clearbody style e1.
    rewrite run_bind, run_handleColorDiagnostics.
    destruct (color_arg p (ParseArgs p (ExpandResponseFiles p style argv)))
      as [[|c|]|]; cbn [fst snd];
      rewrite run_bind, run_forEach_error; cbn [fst snd];
      unfold mret, Link_ret; st_simpl; cbn [app];
      rewrite ?app_nil_r, <- ?app_assoc; repeat split; reflexivity.
  - set (style := if hostIsWindows p then _ else _). clearbody style.
    rewrite run_bind, run_handleColorDiagnostics.
    destruct (color_arg p (ParseArgs p (ExpandResponseFiles p style argv)))
      as [[|c|]|]; cbn [fst snd];
      rewrite run_bind, run_forEach_error; cbn [fst snd];
      unfold mret, Link_ret; st_simpl; cbn [app];
      rewrite ?app_nil_r, <- ?app_assoc; repeat split; reflexivity.
Qed.

Lemma parse_result p argv colors st :
  (eval (parse p argv colors) st).1 = expandedArgs p argv.
Proof.
  unfold eval, parse, expandedArgs. cbn zeta.
  rewrite run_bind, run_getQuotingStyle.
  destruct (rsp_quoting p (ParseArgs p argv)) as [s|]; cbn [fst snd].
  - set (style := if bool_decide (s = "windows") then _ else _). clearbody style.
    rewrite run_bind, run_handleColorDiagnostics.
    destruct (color_arg p (ParseArgs p (ExpandResponseFiles p style argv)))
      as [[|c|]|]; cbn [fst snd];
      rewrite run_bind, run_forEach_error; reflexivity.
  - set (style := if hostIsWindows p then _ else _). clearbody style.
    rewrite run_bind, run_handleColorDiagnostics.
    destruct (color_arg p (ParseArgs p (ExpandResponseFiles p style argv)))
      as [[|c|]|]; cbn [fst snd];
      rewrite run_bind, run_forEach_error; reflexivity.
Qed.

Lemma parse_clean p argv colors st :
  bool_decide (errorCount (exec (parse p argv colors) st) = 0) =
    bool_decide (errorCount st = 0) && parseAccepts p argv.
Proof.
  assert (Hlen : ∀ (l k : list string),
    bool_decide (length (l ++ k) = 0) =
      bool_decide (length l = 0) && bool_decide (k = [])).
  { intros [|x l] [|y k]; reflexivity. }
  unfold exec, parse, parseAccepts, expandedArgs, errorCount. cbn zeta.
  rewrite run_bind, run_getQuotingStyle.
  destruct (rsp_quoting p (ParseArgs p argv)) as [s|]; cbn [fst snd].
  - set (style := if bool_decide (s = "windows") then _ else _). clearbody style.
    rewrite run_bind, run_handleColorDiagnostics.
    destruct (bool_decide (s = "windows") || bool_decide (s = "posix"));
    destruct (color_arg p (ParseArgs p (ExpandResponseFiles p style argv)))
      as [[|c|]|]; cbn [fst snd];
      rewrite run_bind, run_forEach_error; cbn [fst snd];
      unfold mret, Link_ret; st_simpl;
      try destruct (bool_decide (c = "always") || bool_decide (c = "never") ||
                    bool_decide (c = "auto"));
      rewrite ?app_nil_r, ?Hlen, ?fmap_nil; cbn [andb];
      rewrite ?andb_true_r, ?andb_false_r; try reflexivity;
      destruct (unknown_args p _); cbn [fmap list_fmap]; cbn;
      rewrite ?andb_true_r, ?andb_false_r; reflexivity.
  - set (style := if hostIsWindows p then _ else _). clearbody style.
    rewrite run_bind, run_handleColorDiagnostics.
    destruct (color_arg p (ParseArgs p (ExpandResponseFiles p style argv)))
      as [[|c|]|]; cbn [fst snd];
      rewrite run_bind, run_forEach_error; cbn [fst snd];
      unfold mret, Link_ret; st_simpl;
      try destruct (bool_decide (c = "always") || bool_decide (c = "never") ||
                    bool_decide (c = "auto"));
      rewrite ?app_nil_r, ?Hlen, ?fmap_nil; cbn [andb];
      rewrite ?andb_true_r, ?andb_false_r; try reflexivity;
      destruct (unknown_args p _); cbn [fmap list_fmap]; cbn;
      rewrite ?andb_true_r, ?andb_false_r; reflexivity.
Qed.

(** X27. [link] with --help, --version or -v runs no phase of the link, but
    its result still tells of the command line and of the process: the link
    succeeds exactly when no error was counted before the call and [parse]
    accepted the command line, so that an unknown argument beside --help
    makes the call fail.  With [canExitEarly] the process exits with status
    0 on success and 1 otherwise; else [link] returns the success. *)
Theorem link_help_or_version (ext : Externals) (p : Parser)
    (view : ArgList p → InputArgList) (args : list string)
    (canExitEarly colors : bool) (st : LinkState) :
  let parsed := view (expandedArgs p (tail args)) in
  OPT_help parsed = true ∨ OPT_version parsed = true ∨ OPT_v parsed = true →
  let ok := bool_decide (errorCount st = 0) && parseAccepts p (tail args) in
  let r := link ext p view args canExitEarly colors st in
  r.1.1 = [] ∧
  r.1.2 = (if canExitEarly then ExitLld (if ok then 0 else 1) else Returned ok).
Proof.
  cbn zeta. intros H. unfold link.
  set (st0 := with_files [] _).
  pose proof (parse_result p (tail args) colors st0) as Hr.
  pose proof (parse_clean p (tail args) colors st0) as Hc.
  unfold eval, exec in Hr, Hc.
  destruct (parse p (tail args) colors st0) as [parsed st1]. cbn [fst snd] in Hr, Hc.
  rewrite Hr.
  assert (linkerMain ext (view (expandedArgs p (tail args))) st1 = ([], st1)) as ->.
  { unfold linkerMain.
    destruct (OPT_help _); [reflexivity|].
    destruct H as [H | [-> | ->]]; [done|reflexivity|].
    by rewrite orb_true_r. }
  cbn [fst snd]. by rewrite Hc.
Qed.

(** [wasm-ld --help --bogus]: no phase runs and the link fails. *)
Lemma link_help_or_version_witness :
  OPT_help (sampleView (expandedArgs sampleParser (tail ["wasm-ld"; "--help"; "--bogus"])))
    = true ∧
  (link quietExternals sampleParser sampleView ["wasm-ld"; "--help"; "--bogus"]
     false false initialState).1 = ([], Returned false).
Proof.
  split; [reflexivity|].
  destruct (link_help_or_version quietExternals sampleParser sampleView
              ["wasm-ld"; "--help"; "--bogus"] false false initialState)
    as [H1 H2].
  { left. reflexivity. }
  apply injective_projections; [exact H1 | exact H2].
Defined.


Lemma string_app_assoc (a b c : string) : (a +:+ b) +:+ c = a +:+ (b +:+ c).
Proof.
  induction a as [|x a IH]; [done|].
  change (String x ((a +:+ b) +:+ c) = String x (a +:+ (b +:+ c))). by rewrite IH.
Qed.

Lemma string_app_nil_r (a : string) : a +:+ "" = a.
Proof.
  induction a as [|x a IH]; [done|].
  change (String x (a +:+ "") = String x a). by rewrite IH.
Qed.

Lemma createResponseFile_from_prefix q args :
  ∀ os, createResponseFile_from q os args = os +:+ createResponseFile q args.
Proof.
  unfold createResponseFile.
  induction args as [|a args IH] using rev_ind; intros os.
  - cbn. by rewrite string_app_nil_r.
  - unfold createResponseFile_from in *. rewrite !foldl_app. cbn [foldl].
    rewrite (IH os), (IH "").
    destruct (Inputs.arg_id a); cbn [String.append];
      by rewrite ?string_app_assoc.
Qed.

(** X28. The response file of --reproduce is written argument by argument:
    the text for a command line is the text for its first part followed by
    the text for the rest; a --reproduce argument contributes nothing, so
    with those arguments removed the text is the same. *)
Theorem createResponseFile_by_argument (q : Quoting) (args1 args2 : list Inputs.Arg) :
  createResponseFile q (args1 ++ args2) =
    createResponseFile q args1 +:+ createResponseFile q args2 ∧
  createResponseFile q
    (filter (λ a, Inputs.arg_id a ≠ Inputs.ID_reproduce) (args1 ++ args2)) =
    createResponseFile q (args1 ++ args2).
Proof.
  split.
  - unfold createResponseFile at 1. unfold createResponseFile_from.
    rewrite foldl_app. apply createResponseFile_from_prefix.
  - generalize (args1 ++ args2). intros args. unfold createResponseFile.
    generalize "". induction args as [|a args IH]; intros os; [done|].
    rewrite filter_cons.
    destruct (decide (Inputs.arg_id a ≠ Inputs.ID_reproduce)) as [Ha|Ha].
    + unfold createResponseFile_from in *. cbn [foldl]. apply IH.
    + apply dec_stable in Ha. rewrite IH.
      unfold createResponseFile_from. cbn [foldl]. by rewrite Ha.
Qed.

End ParsingFacts.
